(** * The scanner of the lexical analyzer (scanner.c, scanner.h, main.c)

    A shallow embedding of the C scanner and of the driver loop, and the
    properties of the specification stated over it.

    Modelling conventions.
    - A [char] is an [ascii] (one byte).  The only order tests of the
      source, [isAlpha] and [isDigit], compare against bounds below 128, so
      they give the same answer whether [char] is signed or unsigned.
    - The source buffer is the list of bytes that precede the terminating
      NUL; reading at any offset at or past its end yields NUL.  A NUL byte
      inside the list ends the C string there, exactly as the code sees it.
    - [const char *] values are offsets into the buffer they point into.
    - [int] is a 32-bit two's complement integer: every conversion to [int]
      the source performs is written [int_of_Z].
    - [message] is the text last written to the array of that name.  The
      source writes it with [sprintf], which has no bound; the model
      records the whole text and [fits_message] says whether it lies
      within the 50 bytes.  A text that does not is an overrun, after which
      the C program has no defined behaviour: what calls and the driver
      loop do is then stated under [in_bounds], for the runs in which
      every text written fits.
    - Loops take a fuel argument; [scanToken] supplies more fuel than the
      buffer has bytes, and [scanToken_total] shows that this is enough. *)

From Stdlib Require Import String Ascii List ZArith Lia Bool Arith.
Import ListNotations.

Local Open Scope nat_scope.
Local Open Scope char_scope.

(** ** scanner.h: token types and tokens *)

Inductive TokenType : Set :=
  (* single-character tokens *)
  | TOKEN_LEFT_PAREN | TOKEN_RIGHT_PAREN
  | TOKEN_LEFT_BRACKET | TOKEN_RIGHT_BRACKET
  | TOKEN_LEFT_BRACE | TOKEN_RIGHT_BRACE
  | TOKEN_COMMA | TOKEN_DOT | TOKEN_SEMICOLON | TOKEN_TILDE
  (* one or two character tokens *)
  | TOKEN_PLUS | TOKEN_PLUS_PLUS | TOKEN_PLUS_EQUAL
  | TOKEN_MINUS | TOKEN_MINUS_MINUS | TOKEN_MINUS_EQUAL | TOKEN_MINUS_GREATER
  | TOKEN_STAR | TOKEN_STAR_EQUAL
  | TOKEN_SLASH | TOKEN_SLASH_EQUAL
  | TOKEN_PERCENT | TOKEN_PERCENT_EQUAL
  | TOKEN_AMPER | TOKEN_AMPER_EQUAL | TOKEN_AMPER_AMPER
  | TOKEN_PIPE | TOKEN_PIPE_EQUAL | TOKEN_PIPE_PIPE
  | TOKEN_HAT | TOKEN_HAT_EQUAL
  | TOKEN_EQUAL | TOKEN_EQUAL_EQUAL
  | TOKEN_BANG | TOKEN_BANG_EQUAL
  | TOKEN_LESS | TOKEN_LESS_EQUAL | TOKEN_LESS_LESS
  | TOKEN_GREATER | TOKEN_GREATER_EQUAL | TOKEN_GREATER_GREATER
  (* multi-character tokens *)
  | TOKEN_IDENTIFIER | TOKEN_CHARACTER | TOKEN_STRING | TOKEN_NUMBER
  (* keywords *)
  | TOKEN_SIGNED | TOKEN_UNSIGNED
  | TOKEN_CHAR | TOKEN_SHORT | TOKEN_INT | TOKEN_LONG
  | TOKEN_FLOAT | TOKEN_DOUBLE
  | TOKEN_STRUCT | TOKEN_UNION | TOKEN_ENUM | TOKEN_VOID
  | TOKEN_IF | TOKEN_ELSE | TOKEN_SWITCH | TOKEN_CASE | TOKEN_DEFAULT
  | TOKEN_WHILE | TOKEN_DO | TOKEN_FOR
  | TOKEN_BREAK | TOKEN_CONTINUE | TOKEN_RETURN | TOKEN_GOTO
  | TOKEN_CONST | TOKEN_SIZEOF | TOKEN_TYPEDEF
  (* auxiliary tokens *)
  | TOKEN_ERROR | TOKEN_EOF.

(** [type == TOKEN_EOF] *)
Definition is_TOKEN_EOF (type : TokenType) : bool :=
  match type with
  | TOKEN_EOF => true
  | _ => false
  end.

(** What [Token.start] can point to: a byte of the source buffer, the
    static [message] array, or a string literal of the program. *)
Inductive CharPtr : Type :=
  | SourcePtr (offset : nat)
  | MessagePtr
  | LiteralPtr (text : list ascii).

Record Token : Type := mkToken {
  tok_type : TokenType;
  tok_start : CharPtr;
  tok_length : Z;
  tok_line : Z
}.

(** ** C integers and C strings *)

Definition INT_MAX : Z := 2147483647.

(** Conversion to [int], with its wrap-around. *)
Definition int_of_Z (z : Z) : Z := ((z + 2 ^ 31) mod 2 ^ 32 - 2 ^ 31)%Z.

Definition NUL : ascii := "000".
Definition dquote : ascii := "034".
Definition squote : ascii := "039".
Definition newline : ascii := "010".

(** The bytes of a C string: those before the first NUL. *)
Fixpoint cstring (bytes : list ascii) : list ascii :=
  match bytes with
  | [] => []
  | c :: rest => if (c =? NUL)%char then [] else c :: cstring rest
  end.

Definition strlen (bytes : list ascii) : nat := length (cstring bytes).

(** [memcmp (p, q, n) == 0], for two memory views [p] and [q]. *)
Definition memcmp_eq0 (p q : nat -> ascii) (n : nat) : bool :=
  forallb (fun i => (p i =? q i)%char) (seq 0 n).

(** What [printf]'s [%.*s] emits: a negative precision counts as absent. *)
Definition format_precision_s (precision : Z) (bytes : list ascii) : list ascii :=
  if (precision <? 0)%Z then cstring bytes
  else firstn (Z.to_nat precision) (cstring bytes).

(** Capacity of [static char message[50]]. *)
Definition MESSAGE_SIZE : nat := 50.

(** The string literals of scanner.c, as the bytes of the file. *)
Definition lit (s : string) : list ascii := list_ascii_of_string s.

Definition MSG_MULTILINE_STRING : list ascii := lit "不支持多行字符串!".
Definition MSG_UNTERMINATED_STRING : list ascii := lit "未终止的字符串字面量！".
Definition MSG_INCOMPLETE_CHARACTER : list ascii := lit "此字符不完整,缺少右单引号!".
Definition MSG_MULTILINE_CHARACTER : list ascii := lit "不支持多行字符!".
Definition FMT_NOT_SINGLE_CHARACTER : list ascii := lit "非单字符Token: ".
Definition FMT_UNEXPECTED_CHARACTER : list ascii := lit "意外字符：".

(** ** scanner.c: the static state *)

(** The file-scope statics: the three fields of [scanner], with the two
    pointers as offsets into the source buffer, and the bytes of the C
    string that [message] holds. *)
Record State : Type := mkState {
  start : nat;
  current : nat;
  line : Z;
  message : list ascii
}.

Definition set_start (st : State) (p : nat) : State :=
  mkState p (current st) (line st) (message st).

Definition set_current (st : State) (p : nat) : State :=
  mkState (start st) p (line st) (message st).

Definition set_message (st : State) (m : list ascii) : State :=
  mkState (start st) (current st) (line st) m.

(** Statics are zero-initialised when the program starts. *)
Definition startup : State := mkState 0 0 0 [].

Definition initScanner (st : State) : State :=
  mkState 0 0 1 (message st).

Definition isAlpha (c : ascii) : bool :=
  (("a" <=? c) && (c <=? "z")) ||
  (("A" <=? c) && (c <=? "Z")) ||
  (c =? "_").

Definition isDigit (c : ascii) : bool :=
  ("0" <=? c) && (c <=? "9").

(** Option monad for fuel. *)
Definition obind {A B : Type} (x : option A) (f : A -> option B) : option B :=
  match x with
  | Some a => f a
  | None => None
  end.

Notation "x <- e ;; k" := (obind e (fun x => k))
  (at level 61, e at next level, right associativity).

Section Scanner.

(** The buffer handed to [initScanner]; the scanner never writes to it. *)
Variable source : list ascii.

Definition deref (p : nat) : ascii := nth p source NUL.

Definition isAtEnd (st : State) : bool :=
  deref (current st) =? NUL.

Definition advance (st : State) : ascii * State :=
  (deref (current st), set_current st (S (current st))).

Definition peek (st : State) : ascii :=
  deref (current st).

Definition peekNext (st : State) : ascii :=
  if isAtEnd st then NUL else deref (current st + 1).

Definition match_ (expected : ascii) (st : State) : bool * State :=
  if isAtEnd st then (false, st)
  else if negb (peek st =? expected) then (false, st)
  else (true, set_current st (S (current st))).

(** The bytes a pointer designates. *)
Definition load (p : CharPtr) (st : State) : list ascii :=
  match p with
  | SourcePtr off => skipn off source
  | MessagePtr => message st
  | LiteralPtr text => text
  end.

(** [scanner.current - scanner.start], a [ptrdiff_t]. *)
Definition consumed (st : State) : Z :=
  (Z.of_nat (current st) - Z.of_nat (start st))%Z.

Definition makeToken (type : TokenType) (st : State) : Token :=
  {| tok_type := type;
     tok_start := SourcePtr (start st);
     tok_length := int_of_Z (consumed st);
     tok_line := line st |}.

Definition errorToken (msg : CharPtr) (st : State) : Token :=
  {| tok_type := TOKEN_ERROR;
     tok_start := msg;
     tok_length := int_of_Z (Z.of_nat (strlen (load msg st)));
     tok_line := line st |}.

(** [while (cond) advance();] *)
Fixpoint advanceWhile (fuel : nat) (cond : State -> bool) (st : State)
  : option State :=
  match fuel with
  | O => None
  | S fuel' =>
      if cond st then advanceWhile fuel' cond (snd (advance st))
      else Some st
  end.

Definition in_comment (st : State) : bool :=
  negb (peek st =? newline) && negb (isAtEnd st).

Fixpoint skipWhitespace (fuel : nat) (st : State) : option State :=
  match fuel with
  | O => None
  | S fuel' =>
      let c := peek st in
      if (c =? " ") || (c =? "013") || (c =? "009") || (c =? newline) then
        skipWhitespace fuel' (snd (advance st))
      else if c =? "/" then
        if peekNext st =? "/" then
          st' <- advanceWhile fuel' in_comment st ;;
          skipWhitespace fuel' st'
        else Some st
      else Some st
  end.

Definition checkKeyword (start_ length_ : nat) (rest : list ascii)
    (type : TokenType) (st : State) : TokenType :=
  if (consumed st =? Z.of_nat start_ + Z.of_nat length_)%Z
     && memcmp_eq0 (fun i => deref (start st + start_ + i))
                   (fun i => nth i rest NUL) length_
  then type
  else TOKEN_IDENTIFIER.

Definition identifierType (st : State) : TokenType :=
  let at_ (i : nat) := deref (start st + i) in
  let len := int_of_Z (consumed st) in
  let first := at_ 0 in
  if first =? "b" then checkKeyword 1 4 (lit "reak") TOKEN_BREAK st
  else if first =? "c" then
    if (len >? 1)%Z then
      if at_ 1 =? "a" then checkKeyword 2 2 (lit "se") TOKEN_CASE st
      else if at_ 1 =? "h" then checkKeyword 2 2 (lit "ar") TOKEN_CHAR st
      else if at_ 1 =? "o" then
        if (len >? 3)%Z && (at_ 2 =? "n") then
          if at_ 3 =? "s" then checkKeyword 4 1 (lit "t") TOKEN_CONST st
          else if at_ 3 =? "t" then
            checkKeyword 4 4 (lit "inue") TOKEN_CONTINUE st
          else TOKEN_IDENTIFIER
        else TOKEN_IDENTIFIER
      else TOKEN_IDENTIFIER
    else TOKEN_IDENTIFIER
  else if first =? "d" then
    if (len >? 1)%Z then
      if at_ 1 =? "e" then checkKeyword 2 5 (lit "fault") TOKEN_DEFAULT st
      else if at_ 1 =? "o" then
        if (len =? 2)%Z then TOKEN_DO
        else checkKeyword 2 4 (lit "uble") TOKEN_DOUBLE st
      else TOKEN_IDENTIFIER
    else TOKEN_IDENTIFIER
  else if first =? "e" then
    if (len >? 1)%Z then
      if at_ 1 =? "l" then checkKeyword 2 2 (lit "se") TOKEN_ELSE st
      else if at_ 1 =? "n" then checkKeyword 2 2 (lit "um") TOKEN_ENUM st
      else TOKEN_IDENTIFIER
    else TOKEN_IDENTIFIER
  else if first =? "f" then
    if (len >? 1)%Z then
      if at_ 1 =? "l" then checkKeyword 2 3 (lit "oat") TOKEN_FLOAT st
      else if at_ 1 =? "o" then checkKeyword 2 1 (lit "r") TOKEN_FOR st
      else TOKEN_IDENTIFIER
    else TOKEN_IDENTIFIER
  else if first =? "g" then checkKeyword 1 3 (lit "oto") TOKEN_GOTO st
  else if first =? "i" then
    if (len >? 1)%Z then
      if at_ 1 =? "f" then checkKeyword 2 0 (lit "") TOKEN_IF st
      else if at_ 1 =? "n" then checkKeyword 2 1 (lit "t") TOKEN_INT st
      else TOKEN_IDENTIFIER
    else TOKEN_IDENTIFIER
  else if first =? "l" then checkKeyword 1 3 (lit "ong") TOKEN_LONG st
  else if first =? "r" then checkKeyword 1 5 (lit "eturn") TOKEN_RETURN st
  else if first =? "s" then
    if (len >? 1)%Z then
      if at_ 1 =? "h" then checkKeyword 2 3 (lit "ort") TOKEN_SHORT st
      else if at_ 1 =? "i" then
        if (len >? 2)%Z then
          if at_ 2 =? "g" then checkKeyword 3 3 (lit "ned") TOKEN_SIGNED st
          else if at_ 2 =? "z" then
            checkKeyword 3 3 (lit "eof") TOKEN_SIZEOF st
          else TOKEN_IDENTIFIER
        else TOKEN_IDENTIFIER
      else if at_ 1 =? "t" then checkKeyword 2 4 (lit "ruct") TOKEN_STRUCT st
      else if at_ 1 =? "w" then checkKeyword 2 4 (lit "itch") TOKEN_SWITCH st
      else TOKEN_IDENTIFIER
    else TOKEN_IDENTIFIER
  else if first =? "t" then checkKeyword 1 6 (lit "ypedef") TOKEN_TYPEDEF st
  else if first =? "u" then
    if (len >? 2)%Z && (at_ 1 =? "n") then
      if at_ 2 =? "i" then checkKeyword 3 2 (lit "on") TOKEN_UNION st
      else if at_ 2 =? "s" then
        checkKeyword 3 5 (lit "igned") TOKEN_UNSIGNED st
      else TOKEN_IDENTIFIER
    else TOKEN_IDENTIFIER
  else if first =? "v" then checkKeyword 1 3 (lit "oid") TOKEN_VOID st
  else if first =? "w" then checkKeyword 1 4 (lit "hile") TOKEN_WHILE st
  else TOKEN_IDENTIFIER.

Definition identifier (fuel : nat) (st : State) : option (Token * State) :=
  st' <- advanceWhile fuel (fun s => isAlpha (peek s) || isDigit (peek s)) st ;;
  let type := identifierType st' in
  Some (makeToken type st', st').

Definition number (fuel : nat) (st : State) : option (Token * State) :=
  st1 <- advanceWhile fuel (fun s => isDigit (peek s)) st ;;
  st3 <- (if (peek st1 =? ".") && isDigit (peekNext st1) then
            let st2 := snd (advance st1) in
            advanceWhile fuel (fun s => isDigit (peek s)) st2
          else Some st1) ;;
  Some (makeToken TOKEN_NUMBER st3, st3).

Fixpoint string_ (fuel : nat) (st : State) : option (Token * State) :=
  match fuel with
  | O => None
  | S fuel' =>
      if negb (isAtEnd st) && negb (peek st =? dquote) then
        if peek st =? newline then
          Some (errorToken (LiteralPtr MSG_MULTILINE_STRING) st, st)
        else string_ fuel' (snd (advance st))
      else if isAtEnd st then
        Some (errorToken (LiteralPtr MSG_UNTERMINATED_STRING) st, st)
      else
        let st' := snd (advance st) in
        Some (makeToken TOKEN_STRING st', st')
  end.

(** [sprintf (message, ...)] is given no bound: it writes every byte of the
    formatted text and a terminator from the first byte of [message] on,
    wherever that ends.  [message] has [MESSAGE_SIZE] bytes: a text that
    with its terminator is longer is written past the end of the array,
    and from that write on C leaves the behaviour of the program undefined.
    [sprintf_message] records the text written; [fits_message] says that
    the write stayed inside the array.  A state whose [message] does not
    fit stands for the overrun: it tells what was written, not what the
    program does next. *)
Definition sprintf_message (text : list ascii) (st : State) : State :=
  set_message st (cstring text).

Definition fits_message (st : State) : Prop :=
  length (message st) + 1 <= MESSAGE_SIZE.

(** The part of [character] after its loop. *)
Definition character_close (st : State) : Token * State :=
  if isAtEnd st then
    (errorToken (LiteralPtr MSG_INCOMPLETE_CHARACTER) st, st)
  else
    let st1 := snd (advance st) in
    let charLen := int_of_Z (consumed st1 - 2) in
    if (charLen =? 1)%Z || (charLen =? 0)%Z then
      (makeToken TOKEN_CHARACTER st1, st1)
    else
      let charStart := SourcePtr (start st1 + 1) in
      let st2 :=
        sprintf_message
          (FMT_NOT_SINGLE_CHARACTER
             ++ format_precision_s charLen (load charStart st1)) st1 in
      (errorToken MessagePtr st2, st2).

Fixpoint character_loop (fuel : nat) (st : State) : option (Token * State) :=
  match fuel with
  | O => None
  | S fuel' =>
      if negb (isAtEnd st) && negb (peek st =? squote) then
        if peek st =? newline then
          Some (errorToken (LiteralPtr MSG_MULTILINE_CHARACTER) st, st)
        else character_loop fuel' (snd (advance st))
      else Some (character_close st)
  end.

Definition character (fuel : nat) (st : State) : option (Token * State) :=
  if isAtEnd st then
    Some (errorToken (LiteralPtr MSG_INCOMPLETE_CHARACTER) st, st)
  else character_loop fuel st.

Definition errorTokenWithChar (character : ascii) (st : State)
  : Token * State :=
  let st' := sprintf_message (FMT_UNEXPECTED_CHARACTER ++ [character]) st in
  (errorToken MessagePtr st', st').

(** [return makeToken (match (expected) ? yes : no);] *)
Definition match2 (expected : ascii) (yes no : TokenType) (st : State)
  : Token * State :=
  let (m, st') := match_ expected st in
  (makeToken (if m then yes else no) st', st').

(** [if (match (e1)) return makeToken (t1); else if (match (e2)) return
    makeToken (t2); else return makeToken (t0);] *)
Definition match3 (e1 : ascii) (t1 : TokenType) (e2 : ascii) (t2 : TokenType)
    (t0 : TokenType) (st : State) : Token * State :=
  let (m1, st1) := match_ e1 st in
  if m1 then (makeToken t1 st1, st1)
  else
    let (m2, st2) := match_ e2 st1 in
    if m2 then (makeToken t2 st2, st2)
    else (makeToken t0 st2, st2).

(** More fuel than any loop of one call can use. *)
Definition fuel_for (st : State) : nat :=
  S (S (length source - current st)).

(** [scanToken], from [if (isAtEnd ())] on. *)
Definition scanToken_body (fuel : nat) (st1 : State)
  : option (Token * State) :=
  if isAtEnd st1 then Some (makeToken TOKEN_EOF st1, st1)
  else
    let (c, st2) := advance st1 in
    if isAlpha c then identifier fuel st2
    else if isDigit c then number fuel st2
    else if c =? "(" then Some (makeToken TOKEN_LEFT_PAREN st2, st2)
    else if c =? ")" then Some (makeToken TOKEN_RIGHT_PAREN st2, st2)
    else if c =? "{" then Some (makeToken TOKEN_LEFT_BRACE st2, st2)
    else if c =? "}" then Some (makeToken TOKEN_RIGHT_BRACE st2, st2)
    else if c =? "," then Some (makeToken TOKEN_COMMA st2, st2)
    else if c =? "." then Some (makeToken TOKEN_DOT st2, st2)
    else if c =? ";" then Some (makeToken TOKEN_SEMICOLON st2, st2)
    else if c =? "~" then Some (makeToken TOKEN_TILDE st2, st2)
    else if c =? "+" then
      Some (match3 "+" TOKEN_PLUS_PLUS "=" TOKEN_PLUS_EQUAL TOKEN_PLUS st2)
    else if c =? "-" then
      let (m1, s1) := match_ "-" st2 in
      if m1 then Some (makeToken TOKEN_MINUS_MINUS s1, s1)
      else
        let (m2, s2) := match_ "=" s1 in
        if m2 then Some (makeToken TOKEN_MINUS_EQUAL s2, s2)
        else
          let (m3, s3) := match_ ">" s2 in
          if m3 then Some (makeToken TOKEN_MINUS_GREATER s3, s3)
          else Some (makeToken TOKEN_MINUS s3, s3)
    else if c =? "*" then Some (match2 "=" TOKEN_STAR_EQUAL TOKEN_STAR st2)
    else if c =? "/" then Some (match2 "=" TOKEN_SLASH_EQUAL TOKEN_SLASH st2)
    else if c =? "%" then
      Some (match2 "=" TOKEN_PERCENT_EQUAL TOKEN_PERCENT st2)
    else if c =? "&" then
      Some (match3 "=" TOKEN_AMPER_EQUAL "&" TOKEN_AMPER_AMPER TOKEN_AMPER st2)
    else if c =? "|" then
      Some (match3 "=" TOKEN_PIPE_EQUAL "|" TOKEN_PIPE_PIPE TOKEN_PIPE st2)
    else if c =? "^" then Some (match2 "=" TOKEN_HAT_EQUAL TOKEN_HAT st2)
    else if c =? "=" then Some (match2 "=" TOKEN_EQUAL_EQUAL TOKEN_EQUAL st2)
    else if c =? "!" then Some (match2 "=" TOKEN_BANG_EQUAL TOKEN_BANG st2)
    else if c =? "<" then
      Some (match3 "=" TOKEN_LESS_EQUAL "<" TOKEN_LESS_LESS TOKEN_LESS st2)
    else if c =? ">" then
      Some (match3 "=" TOKEN_GREATER_EQUAL ">" TOKEN_GREATER_GREATER
              TOKEN_GREATER st2)
    else if c =? dquote then string_ fuel st2
    else if c =? squote then character fuel st2
    else Some (errorTokenWithChar c st2).

Definition scanToken (st : State) : option (Token * State) :=
  let fuel := fuel_for st in
  st0 <- skipWhitespace fuel st ;;
  let st1 := set_start st0 (current st0) in
  scanToken_body fuel st1.

(** The text of a token as the driver prints it with ["%.*s"]: at most
    [tok_length] bytes from [tok_start], read when the token is printed. *)
Definition token_text (tok : Token) (st : State) : list ascii :=
  format_precision_s (tok_length tok) (load (tok_start tok) st).

(** main.c, [run]: one entry per token printed, up to and including
    [TOKEN_EOF]. *)
Fixpoint run_loop (fuel : nat) (st : State)
  : option (list (Token * list ascii)) :=
  match fuel with
  | O => None
  | S fuel' =>
      r <- scanToken st ;;
      let (token, st') := r in
      let printed := (token, token_text token st') in
      if is_TOKEN_EOF (tok_type token) then Some [printed]
      else
        more <- run_loop fuel' st' ;;
        Some (printed :: more)
  end.

(** [steps st st']: the cursor moved forward inside the buffer, and
    [start] and [line] are as they were. *)
Definition steps (st st' : State) : Prop :=
  start st' = start st /\ line st' = line st /\
  current st <= current st' /\
  current st' <= Nat.max (current st) (length source).

(** Where the cursor is left by the literal errors: on the newline of a
    multi-line literal, at the end of the buffer for an unterminated one. *)
Definition error_position (tok : Token) (st' : State) : Prop :=
  forall m, tok_start tok = LiteralPtr m ->
    ((m = MSG_MULTILINE_STRING \/ m = MSG_MULTILINE_CHARACTER) /\
     peek st' = newline) \/
    ((m = MSG_UNTERMINATED_STRING \/ m = MSG_INCOMPLETE_CHARACTER) /\
     isAtEnd st' = true).

(** What a call that has read a lead character may do: it returns a token
    other than [TOKEN_EOF] that carries the line of the scanner, the statics
    change as [steps] says, and a literal error leaves the cursor as
    [error_position] says. *)
Definition result_ok (st : State) (r : option (Token * State)) : Prop :=
  exists tok st',
    r = Some (tok, st') /\ steps st st' /\ tok_line tok = line st /\
    error_position tok st' /\ tok_type tok <> TOKEN_EOF.

End Scanner.

(** ** main.c: the driver *)

Definition run (source : list ascii) (st : State)
  : option (list (Token * list ascii)) :=
  run_loop source (S (length source)) (initScanner st).

(** The state of a scanner that [initScanner] has just set on a buffer. *)
Definition fresh : State := initScanner startup.

(** What the driver prints for a buffer: type, text and length of each
    token. *)
Definition printed (source : list ascii)
  : option (list (TokenType * list ascii * Z)) :=
  option_map (map (fun p => (tok_type (fst p), snd p, tok_length (fst p))))
    (run source startup).

(** The same with the line of each token. *)
Definition printed_lines (source : list ascii)
  : option (list (TokenType * list ascii * Z)) :=
  option_map (map (fun p => (tok_type (fst p), snd p, tok_line (fst p))))
    (run source startup).

(** The result of one more call of [scanToken] after [n] calls. *)
Fixpoint nth_call (source : list ascii) (n : nat) (st : State)
  : option (Token * State) :=
  match n with
  | O => scanToken source st
  | S n' => r <- scanToken source st ;; nth_call source n' (snd r)
  end.

(** ** The vocabulary of the specification *)

(** The reserved words and their tags, as the specification lists them. *)
Definition reserved_words : list (list ascii * TokenType) :=
  [ (lit "signed", TOKEN_SIGNED); (lit "unsigned", TOKEN_UNSIGNED);
    (lit "char", TOKEN_CHAR); (lit "short", TOKEN_SHORT);
    (lit "int", TOKEN_INT); (lit "long", TOKEN_LONG);
    (lit "float", TOKEN_FLOAT); (lit "double", TOKEN_DOUBLE);
    (lit "struct", TOKEN_STRUCT); (lit "union", TOKEN_UNION);
    (lit "enum", TOKEN_ENUM); (lit "void", TOKEN_VOID);
    (lit "if", TOKEN_IF); (lit "else", TOKEN_ELSE);
    (lit "switch", TOKEN_SWITCH); (lit "case", TOKEN_CASE);
    (lit "default", TOKEN_DEFAULT); (lit "while", TOKEN_WHILE);
    (lit "do", TOKEN_DO); (lit "for", TOKEN_FOR);
    (lit "break", TOKEN_BREAK); (lit "continue", TOKEN_CONTINUE);
    (lit "return", TOKEN_RETURN); (lit "goto", TOKEN_GOTO);
    (lit "const", TOKEN_CONST); (lit "sizeof", TOKEN_SIZEOF);
    (lit "typedef", TOKEN_TYPEDEF) ].

Fixpoint bytes_eqb (a b : list ascii) : bool :=
  match a, b with
  | [], [] => true
  | x :: a', y :: b' => (x =? y) && bytes_eqb a' b'
  | _, _ => false
  end.

(** Classification as the specification words it, by exact equality with
    a reserved word: the tag of the reserved word equal to the lexeme,
    [TOKEN_IDENTIFIER] when there is none.  [identifierType] is the
    classification of the code. *)
Definition keyword_of (lexeme : list ascii) : TokenType :=
  match find (fun kw => bytes_eqb lexeme (fst kw)) reserved_words with
  | Some kw => snd kw
  | None => TOKEN_IDENTIFIER
  end.

(** The bytes an identifier goes on with. *)
Definition identifier_char (c : ascii) : bool := isAlpha c || isDigit c.

(** The bytes a literal may hold between its quotes. *)
Definition plain (quote : ascii) (c : ascii) : bool :=
  negb (c =? NUL) && negb (c =? quote) && negb (c =? newline).

Definition not_NUL (c : ascii) : bool := negb (c =? NUL).

(** The lead characters of the one or two character operators. *)
Definition operator_leads : list ascii := lit "+-*/%&|^=!<>".

(** ** Sample buffers *)

Definition sample_blank_tail : list ascii := lit "x   ".
Definition sample_string : list ascii := dquote :: lit "hello" ++ [dquote].
Definition sample_unterminated_string : list ascii := dquote :: lit "hello".
Definition sample_shift_assign : list ascii := lit "<<=".
Definition sample_trailing_dot : list ascii := lit "123.".
Definition sample_fraction : list ascii := lit "3.14".
Definition sample_character : list ascii := lit "'a'".
Definition sample_empty_character : list ascii := lit "''".
Definition sample_two_characters : list ascii := lit "'ab'".
Definition sample_brackets : list ascii := lit "  [ ]".

(** A character literal with 32 bytes between its quotes. *)
Definition sample_long_character : list ascii :=
  squote :: repeat "a" 32 ++ [squote].

(** Two lines, one identifier on each. *)
Definition sample_two_lines : list ascii :=
  lit "first" ++ [newline] ++ lit "second".

Definition sample_keywords : list ascii :=
  lit "return Return returns break breaking do double dot unsigned".

(** ** Blanks and comments *)

(** The four bytes [skipWhitespace] consumes one at a time. *)
Definition is_blank (c : ascii) : bool :=
  (c =? " ") || (c =? "013") || (c =? "009") || (c =? newline).

(** The bytes a line comment runs over. *)
Definition comment_byte (c : ascii) : bool :=
  negb (c =? newline) && negb (c =? NUL).

(** [blank_run rest w]: the bytes [w], followed in the buffer by [rest],
    are blanks and line comments, each comment running to a newline or to
    the end of the buffer. *)
Inductive blank_run (rest : list ascii) : list ascii -> Prop :=
  | blank_run_nil : blank_run rest []
  | blank_run_blank (c : ascii) (w : list ascii) :
      is_blank c = true -> blank_run rest w -> blank_run rest (c :: w)
  | blank_run_comment (body w : list ascii) :
      forallb comment_byte body = true ->
      comment_byte (hd NUL (w ++ rest)) = false ->
      blank_run rest w ->
      blank_run rest ("/" :: "/" :: body ++ w).

(** A byte sequence at which [skipWhitespace] returns: its first byte is
    no blank and it does not start with two slashes. *)
Definition starts_token (rest : list ascii) : Prop :=
  is_blank (hd NUL rest) = false /\
  (hd NUL rest =? "/") && (nth 1 rest NUL =? "/") = false.

Definition sample_blanks : list ascii :=
  lit "  // first" ++ [newline] ++ lit "  // second".

(** ** More sample buffers *)

(** A string literal broken by a newline. *)
Definition sample_multiline_string : list ascii :=
  dquote :: lit "one" ++ [newline] ++ lit "two" ++ [dquote].

Definition sample_open_character : list ascii := lit "'a".

(** ** Lead bytes *)

(** The lead bytes that [scanToken] has a rule for: the letters and the
    underscore, the digits, and the cases of its [switch]. *)
Definition recognized_lead (c : ascii) : bool :=
  isAlpha c || isDigit c
  || existsb (Ascii.eqb c) (lit "(){},.;~+-*/%&|^=!<>" ++ [dquote; squote]).

Definition backslash : ascii := "092".

Definition sample_question : list ascii := lit "a ? b : c".

(** ** Spans *)

(** No terminator among the bytes at offsets [a] to [b - 1]. *)
Definition no_NUL_between (source : list ascii) (a b : nat) : Prop :=
  forall p, a <= p < b -> deref source p <> NUL.


(** [moves source st st']: the cursor went forward over bytes that are not
    the terminator, and [start] and [line] are as they were. *)
Definition moves (source : list ascii) (st st' : State) : Prop :=
  start st' = start st /\ line st' = line st /\
  current st <= current st' /\
  no_NUL_between source (current st) (current st').

(** The three ways [scanToken] builds its result from the final state
    [st']: [makeToken] with a type other than [TOKEN_ERROR], [errorToken]
    on a string literal, both leaving [message] as it was in [st0], or
    [errorToken] on [message]. *)
Definition token_shape (source : list ascii) (st0 : State) (tok : Token)
    (st' : State) : Prop :=
  (exists type, type <> TOKEN_ERROR /\ tok = makeToken type st' /\
                message st' = message st0) \/
  (exists m, tok = errorToken source (LiteralPtr m) st' /\
             message st' = message st0) \/
  tok = errorToken source MessagePtr st'.

Definition body_inv (source : list ascii) (st0 : State)
    (r : option (Token * State)) : Prop :=
  forall tok st', r = Some (tok, st') ->
    moves source st0 st' /\ token_shape source st0 tok st'.


(** ** The operators of the specification *)

(** The operators in their one- and two-byte forms with their tags, as the
    specification lists them. *)
Definition operators : list (list ascii * TokenType) :=
  [ (lit "+", TOKEN_PLUS); (lit "++", TOKEN_PLUS_PLUS);
    (lit "+=", TOKEN_PLUS_EQUAL);
    (lit "-", TOKEN_MINUS); (lit "--", TOKEN_MINUS_MINUS);
    (lit "-=", TOKEN_MINUS_EQUAL); (lit "->", TOKEN_MINUS_GREATER);
    (lit "*", TOKEN_STAR); (lit "*=", TOKEN_STAR_EQUAL);
    (lit "/", TOKEN_SLASH); (lit "/=", TOKEN_SLASH_EQUAL);
    (lit "%", TOKEN_PERCENT); (lit "%=", TOKEN_PERCENT_EQUAL);
    (lit "&", TOKEN_AMPER); (lit "&=", TOKEN_AMPER_EQUAL);
    (lit "&&", TOKEN_AMPER_AMPER);
    (lit "|", TOKEN_PIPE); (lit "|=", TOKEN_PIPE_EQUAL);
    (lit "||", TOKEN_PIPE_PIPE);
    (lit "^", TOKEN_HAT); (lit "^=", TOKEN_HAT_EQUAL);
    (lit "=", TOKEN_EQUAL); (lit "==", TOKEN_EQUAL_EQUAL);
    (lit "!", TOKEN_BANG); (lit "!=", TOKEN_BANG_EQUAL);
    (lit "<", TOKEN_LESS); (lit "<=", TOKEN_LESS_EQUAL);
    (lit "<<", TOKEN_LESS_LESS);
    (lit ">", TOKEN_GREATER); (lit ">=", TOKEN_GREATER_EQUAL);
    (lit ">>", TOKEN_GREATER_GREATER) ].

(** Whether the bytes begin with [p]. *)
Fixpoint prefixb (p bytes : list ascii) : bool :=
  match p, bytes with
  | [], _ => true
  | _ :: _, [] => false
  | c :: p', d :: bytes' => (d =? c) && prefixb p' bytes'
  end.

(** Longest match, in the words of the specification: of the operators
    that the bytes begin with, the longest. *)
Definition longest_operator (bytes : list ascii)
  : option (list ascii * TokenType) :=
  fold_left
    (fun best entry =>
       if prefixb (fst entry) bytes
          && match best with
             | Some b => (length (fst b) <? length (fst entry))%nat
             | None => true
             end
       then Some entry else best)
    operators None.

(** A line comment begins here, not an operator. *)
Definition starts_comment (bytes : list ascii) : bool :=
  prefixb (lit "//") bytes.

Definition sample_operators : list ascii :=
  lit "a+++b->c&&=d>>=e!==f".

(** An identifier lexeme of [2 ^ 32 + 2] bytes: [do] followed by [2 ^ 32]
    letters. *)
Definition sample_long_do : list ascii :=
  lit "do" ++ repeat "x" (Z.to_nat (2 ^ 32)).

(** A character literal with 31 enclosed bytes. *)
Definition sample_overrun_character : list ascii :=
  squote :: repeat "a" 31 ++ [squote].

(** A character literal with [2 ^ 32 + 1] enclosed bytes. *)
Definition sample_wrapped_character : list ascii :=
  squote :: repeat "a" (Z.to_nat (2 ^ 32 + 1)) ++ [squote].

(** ** The bound of [message] *)

(** [fits_message], as a test. *)
Definition message_fits (st : State) : bool :=
  (length (message st) + 1 <=? MESSAGE_SIZE)%nat.

(** [in_bounds source n st]: in the first [n] calls that the driver loop
    makes from [st], no [sprintf] writes past the end of [message]. *)
Fixpoint in_bounds (source : list ascii) (n : nat) (st : State) : bool :=
  match n with
  | O => true
  | S n' =>
      match scanToken source st with
      | Some (token, st') =>
          message_fits st'
          && (is_TOKEN_EOF (tok_type token) || in_bounds source n' st')
      | None => true
      end
  end.

(** A character literal with 4000 enclosed bytes. *)
Definition sample_huge_character : list ascii :=
  squote :: repeat "a" 4000 ++ [squote].

(** ** The message buffer across calls *)

(** [with_message m r]: the result [r] of a call, when [message] holds [m]
    as the call begins: a result that points to [message] has overwritten
    it, any other leaves it as it was. *)
Definition with_message (m : list ascii) (r : Token * State)
  : Token * State :=
  match tok_start (fst r) with
  | MessagePtr => r
  | _ => (fst r, set_message (snd r) m)
  end.

(** ** tools.h: the labels of the token types *)

(** [convert_to_str]: the label the driver prints for a token.  The
    [switch] of the source has a case for each of the 74 token types; its
    [default], which returns the label for an unknown type, is reached by
    no value of the enumeration. *)
Definition convert_to_str (token : Token) : list ascii :=
  match tok_type token with
  | TOKEN_LEFT_PAREN => lit "左小括号"
  | TOKEN_RIGHT_PAREN => lit "右小括号"
  | TOKEN_LEFT_BRACKET => lit "左中括号"
  | TOKEN_RIGHT_BRACKET => lit "右中括号"
  | TOKEN_LEFT_BRACE => lit "左大括号"
  | TOKEN_RIGHT_BRACE => lit "右大括号"
  | TOKEN_COMMA => lit "逗号"
  | TOKEN_DOT => lit "点"
  | TOKEN_SEMICOLON => lit "分号"
  | TOKEN_TILDE => lit "波浪号"
  | TOKEN_PLUS => lit "加号"
  | TOKEN_PLUS_PLUS => lit "自增运算符"
  | TOKEN_PLUS_EQUAL => lit "加赋运算符"
  | TOKEN_MINUS => lit "减号"
  | TOKEN_MINUS_MINUS => lit "自减运算符"
  | TOKEN_MINUS_EQUAL => lit "减赋运算符"
  | TOKEN_MINUS_GREATER => lit "结构体指针访问运算符"
  | TOKEN_STAR => lit "乘号"
  | TOKEN_STAR_EQUAL => lit "乘赋运算符"
  | TOKEN_SLASH => lit "除号"
  | TOKEN_SLASH_EQUAL => lit "除赋运算符"
  | TOKEN_PERCENT => lit "取模运算符"
  | TOKEN_PERCENT_EQUAL => lit "取模赋运算符"
  | TOKEN_AMPER => lit "按位与运算符"
  | TOKEN_AMPER_EQUAL => lit "按位与赋运算符"
  | TOKEN_AMPER_AMPER => lit "逻辑与运算符"
  | TOKEN_PIPE => lit "按位或运算符"
  | TOKEN_PIPE_EQUAL => lit "按位或赋运算符"
  | TOKEN_PIPE_PIPE => lit "逻辑或运算符"
  | TOKEN_HAT => lit "按位异或运算符"
  | TOKEN_HAT_EQUAL => lit "按位异或赋运算符"
  | TOKEN_EQUAL => lit "赋值运算符"
  | TOKEN_EQUAL_EQUAL => lit "等于比较运算符"
  | TOKEN_BANG => lit "逻辑非运算符"
  | TOKEN_BANG_EQUAL => lit "不等于比较运算符"
  | TOKEN_LESS => lit "小于比较运算符"
  | TOKEN_LESS_EQUAL => lit "小于等于比较运算符"
  | TOKEN_LESS_LESS => lit "左移运算符"
  | TOKEN_GREATER => lit "大于比较运算符"
  | TOKEN_GREATER_EQUAL => lit "大于等于比较运算符"
  | TOKEN_GREATER_GREATER => lit "右移运算符"
  | TOKEN_IDENTIFIER => lit "标识符"
  | TOKEN_CHARACTER => lit "字符"
  | TOKEN_STRING => lit "字符串"
  | TOKEN_NUMBER => lit "数字"
  | TOKEN_SIGNED => lit "SIGNED"
  | TOKEN_UNSIGNED => lit "UNSIGNED"
  | TOKEN_CHAR => lit "CHAR"
  | TOKEN_SHORT => lit "SHORT"
  | TOKEN_INT => lit "INT"
  | TOKEN_LONG => lit "LONG"
  | TOKEN_FLOAT => lit "FLOAT"
  | TOKEN_DOUBLE => lit "DOUBLE"
  | TOKEN_STRUCT => lit "STRUCT"
  | TOKEN_UNION => lit "UNION"
  | TOKEN_ENUM => lit "ENUM"
  | TOKEN_VOID => lit "VOID"
  | TOKEN_IF => lit "IF"
  | TOKEN_ELSE => lit "ELSE"
  | TOKEN_SWITCH => lit "SWITCH"
  | TOKEN_CASE => lit "CASE"
  | TOKEN_DEFAULT => lit "DEFAULT"
  | TOKEN_WHILE => lit "WHILE"
  | TOKEN_DO => lit "DO"
  | TOKEN_FOR => lit "FOR"
  | TOKEN_BREAK => lit "BREAK"
  | TOKEN_CONTINUE => lit "CONTINUE"
  | TOKEN_RETURN => lit "RETURN"
  | TOKEN_GOTO => lit "GOTO"
  | TOKEN_CONST => lit "CONST"
  | TOKEN_SIZEOF => lit "SIZEOF"
  | TOKEN_TYPEDEF => lit "TYPEDEF"
  | TOKEN_ERROR => lit "ERROR"
  | TOKEN_EOF => lit "EOF"
  end.

(** The label that the [default] of [convert_to_str] returns. *)
Definition LABEL_UNKNOWN : list ascii := lit "未知".

(** The 74 token types, in the order of the enumeration. *)
Definition token_types : list TokenType :=
  [ TOKEN_LEFT_PAREN;
    TOKEN_RIGHT_PAREN;
    TOKEN_LEFT_BRACKET;
    TOKEN_RIGHT_BRACKET;
    TOKEN_LEFT_BRACE;
    TOKEN_RIGHT_BRACE;
    TOKEN_COMMA;
    TOKEN_DOT;
    TOKEN_SEMICOLON;
    TOKEN_TILDE;
    TOKEN_PLUS;
    TOKEN_PLUS_PLUS;
    TOKEN_PLUS_EQUAL;
    TOKEN_MINUS;
    TOKEN_MINUS_MINUS;
    TOKEN_MINUS_EQUAL;
    TOKEN_MINUS_GREATER;
    TOKEN_STAR;
    TOKEN_STAR_EQUAL;
    TOKEN_SLASH;
    TOKEN_SLASH_EQUAL;
    TOKEN_PERCENT;
    TOKEN_PERCENT_EQUAL;
    TOKEN_AMPER;
    TOKEN_AMPER_EQUAL;
    TOKEN_AMPER_AMPER;
    TOKEN_PIPE;
    TOKEN_PIPE_EQUAL;
    TOKEN_PIPE_PIPE;
    TOKEN_HAT;
    TOKEN_HAT_EQUAL;
    TOKEN_EQUAL;
    TOKEN_EQUAL_EQUAL;
    TOKEN_BANG;
    TOKEN_BANG_EQUAL;
    TOKEN_LESS;
    TOKEN_LESS_EQUAL;
    TOKEN_LESS_LESS;
    TOKEN_GREATER;
    TOKEN_GREATER_EQUAL;
    TOKEN_GREATER_GREATER;
    TOKEN_IDENTIFIER;
    TOKEN_CHARACTER;
    TOKEN_STRING;
    TOKEN_NUMBER;
    TOKEN_SIGNED;
    TOKEN_UNSIGNED;
    TOKEN_CHAR;
    TOKEN_SHORT;
    TOKEN_INT;
    TOKEN_LONG;
    TOKEN_FLOAT;
    TOKEN_DOUBLE;
    TOKEN_STRUCT;
    TOKEN_UNION;
    TOKEN_ENUM;
    TOKEN_VOID;
    TOKEN_IF;
    TOKEN_ELSE;
    TOKEN_SWITCH;
    TOKEN_CASE;
    TOKEN_DEFAULT;
    TOKEN_WHILE;
    TOKEN_DO;
    TOKEN_FOR;
    TOKEN_BREAK;
    TOKEN_CONTINUE;
    TOKEN_RETURN;
    TOKEN_GOTO;
    TOKEN_CONST;
    TOKEN_SIZEOF;
    TOKEN_TYPEDEF;
    TOKEN_ERROR;
    TOKEN_EOF ].

(** The token type that a label stands for. *)
Definition type_of_label (label : list ascii) : option TokenType :=
  find (fun type =>
          bytes_eqb label (convert_to_str (mkToken type MessagePtr 0 0)))
       token_types.

(** The upper-case letter of a lower-case letter. *)
Definition toupper (c : ascii) : ascii :=
  if (("a" <=? c) && (c <=? "z"))%char
  then ascii_of_nat (nat_of_ascii c - 32)
  else c.

(** ** main.c: the rows of the listing *)




(** ** Proof tactics *)

(** Projections of updated states. *)
Ltac fields :=
  cbn [current start line message set_start set_current set_message].

(** Resolve the tests of a lexeme's bytes against constants, one byte
    test at a time. *)
Ltac split_byte_tests :=
  repeat (match goal with
          | |- context [Ascii.eqb ?c ?k] =>
              is_var c; destruct (Ascii.eqb_spec c k); [subst c |]
          end; cbn).

(** * Properties *)

(** ** C integers, characters *)

Lemma int_of_Z_small (z : Z) :
  (- 2 ^ 31 <= z <= INT_MAX)%Z -> int_of_Z z = z.
Proof.
  unfold int_of_Z, INT_MAX. intros Hz.
  rewrite Z.mod_small; lia.
Qed.

(** Conversion to [int] forgets multiples of [2 ^ 32]. *)
Lemma int_of_Z_wraps (z : Z) : int_of_Z (2 ^ 32 + z) = int_of_Z z.
Proof.
  unfold int_of_Z. f_equal.
  replace (2 ^ 32 + z + 2 ^ 31)%Z with (z + 2 ^ 31 + 1 * 2 ^ 32)%Z by lia.
  apply Z.mod_add. lia.
Qed.

Lemma set_current_same (st : State) : set_current st (current st) = st.
Proof. destruct st; reflexivity. Qed.

(** ** Termination and progress of one call *)

Section Progress.

Variable source : list ascii.

Lemma deref_overflow (p : nat) : length source <= p -> deref source p = NUL.
Proof. intros Hp. unfold deref. now apply nth_overflow. Qed.

Lemma not_at_end_lt (st : State) :
  isAtEnd source st = false -> current st < length source.
Proof.
  unfold isAtEnd. intros H.
  destruct (Nat.lt_ge_cases (current st) (length source)) as [Hlt | Hge]; trivial.
  rewrite (deref_overflow _ Hge) in H. discriminate H.
Qed.

Lemma steps_refl (st : State) : steps source st st.
Proof. unfold steps. lia. Qed.

Lemma steps_trans (a b c : State) : steps source a b -> steps source b c -> steps source a c.
Proof. unfold steps. intros (? & ? & ? & ?) (? & ? & ? & ?). repeat split; try congruence; lia. Qed.

Lemma steps_advance (st : State) :
  isAtEnd source st = false -> steps source st (snd (advance source st)).
Proof.
  intros H. apply not_at_end_lt in H. unfold steps. simpl. lia.
Qed.

Lemma advanceWhile_total (cond : State -> bool)
    (Hcond : forall s, cond s = true -> isAtEnd source s = false) :
  forall fuel st,
    length source - current st < fuel ->
    exists st',
      advanceWhile source fuel cond st = Some st' /\
      cond st' = false /\ steps source st st' /\
      message st' = message st /\
      (cond st = true -> current st < current st').
Proof.
  induction fuel as [| fuel IH]; intros st Hfuel; [lia |].
  simpl. destruct (cond st) eqn:Hc.
  - pose proof (Hcond _ Hc) as Hend.
    pose proof (not_at_end_lt _ Hend) as Hlt.
    destruct (IH (set_current st (S (current st)))) as (st' & He & Hc' & Hs & Hm & _).
    { simpl. lia. }
    exists st'. split; [exact He |]. split; [exact Hc' |].
    split; [| split; [exact Hm |]].
    + apply steps_trans with (2 := Hs). now apply steps_advance.
    + intros _. destruct Hs as (_ & _ & Hs & _). simpl in Hs. lia.
  - exists st. split; [reflexivity |]. split; [exact Hc |].
    split; [apply steps_refl |]. split; [reflexivity | discriminate].
Qed.

Lemma in_comment_not_at_end (s : State) :
  in_comment source s = true -> isAtEnd source s = false.
Proof.
  unfold in_comment. intros H. apply andb_true_iff in H as [_ H].
  now apply negb_true_iff in H.
Qed.

Lemma skipWhitespace_total :
  forall fuel st,
    S (length source - current st) < fuel ->
    exists st',
      skipWhitespace source fuel st = Some st' /\ steps source st st' /\
      message st' = message st.
Proof.
  induction fuel as [| fuel IH]; intros st Hfuel; [lia |].
  simpl.
  destruct ((peek source st =? " ") || (peek source st =? "013") || (peek source st =? "009")
            || (peek source st =? newline)) eqn:Hws.
  - assert (Hend : isAtEnd source st = false).
    { unfold isAtEnd. fold (peek source st).
      destruct (Ascii.eqb_spec (peek source st) NUL) as [E |]; trivial.
      rewrite E in Hws. discriminate Hws. }
    pose proof (not_at_end_lt _ Hend) as Hlt.
    destruct (IH (set_current st (S (current st)))) as (st' & He & Hs & Hm).
    { simpl. lia. }
    exists st'. split; [exact He |]. split; [| exact Hm].
    apply steps_trans with (2 := Hs). now apply steps_advance.
  - destruct (peek source st =? "/") eqn:Hslash; [| exists st; auto using steps_refl].
    destruct (peekNext source st =? "/"); [| exists st; auto using steps_refl].
    assert (Hin : in_comment source st = true).
    { unfold in_comment, isAtEnd. fold (peek source st).
      apply Ascii.eqb_eq in Hslash. rewrite Hslash. reflexivity. }
    pose proof (not_at_end_lt _ (in_comment_not_at_end _ Hin)) as Hlt.
    destruct (advanceWhile_total _ in_comment_not_at_end fuel st)
      as (st1 & He1 & _ & Hs1 & Hm1 & Hlt1); [lia |].
    specialize (Hlt1 Hin).
    destruct (IH st1) as (st' & He & Hs & Hm).
    { destruct Hs1 as (_ & _ & _ & Hs1). lia. }
    rewrite He1. simpl. exists st'. split; [exact He |]. split.
    + now apply steps_trans with (2 := Hs).
    + congruence.
Qed.

Lemma steps_match_ (e : ascii) (st : State) :
  steps source st (snd (match_ source e st)).
Proof.
  unfold match_. destruct (isAtEnd source st) eqn:Hend; [apply steps_refl |].
  destruct (negb (peek source st =? e)); [apply steps_refl |].
  now apply steps_advance.
Qed.

Lemma makeToken_ok (type : TokenType) (st0 st : State) :
  type <> TOKEN_EOF ->
  steps source st0 st ->
  result_ok source st0 (Some (makeToken type st, st)).
Proof.
  intros Ht Hs. exists (makeToken type st), st.
  split; [reflexivity |]. split; [exact Hs |]. split; [apply Hs |].
  split; [| exact Ht]. intros m Hm. discriminate Hm.
Qed.

Lemma errorToken_message_ok (st0 st : State) :
  steps source st0 st ->
  result_ok source st0 (Some (errorToken source MessagePtr st, st)).
Proof.
  intros Hs. exists (errorToken source MessagePtr st), st.
  split; [reflexivity |]. split; [exact Hs |]. split; [apply Hs |].
  split; [| discriminate]. intros m Hm. discriminate Hm.
Qed.

Lemma errorToken_at_end_ok (msg : list ascii) (st0 st : State) :
  msg = MSG_UNTERMINATED_STRING \/ msg = MSG_INCOMPLETE_CHARACTER ->
  isAtEnd source st = true ->
  steps source st0 st ->
  result_ok source st0 (Some (errorToken source (LiteralPtr msg) st, st)).
Proof.
  intros Hmsg Hend Hs. exists (errorToken source (LiteralPtr msg) st), st.
  split; [reflexivity |]. split; [exact Hs |]. split; [apply Hs |].
  split; [| discriminate]. intros m Hm. injection Hm as <-. right. now split.
Qed.

Lemma errorToken_at_newline_ok (msg : list ascii) (st0 st : State) :
  msg = MSG_MULTILINE_STRING \/ msg = MSG_MULTILINE_CHARACTER ->
  peek source st = newline ->
  steps source st0 st ->
  result_ok source st0 (Some (errorToken source (LiteralPtr msg) st, st)).
Proof.
  intros Hmsg Hnl Hs. exists (errorToken source (LiteralPtr msg) st), st.
  split; [reflexivity |]. split; [exact Hs |]. split; [apply Hs |].
  split; [| discriminate]. intros m Hm. injection Hm as <-. left. now split.
Qed.

Lemma match2_ok (e : ascii) (yes no : TokenType) (st0 st : State) :
  yes <> TOKEN_EOF -> no <> TOKEN_EOF ->
  steps source st0 st ->
  result_ok source st0 (Some (match2 source e yes no st)).
Proof.
  intros Hy Hn Hs. unfold match2.
  pose proof (steps_match_ e st) as H.
  destruct (match_ source e st) as [m st']. simpl in H.
  apply makeToken_ok; [now destruct m |].
  now apply steps_trans with (1 := Hs).
Qed.

Lemma match3_ok (e1 : ascii) (t1 : TokenType) (e2 : ascii) (t2 t0 : TokenType)
    (st0 st : State) :
  t1 <> TOKEN_EOF -> t2 <> TOKEN_EOF -> t0 <> TOKEN_EOF ->
  steps source st0 st ->
  result_ok source st0 (Some (match3 source e1 t1 e2 t2 t0 st)).
Proof.
  intros Ht1 Ht2 Ht0 Hs. unfold match3.
  pose proof (steps_match_ e1 st) as H1.
  destruct (match_ source e1 st) as [m1 st1]. simpl in H1.
  pose proof (steps_trans _ _ _ Hs H1) as Hs1.
  destruct m1; [now apply makeToken_ok |].
  pose proof (steps_match_ e2 st1) as H2.
  destruct (match_ source e2 st1) as [m2 st2]. simpl in H2.
  pose proof (steps_trans _ _ _ Hs1 H2) as Hs2.
  destruct m2; now apply makeToken_ok.
Qed.

Lemma steps_set_message (st : State) (m : list ascii) :
  steps source st (set_message st m).
Proof. unfold steps. simpl. lia. Qed.

Lemma alnum_not_at_end (s : State) :
  isAlpha (peek source s) || isDigit (peek source s) = true -> isAtEnd source s = false.
Proof.
  unfold isAtEnd. fold (peek source s). intros H.
  destruct (Ascii.eqb_spec (peek source s) NUL) as [E |]; trivial.
  rewrite E in H. discriminate H.
Qed.

Lemma digit_not_at_end (s : State) :
  isDigit (peek source s) = true -> isAtEnd source s = false.
Proof.
  intros H. apply alnum_not_at_end. rewrite H. apply orb_true_r.
Qed.

Lemma identifierType_not_EOF (st : State) :
  identifierType source st <> TOKEN_EOF.
Proof.
  unfold identifierType, checkKeyword.
  repeat match goal with
  | |- context [if ?b then _ else _] => destruct b
  end; discriminate.
Qed.

Lemma identifier_ok (fuel : nat) (st0 st : State) :
  length source - current st < fuel ->
  steps source st0 st ->
  result_ok source st0 (identifier source fuel st).
Proof.
  intros Hfuel Hs. unfold identifier.
  destruct (advanceWhile_total _ alnum_not_at_end fuel st Hfuel)
    as (st' & He & _ & Hs' & _).
  rewrite He. simpl. apply makeToken_ok; [apply identifierType_not_EOF |].
  now apply steps_trans with (1 := Hs).
Qed.

Lemma number_ok (fuel : nat) (st0 st : State) :
  length source - current st < fuel ->
  steps source st0 st ->
  result_ok source st0 (number source fuel st).
Proof.
  intros Hfuel Hs. unfold number.
  destruct (advanceWhile_total _ digit_not_at_end fuel st Hfuel)
    as (st1 & He1 & _ & Hs1 & _).
  rewrite He1. simpl.
  pose proof (steps_trans _ _ _ Hs Hs1) as Hs01.
  destruct ((peek source st1 =? ".") && isDigit (peekNext source st1)) eqn:Hdot.
  - assert (Hend : isAtEnd source st1 = false).
    { unfold isAtEnd. fold (peek source st1).
      apply andb_true_iff in Hdot as [Hdot _].
      apply Ascii.eqb_eq in Hdot. now rewrite Hdot. }
    pose proof (steps_advance _ Hend) as Hadv.
    destruct (advanceWhile_total _ digit_not_at_end fuel
                (set_current st1 (S (current st1))))
      as (st3 & He3 & _ & Hs3 & _).
    { destruct Hs1 as (_ & _ & ? & _). simpl. lia. }
    rewrite He3. simpl. apply makeToken_ok; [discriminate |].
    apply steps_trans with (1 := Hs01). now apply steps_trans with (1 := Hadv).
  - simpl. now apply makeToken_ok.
Qed.

(** How [string] ends: on the newline of a multi-line literal, at the end
    of the buffer, or past the closing quote. *)
Lemma string_total :
  forall fuel st,
    length source - current st < fuel ->
    exists tok st',
      string_ source fuel st = Some (tok, st') /\
      steps source st st' /\ message st' = message st /\
      ((tok = errorToken source (LiteralPtr MSG_MULTILINE_STRING) st' /\
        peek source st' = newline) \/
       (tok = errorToken source (LiteralPtr MSG_UNTERMINATED_STRING) st' /\
        isAtEnd source st' = true) \/
       (tok = makeToken TOKEN_STRING st' /\ current st < current st')).
Proof.
  induction fuel as [| fuel IH]; intros st Hfuel; [lia |].
  simpl. destruct (isAtEnd source st) eqn:Hend; simpl.
  - exists (errorToken source (LiteralPtr MSG_UNTERMINATED_STRING) st), st.
    split; [reflexivity |]. split; [apply steps_refl |]. split; [reflexivity |].
    right. left. now split.
  - pose proof (not_at_end_lt _ Hend) as Hlt.
    destruct (peek source st =? dquote) eqn:Hq; simpl.
    + eexists _, _. split; [reflexivity |].
      split; [now apply steps_advance |]. split; [reflexivity |].
      right. right. split; [reflexivity |]. simpl. lia.
    + destruct (peek source st =? newline) eqn:Hnl.
      * exists (errorToken source (LiteralPtr MSG_MULTILINE_STRING) st), st.
        split; [reflexivity |]. split; [apply steps_refl |].
        split; [reflexivity |]. left. split; [reflexivity |].
        now apply Ascii.eqb_eq.
      * destruct (IH (set_current st (S (current st))))
          as (tok & st' & He & Hs & Hm & Hcases); [simpl; lia |].
        exists tok, st'. split; [exact He |].
        split; [apply steps_trans with (2 := Hs); now apply steps_advance |].
        split; [exact Hm |].
        destruct Hcases as [H | [H | [H1 H2]]]; auto.
        right. right. split; [exact H1 |]. simpl in H2. lia.
Qed.

Lemma string_ok (fuel : nat) (st0 st : State) :
  length source - current st < fuel ->
  steps source st0 st ->
  result_ok source st0 (string_ source fuel st).
Proof.
  intros Hfuel Hs.
  destruct (string_total fuel st Hfuel) as (tok & st' & He & Hs' & _ & Hcases).
  rewrite He. pose proof (steps_trans _ _ _ Hs Hs') as Hs0.
  destruct Hcases as [[-> Hnl] | [[-> Hend] | [-> _]]].
  - apply errorToken_at_newline_ok; auto.
  - apply errorToken_at_end_ok; auto.
  - now apply makeToken_ok.
Qed.

#[local] Hint Extern 1 (_ <> TOKEN_EOF) => discriminate : core.

(** [character] ends like [string], or past the closing quote with a
    [TOKEN_CHARACTER] or the length diagnostic. *)
Lemma character_close_ok (st0 st : State) :
  steps source st0 st ->
  result_ok source st0 (Some (character_close source st)).
Proof.
  intros Hs. unfold character_close.
  destruct (isAtEnd source st) eqn:Hend.
  - apply errorToken_at_end_ok; auto.
  - pose proof (steps_trans _ _ _ Hs (steps_advance _ Hend)) as Hs1.
    simpl.
    match goal with |- context [if ?b then _ else _] => destruct b end.
    + now apply makeToken_ok.
    + apply errorToken_message_ok.
      apply steps_trans with (1 := Hs1). apply steps_set_message.
Qed.

Lemma character_loop_ok :
  forall fuel st0 st,
    length source - current st < fuel ->
    steps source st0 st ->
    result_ok source st0 (character_loop source fuel st).
Proof.
  induction fuel as [| fuel IH]; intros st0 st Hfuel Hs; [lia |].
  simpl. destruct (negb (isAtEnd source st) && negb (peek source st =? squote)) eqn:Hc.
  - apply andb_true_iff in Hc as [Hend _]. apply negb_true_iff in Hend.
    pose proof (not_at_end_lt _ Hend) as Hlt.
    destruct (peek source st =? newline) eqn:Hnl.
    + apply Ascii.eqb_eq in Hnl. apply errorToken_at_newline_ok; auto.
    + apply IH; [simpl; lia |].
      apply steps_trans with (1 := Hs). now apply steps_advance.
  - now apply character_close_ok.
Qed.

Lemma character_ok (fuel : nat) (st0 st : State) :
  length source - current st < fuel ->
  steps source st0 st ->
  result_ok source st0 (character source fuel st).
Proof.
  intros Hfuel Hs. unfold character. destruct (isAtEnd source st) eqn:Hend.
  - apply errorToken_at_end_ok; auto.
  - now apply character_loop_ok.
Qed.

Lemma errorTokenWithChar_ok (c : ascii) (st0 st : State) :
  steps source st0 st ->
  result_ok source st0 (Some (errorTokenWithChar source c st)).
Proof.
  intros Hs. unfold errorTokenWithChar. apply errorToken_message_ok.
  apply steps_trans with (1 := Hs). apply steps_set_message.
Qed.

(** The body of [scanToken] away from the end of the buffer: it returns,
    and the cursor has moved past the lead character at least. *)
Lemma scanToken_body_ok (fuel : nat) (st : State) :
  isAtEnd source st = false ->
  length source - current st <= fuel ->
  exists tok st',
    scanToken_body source fuel st = Some (tok, st') /\
    steps source st st' /\ tok_line tok = line st /\
    error_position source tok st' /\ tok_type tok <> TOKEN_EOF /\
    current st < current st'.
Proof.
  intros Hend Hfuel.
  pose proof (not_at_end_lt _ Hend) as Hlt.
  pose proof (steps_advance _ Hend) as Hadv.
  assert (Hres : result_ok source (snd (advance source st))
                   (scanToken_body source fuel st)).
  { unfold scanToken_body. rewrite Hend.
    change (advance source st) with (peek source st, snd (advance source st)).
    cbv iota beta.
    set (st2 := snd (advance source st)) in *.
    assert (Hfuel2 : length source - current st2 < fuel)
      by (subst st2; simpl; lia).
    pose proof (steps_refl st2) as Hs2. clearbody st2.
    repeat match goal with
    | |- result_ok _ _ (if ?b then _ else _) => destruct b
    end;
    auto using makeToken_ok, match2_ok, match3_ok, identifier_ok, number_ok,
      string_ok, character_ok, errorTokenWithChar_ok.
    pose proof (steps_match_ "-" st2) as H1.
    destruct (match_ source "-" st2) as [m1 s1]. simpl in H1.
    destruct m1; [now apply makeToken_ok |].
    pose proof (steps_trans _ _ _ H1 (steps_match_ "=" s1)) as H2.
    destruct (match_ source "=" s1) as [m2 s2]. simpl in H2.
    destruct m2; [now apply makeToken_ok |].
    pose proof (steps_trans _ _ _ H2 (steps_match_ ">" s2)) as H3.
    destruct (match_ source ">" s2) as [m3 s3]. simpl in H3.
    destruct m3; now apply makeToken_ok. }
  destruct Hres as (tok & st' & He & Hs & Hl & Hp & Ht).
  exists tok, st'. split; [exact He |].
  split; [now apply steps_trans with (1 := Hadv) |].
  split; [exact Hl |]. split; [exact Hp |]. split; [exact Ht |].
  destruct Hs as (_ & _ & Hs & _). simpl in Hs. lia.
Qed.

Lemma skipWhitespace_at_end (fuel : nat) (st : State) :
  isAtEnd source st = true -> skipWhitespace source (S fuel) st = Some st.
Proof.
  unfold isAtEnd. fold (peek source st). intros H.
  apply Ascii.eqb_eq in H. simpl. now rewrite H.
Qed.

Lemma set_start_same (st : State) :
  start st = current st -> set_start st (current st) = st.
Proof. destruct st; simpl; intros ->; reflexivity. Qed.

(** At the end of the buffer a call returns [TOKEN_EOF] with an empty
    span and only moves [start]. *)
Lemma scanToken_at_end (st : State) :
  isAtEnd source st = true ->
  scanToken source st =
    Some ({| tok_type := TOKEN_EOF; tok_start := SourcePtr (current st);
             tok_length := 0; tok_line := line st |},
          set_start st (current st)).
Proof.
  intros Hend. unfold scanToken, fuel_for.
  rewrite (skipWhitespace_at_end _ _ Hend). simpl.
  unfold scanToken_body.
  change (isAtEnd source (set_start st (current st)))
    with (isAtEnd source st).
  rewrite Hend. unfold makeToken, consumed. simpl.
  now rewrite Z.sub_diag.
Qed.

(** One call: the whitespace is skipped, then either the buffer is at its
    end and the token is [TOKEN_EOF], or a token is read. *)
Lemma scanToken_cases (st : State) :
  exists st0,
    skipWhitespace source (fuel_for source st) st = Some st0 /\
    steps source st st0 /\ message st0 = message st /\
    let st1 := set_start st0 (current st0) in
    (isAtEnd source st0 = true /\
     scanToken source st = Some (makeToken TOKEN_EOF st1, st1)) \/
    (isAtEnd source st0 = false /\
     exists tok st',
       scanToken source st = Some (tok, st') /\
       line st' = line st /\ tok_line tok = line st /\
       error_position source tok st' /\ tok_type tok <> TOKEN_EOF /\
       current st0 < current st' /\ current st' <= length source).
Proof.
  destruct (skipWhitespace_total (fuel_for source st) st)
    as (st0 & He & Hs & Hm); [unfold fuel_for; lia |].
  exists st0. split; [exact He |]. split; [exact Hs |]. split; [exact Hm |].
  unfold scanToken. rewrite He. simpl.
  set (st1 := set_start st0 (current st0)).
  destruct (isAtEnd source st0) eqn:Hend.
  - left. split; [reflexivity |]. unfold scanToken_body.
    change (isAtEnd source st1) with (isAtEnd source st0).
    now rewrite Hend.
  - right. split; [reflexivity |].
    destruct (scanToken_body_ok (fuel_for source st) st1)
      as (tok & st' & Heq & Hs' & Hl & Hp & Ht & Hlt).
    { exact Hend. }
    { destruct Hs as (_ & _ & Hs & _). unfold fuel_for. subst st1. simpl. lia. }
    exists tok, st'. split; [exact Heq |].
    destruct Hs as (_ & Hl0 & _ & _).
    destruct Hs' as (_ & Hl' & _ & Hmax).
    pose proof (not_at_end_lt _ Hend) as Hlen.
    subst st1. simpl in *.
    repeat split; trivial; try congruence; lia.
Qed.

Lemma scanToken_total (st : State) :
  exists tok st', scanToken source st = Some (tok, st').
Proof.
  destruct (scanToken_cases st) as (st0 & _ & _ & _ & [[_ H] | [_ H]]).
  - eauto.
  - destruct H as (tok & st' & H & _). eauto.
Qed.

Lemma scanToken_progress (st : State) :
  isAtEnd source st = false ->
  exists tok st',
    scanToken source st = Some (tok, st') /\
    current st < current st' /\ current st' <= length source.
Proof.
  intros Hend. pose proof (not_at_end_lt _ Hend) as Hlen.
  destruct (scanToken_cases st) as (st0 & He & Hs & _ & [[Hend0 H] | [_ H]]).
  - eexists _, _. split; [exact H |]. simpl.
    destruct Hs as (_ & _ & Hle & Hmax).
    assert (current st <> current st0); [| lia].
    intros E. unfold isAtEnd in *. rewrite E in Hend. congruence.
  - destruct H as (tok & st' & H & _ & _ & _ & _ & Hlt & Hle).
    exists tok, st'. split; [exact H |].
    destruct Hs as (_ & _ & Hs & _). lia.
Qed.

Lemma scanToken_line (st : State) (tok : Token) (st' : State) :
  scanToken source st = Some (tok, st') ->
  tok_line tok = line st /\ line st' = line st.
Proof.
  intros H.
  destruct (scanToken_cases st) as (st0 & _ & Hs & _ & [[_ H'] | [_ H']]).
  - rewrite H' in H. injection H as <- <-. simpl. split; apply Hs.
  - destruct H' as (tok' & st'' & H' & Hl & Hl' & _).
    rewrite H' in H. injection H as <- <-. now split.
Qed.

Lemma scanToken_error_position (st : State) (tok : Token) (st' : State) :
  scanToken source st = Some (tok, st') -> error_position source tok st'.
Proof.
  intros H.
  destruct (scanToken_cases st) as (st0 & _ & Hs & _ & [[_ H'] | [_ H']]).
  - rewrite H' in H. injection H as <- <-. intros m Hm. discriminate Hm.
  - destruct H' as (tok' & st'' & H' & _ & _ & Hp & _).
    rewrite H' in H. now injection H as <- <-.
Qed.

(** A call that returns [TOKEN_EOF] leaves the cursor at the end of the
    buffer with [start] on it, and the span is empty. *)
Lemma scanToken_EOF_inv (st : State) (tok : Token) (st' : State) :
  scanToken source st = Some (tok, st') ->
  tok_type tok = TOKEN_EOF ->
  isAtEnd source st' = true /\ start st' = current st' /\
  tok = {| tok_type := TOKEN_EOF; tok_start := SourcePtr (current st');
           tok_length := 0; tok_line := line st' |}.
Proof.
  intros H Ht.
  destruct (scanToken_cases st) as (st0 & _ & _ & _ & [[Hend H'] | [_ H']]).
  - rewrite H' in H. injection H as <- <-.
    split; [exact Hend |]. split; [reflexivity |].
    unfold makeToken, consumed. simpl. now rewrite Z.sub_diag.
  - destruct H' as (tok' & st'' & H' & _ & _ & _ & Hne & _).
    rewrite H' in H. injection H as <- <-. contradiction.
Qed.

Lemma run_loop_reaches_EOF :
  forall fuel st,
    length source - current st < fuel ->
    exists front last,
      run_loop source fuel st = Some (front ++ [last]) /\
      tok_type (fst last) = TOKEN_EOF /\
      Forall (fun p => tok_type (fst p) <> TOKEN_EOF) front /\
      length front <= length source - current st.
Proof.
  induction fuel as [| fuel IH]; intros st Hfuel; [lia |].
  simpl.
  destruct (scanToken_cases st) as (st0 & _ & Hs & _ & [[Hend H] | [Hend H]]).
  - rewrite H. simpl.
    eexists [], _. split; [reflexivity |]. split; [reflexivity |].
    split; [constructor | simpl; lia].
  - destruct H as (tok & st' & H & _ & _ & _ & Hne & Hlt & Hle).
    rewrite H. simpl.
    destruct (is_TOKEN_EOF (tok_type tok)) eqn:Hb.
    { destruct (tok_type tok); try discriminate Hb. contradiction. }
    destruct Hs as (_ & _ & Hs & _).
    destruct (IH st') as (front & last & He & Hlast & Hfront & Hlen); [lia |].
    rewrite He. simpl.
    exists ((tok, token_text source tok st') :: front), last.
    split; [reflexivity |]. split; [exact Hlast |].
    split; [constructor; trivial | simpl; lia].
Qed.

End Progress.

(** ** Progress, end of input *)

Lemma message_fits_spec (st : State) :
  message_fits st = true <-> fits_message st.
Proof. unfold message_fits, fits_message. apply Nat.leb_le. Qed.

(** The first call of a run that stays within [message] does. *)
Lemma in_bounds_first (source : list ascii) (n : nat) (st : State)
    (tok : Token) (st' : State) :
  in_bounds source (S n) st = true ->
  scanToken source st = Some (tok, st') ->
  fits_message st'.
Proof.
  intros Hb H. cbn [in_bounds] in Hb. rewrite H in Hb.
  apply andb_true_iff in Hb as [Hb _]. now apply message_fits_spec.
Qed.

(** C9 does not hold of scanner.c for every buffer.  As long as no call
    writes past the end of [message], a call of [scanToken] on a cursor
    that is not at the end of the buffer returns and leaves [current]
    strictly further, inside the buffer; this holds for the calls that
    return [TOKEN_ERROR] too, and a literal error leaves the cursor at the
    end of the buffer (unterminated literal) or on the offending newline
    (multi-line literal).  A call at the end of the buffer returns
    [TOKEN_EOF].  Hence the driver loop, from any state, prints [TOKEN_EOF]
    after at most as many other tokens as there are bytes left, and so does
    [run].  On a character literal with 4000 enclosed bytes the first call
    has [sprintf] store 4019 bytes and a terminator in the 50 bytes of
    [message]. *)
Theorem scanToken_progress_until_EOF (source : list ascii) (st : State) :
  (isAtEnd source st = false ->
   in_bounds source 1 st = true ->
   exists tok st',
     scanToken source st = Some (tok, st') /\
     current st < current st' /\ current st' <= length source /\
     error_position source tok st' /\
     fits_message st') /\
  (isAtEnd source st = true ->
   exists tok st',
     scanToken source st = Some (tok, st') /\ tok_type tok = TOKEN_EOF) /\
  (in_bounds source (S (length source - current st)) st = true ->
   exists front last,
     run_loop source (S (length source - current st)) st
       = Some (front ++ [last]) /\
     tok_type (fst last) = TOKEN_EOF /\
     Forall (fun p => tok_type (fst p) <> TOKEN_EOF) front /\
     length front <= length source - current st) /\
  (in_bounds source (S (length source)) (initScanner st) = true ->
   exists front last,
     run source st = Some (front ++ [last]) /\
     tok_type (fst last) = TOKEN_EOF /\
     Forall (fun p => tok_type (fst p) <> TOKEN_EOF) front /\
     length front <= length source) /\
  in_bounds sample_huge_character 1 fresh = false /\
  (exists tok st',
     scanToken sample_huge_character fresh = Some (tok, st') /\
     tok_start tok = MessagePtr /\
     length (message st') = 4019 /\
     ~ fits_message st').
Proof.
  split; [| split; [| split; [| split; [| split]]]].
  - intros Hend Hin.
    destruct (scanToken_progress source st Hend) as (tok & st' & H & Hlt & Hle).
    exists tok, st'. repeat split; trivial.
    + now apply scanToken_error_position with (st := st).
    + exact (in_bounds_first source 0 st tok st' Hin H).
  - intros Hend. rewrite (scanToken_at_end source st Hend).
    eexists _, _. split; reflexivity.
  - intros _. apply run_loop_reaches_EOF. lia.
  - intros _. unfold run.
    destruct (run_loop_reaches_EOF source (S (length source)) (initScanner st))
      as (front & last & H & Hl & Hf & Hlen); [simpl; lia |].
    exists front, last. simpl in Hlen. repeat split; trivial. lia.
  - vm_compute. reflexivity.
  - eexists _, _. split; [vm_compute; reflexivity |].
    split; [reflexivity |]. split; [vm_compute; reflexivity |].
    unfold fits_message, MESSAGE_SIZE. cbn [message].
    intros H. apply Nat.leb_le in H. vm_compute in H. discriminate H.
Qed.

Lemma scanToken_progress_until_EOF_witness :
  isAtEnd sample_unterminated_string fresh = false /\
  in_bounds sample_unterminated_string 1 fresh = true /\
  exists tok st',
    scanToken sample_unterminated_string fresh = Some (tok, st') /\
    current fresh < current st' /\
    current st' <= length sample_unterminated_string /\
    error_position sample_unterminated_string tok st' /\
    fits_message st'.
Proof.
  split; [reflexivity |]. split; [reflexivity |].
  apply (proj1 (scanToken_progress_until_EOF sample_unterminated_string fresh));
    reflexivity.
Defined.

(** C10. When the cursor is at the end of the buffer once the whitespace
    is skipped, [scanToken] returns a [TOKEN_EOF] token with an empty span;
    at the end of the buffer the call changes nothing but [start], which
    becomes [current].  A call that has returned [TOKEN_EOF] is followed by
    calls that return the same token and leave the same state, however many
    are made. *)
Theorem scanToken_EOF_idempotent (source : list ascii) (st : State) :
  (forall st0,
     skipWhitespace source (fuel_for source st) st = Some st0 ->
     isAtEnd source st0 = true ->
     scanToken source st =
       Some ({| tok_type := TOKEN_EOF; tok_start := SourcePtr (current st0);
                tok_length := 0; tok_line := line st0 |},
             set_start st0 (current st0))) /\
  (isAtEnd source st = true ->
   scanToken source st =
     Some ({| tok_type := TOKEN_EOF; tok_start := SourcePtr (current st);
              tok_length := 0; tok_line := line st |},
           set_start st (current st))) /\
  (forall tok st',
     scanToken source st = Some (tok, st') ->
     tok_type tok = TOKEN_EOF ->
     tok_length tok = 0%Z /\
     forall n, nth_call source n st' = Some (tok, st')).
Proof.
  split; [| split].
  - intros st0 Hskip Hend. unfold scanToken. rewrite Hskip. simpl.
    unfold scanToken_body.
    change (isAtEnd source (set_start st0 (current st0)))
      with (isAtEnd source st0).
    rewrite Hend. unfold makeToken, consumed. simpl.
    now rewrite Z.sub_diag.
  - apply scanToken_at_end.
  - intros tok st' H Ht.
    destruct (scanToken_EOF_inv source st tok st' H Ht) as (Hend & Hst & ->).
    split; [reflexivity |].
    assert (Hagain : scanToken source st'
                     = Some ({| tok_type := TOKEN_EOF;
                                tok_start := SourcePtr (current st');
                                tok_length := 0; tok_line := line st' |}, st')).
    { rewrite (scanToken_at_end source st' Hend).
      now rewrite (set_start_same st' Hst). }
    induction n as [| n IH]; simpl; rewrite Hagain; [reflexivity | exact IH].
Qed.

Lemma scanToken_EOF_idempotent_witness :
  exists tok st',
    scanToken sample_blank_tail (set_current fresh 1) = Some (tok, st') /\
    tok_type tok = TOKEN_EOF /\ tok_length tok = 0%Z /\
    nth_call sample_blank_tail 5 st' = Some (tok, st').
Proof.
  eexists _, _. split; [reflexivity |]. split; [reflexivity |].
  pose proof (proj2 (proj2 (scanToken_EOF_idempotent sample_blank_tail
                              (set_current fresh 1))) _ _ eq_refl eq_refl)
    as [Hlen Hn].
  split; [exact Hlen | exact (Hn 5)].
Defined.

(** ** Reading a buffer of a known shape *)

Lemma deref_app (pre w : list ascii) (k : nat) :
  deref (pre ++ w) (length pre + k) = nth k w NUL.
Proof. unfold deref. apply app_nth2_plus. Qed.

Lemma deref_app_0 (pre w : list ascii) :
  deref (pre ++ w) (length pre) = hd NUL w.
Proof.
  rewrite <- (Nat.add_0_r (length pre)), deref_app. now destruct w.
Qed.

(** [skipWhitespace] stops at once on a byte that is neither blank nor the
    start of a comment. *)
Lemma skipWhitespace_stop (source : list ascii) (fuel : nat) (st : State) :
  let c := peek source st in
  (c =? " ") || (c =? "013") || (c =? "009") || (c =? newline) = false ->
  (c =? "/") && (peekNext source st =? "/") = false ->
  skipWhitespace source (S fuel) st = Some st.
Proof.
  intros c Hws Hslash. simpl. fold c. rewrite Hws.
  destruct (c =? "/"); [| reflexivity].
  simpl in Hslash. now rewrite Hslash.
Qed.

Lemma scanToken_stop (source : list ascii) (st : State) :
  let c := peek source st in
  (c =? " ") || (c =? "013") || (c =? "009") || (c =? newline) = false ->
  (c =? "/") && (peekNext source st =? "/") = false ->
  scanToken source st
  = scanToken_body source (fuel_for source st) (set_start st (current st)).
Proof.
  intros c Hws Hslash. unfold scanToken, fuel_for.
  now rewrite (skipWhitespace_stop source _ st Hws Hslash).
Qed.

(** ** Operators *)

Lemma match__spec (source : list ascii) (e : ascii) (st : State) :
  match_ source e st =
    if negb (peek source st =? NUL) && (peek source st =? e)
    then (true, set_current st (S (current st)))
    else (false, st).
Proof.
  unfold match_, isAtEnd, peek.
  destruct (deref source (current st) =? NUL);
    destruct (deref source (current st) =? e); reflexivity.
Qed.

Lemma int_of_consumed_small (st : State) (n : Z) :
  consumed st = n -> (-2 ^ 31 <= n <= INT_MAX)%Z -> int_of_Z (consumed st) = n.
Proof. intros -> H. now apply int_of_Z_small. Qed.

(** The body of [scanToken] on an operator lead reads at most one more
    byte. *)
Lemma operator_span (source : list ascii) (fuel : nat) (st : State) :
  start st = current st ->
  In (peek source st) operator_leads ->
  exists tok st',
    scanToken_body source fuel st = Some (tok, st') /\
    tok_start tok = SourcePtr (current st) /\
    (1 <= tok_length tok <= 2)%Z /\
    tok_length tok = (Z.of_nat (current st') - Z.of_nat (current st))%Z.
Proof.
  intros Hstart Hin.
  assert (Hend : isAtEnd source st = false).
  { unfold isAtEnd. fold (peek source st).
    destruct (Ascii.eqb_spec (peek source st) NUL) as [E |]; trivial.
    rewrite E in Hin. simpl in Hin.
    repeat destruct Hin as [Hin | Hin]; try discriminate Hin; contradiction. }
  unfold scanToken_body. rewrite Hend.
  change (advance source st)
    with (peek source st, set_current st (S (current st))).
  cbv iota beta.
  set (st2 := set_current st (S (current st))).
  assert (Hc2 : consumed st2 = 1%Z).
  { unfold consumed. subst st2. cbn [set_current current start].
    rewrite Hstart. lia. }
  assert (Hs2 : start st2 = current st) by (subst st2; simpl; congruence).
  assert (Hcur2 : current st2 = S (current st)) by reflexivity.
  clearbody st2.
  assert (Hone : forall type,
             exists tok st',
               Some (makeToken type st2, st2) = Some (tok, st') /\
               tok_start tok = SourcePtr (current st) /\
               (1 <= tok_length tok <= 2)%Z /\
               tok_length tok
               = (Z.of_nat (current st') - Z.of_nat (current st))%Z).
  { intros type. eexists _, _. split; [reflexivity |].
    unfold makeToken; cbn [tok_start tok_length set_current current start]. rewrite Hs2.
    rewrite (int_of_consumed_small st2 1 Hc2) by (unfold INT_MAX; lia).
    rewrite Hcur2. repeat split; lia. }
  assert (Htwo : forall type st3,
             st3 = st2 \/ st3 = set_current st2 (S (current st2)) ->
             exists tok st',
               Some (makeToken type st3, st3) = Some (tok, st') /\
               tok_start tok = SourcePtr (current st) /\
               (1 <= tok_length tok <= 2)%Z /\
               tok_length tok
               = (Z.of_nat (current st') - Z.of_nat (current st))%Z).
  { intros type st3 [-> | ->]; [apply Hone |].
    eexists _, _. split; [reflexivity |].
    unfold makeToken; cbn [tok_start tok_length set_current current start]. rewrite Hs2.
    rewrite (int_of_consumed_small _ 2) by
      (unfold consumed, INT_MAX in *;
       cbn [set_current current start]; lia).
    rewrite Hcur2. repeat split; lia. }
  assert (Hm : forall e,
             match_ source e st2 = (false, st2) \/
             match_ source e st2 = (true, set_current st2 (S (current st2)))).
  { intros e. rewrite match__spec.
    destruct (negb (peek source st2 =? NUL) && (peek source st2 =? e)); auto. }
  unfold operator_leads in Hin. simpl in Hin.
  repeat destruct Hin as [Hin | Hin]; try contradiction;
    rewrite <- Hin; cbn [isAlpha isDigit Ascii.leb Ascii.eqb Ascii.compare
                          N_of_ascii N_of_digits N.compare N.add N.mul
                          Pos.compare Pos.compare_cont Pos.add Pos.mul
                          Bool.eqb andb orb dquote squote];
    unfold match2, match3;
    repeat match goal with
    | |- context [match_ source ?e st2] =>
        destruct (Hm e) as [-> | ->]; cbv iota beta
    | |- context [match_ source ?e ?s] =>
        rewrite (match__spec source e s);
        destruct (negb (peek source s =? NUL) && (peek source s =? e));
        cbv iota beta
    end;
    apply Htwo; auto.
Qed.

#[local] Arguments deref : simpl never.
#[local] Arguments fuel_for : simpl never.


(** ** Loops over a buffer of a known shape *)

Lemma set_current_twice (st : State) (p q : nat) :
  set_current (set_current st p) q = set_current st q.
Proof. reflexivity. Qed.

Lemma length_app_one (pre : list ascii) (c : ascii) :
  length (pre ++ [c]) = S (length pre).
Proof. rewrite length_app. simpl. lia. Qed.

(** A loop [while (p (peek ())) advance ();] started on [pre ++ w ++ post]
    at the end of [pre], where [p] holds all over [w] and not on the
    byte after it, stops at the end of [w]. *)
Lemma advanceWhile_run (p : ascii -> bool) :
  forall w pre post st fuel,
    current st = length pre ->
    forallb p w = true ->
    p (hd NUL post) = false ->
    length w < fuel ->
    advanceWhile (pre ++ w ++ post) fuel
      (fun s => p (peek (pre ++ w ++ post) s)) st
    = Some (set_current st (length pre + length w)).
Proof.
  induction w as [| c w IH]; intros pre post st fuel Hcur Hrun Hpost Hfuel.
  - destruct fuel as [| fuel]; [simpl in Hfuel; lia |].
    simpl. unfold peek. rewrite Hcur, deref_app_0, Hpost.
    now rewrite Nat.add_0_r, <- Hcur, set_current_same.
  - destruct fuel as [| fuel]; [simpl in Hfuel; lia |].
    simpl in Hrun. apply andb_true_iff in Hrun as [Hc Hrun].
    cbn [advanceWhile]. unfold peek at 1.
    rewrite Hcur, deref_app_0. cbn [hd app]. rewrite Hc.
    cbn [advance snd].
    replace (pre ++ c :: w ++ post) with ((pre ++ [c]) ++ w ++ post)
      by (rewrite <- app_assoc; reflexivity).
    rewrite IH; trivial.
    + rewrite set_current_twice, length_app_one. cbn [length].
      f_equal. f_equal. lia.
    + fields. now rewrite length_app_one, Hcur.
    + simpl in Hfuel. lia.
Qed.

Lemma plain_stop (quote c : ascii) :
  plain quote c = false -> (c =? NUL) = false -> (c =? quote) = false ->
  (c =? newline) = true.
Proof.
  unfold plain. intros H H0 Hq. rewrite H0, Hq in H. simpl in H.
  now apply negb_false_iff in H.
Qed.

Lemma plain_inv (quote c : ascii) :
  plain quote c = true ->
  (c =? NUL) = false /\ (c =? quote) = false /\ (c =? newline) = false.
Proof.
  unfold plain. intros H.
  apply andb_true_iff in H as [H Hn]. apply andb_true_iff in H as [H0 Hq].
  now rewrite negb_true_iff in *.
Qed.

(** [string] run on [pre ++ body ++ post] from the end of [pre], the
    opening quote being read already: it scans the plain bytes of [body] and
    ends on the byte after them. *)
Lemma string_run :
  forall body pre post st fuel,
    current st = length pre ->
    forallb (plain dquote) body = true ->
    plain dquote (hd NUL post) = false ->
    length body < fuel ->
    let source := pre ++ body ++ post in
    let st' := set_current st (length pre + length body) in
    string_ source fuel st =
      Some (if hd NUL post =? NUL then
              (errorToken source (LiteralPtr MSG_UNTERMINATED_STRING) st', st')
            else if hd NUL post =? dquote then
              (makeToken TOKEN_STRING (set_current st' (S (current st'))),
               set_current st' (S (current st')))
            else
              (errorToken source (LiteralPtr MSG_MULTILINE_STRING) st', st')).
Proof.
  induction body as [| c body IH]; intros pre post st fuel Hcur Hbody Hpost Hfuel.
  - destruct fuel as [| fuel]; [simpl in Hfuel; lia |].
    cbn zeta. cbn [app length string_]. unfold isAtEnd, peek.
    rewrite Nat.add_0_r, <- Hcur, set_current_same.
    rewrite Hcur, deref_app_0.
    destruct (hd NUL post =? NUL) eqn:H0; cbn [negb andb]; [reflexivity |].
    destruct (hd NUL post =? dquote) eqn:Hq; cbn [negb andb].
    { cbn [advance snd]. fields. now rewrite Hcur. }
    now rewrite (plain_stop _ _ Hpost H0 Hq).
  - destruct fuel as [| fuel]; [simpl in Hfuel; lia |].
    simpl in Hbody. apply andb_true_iff in Hbody as [Hc Hbody].
    apply plain_inv in Hc as (H0 & Hq & Hn).
    cbn zeta. cbn [string_]. unfold isAtEnd, peek.
    rewrite Hcur, deref_app_0. cbn [hd app]. rewrite H0, Hq, Hn.
    cbn [negb andb advance snd].
    replace (pre ++ c :: body ++ post) with ((pre ++ [c]) ++ body ++ post)
      by (rewrite <- app_assoc; reflexivity).
    rewrite IH; [| | exact Hbody | exact Hpost |].
    + fields. rewrite length_app_one. cbn [length].
      replace (S (length pre) + length body)
        with (length pre + S (length body)) by lia.
      reflexivity.
    + fields. now rewrite length_app_one, Hcur.
    + simpl in Hfuel. lia.
Qed.

(** The same for the loop of [character]. *)
Lemma character_loop_run :
  forall body pre post st fuel,
    current st = length pre ->
    forallb (plain squote) body = true ->
    plain squote (hd NUL post) = false ->
    length body < fuel ->
    let source := pre ++ body ++ post in
    let st' := set_current st (length pre + length body) in
    character_loop source fuel st =
      Some (if negb (hd NUL post =? NUL) && negb (hd NUL post =? squote) then
              (errorToken source (LiteralPtr MSG_MULTILINE_CHARACTER) st', st')
            else character_close source st').
Proof.
  induction body as [| c body IH]; intros pre post st fuel Hcur Hbody Hpost Hfuel.
  - destruct fuel as [| fuel]; [simpl in Hfuel; lia |].
    cbn zeta. cbn [app length character_loop]. unfold isAtEnd, peek.
    rewrite Nat.add_0_r, <- Hcur, set_current_same.
    rewrite Hcur, deref_app_0.
    destruct (hd NUL post =? NUL) eqn:H0; cbn [negb andb]; [reflexivity |].
    destruct (hd NUL post =? squote) eqn:Hq; cbn [negb andb]; [reflexivity |].
    now rewrite (plain_stop _ _ Hpost H0 Hq).
  - destruct fuel as [| fuel]; [simpl in Hfuel; lia |].
    simpl in Hbody. apply andb_true_iff in Hbody as [Hc Hbody].
    apply plain_inv in Hc as (H0 & Hq & Hn).
    cbn zeta. cbn [character_loop]. unfold isAtEnd, peek.
    rewrite Hcur, deref_app_0. cbn [hd app]. rewrite H0, Hq, Hn.
    cbn [negb andb advance snd].
    replace (pre ++ c :: body ++ post) with ((pre ++ [c]) ++ body ++ post)
      by (rewrite <- app_assoc; reflexivity).
    rewrite IH; [| | exact Hbody | exact Hpost |].
    + fields. rewrite length_app_one. cbn [length].
      replace (S (length pre) + length body)
        with (length pre + S (length body)) by lia.
      reflexivity.
    + fields. now rewrite length_app_one, Hcur.
    + simpl in Hfuel. lia.
Qed.

(** ** String literals *)

Lemma cstring_plain (quote : ascii) (body rest : list ascii) :
  forallb (plain quote) body = true ->
  cstring (body ++ rest) = body ++ cstring rest.
Proof.
  induction body as [| c body IH]; intros H; [reflexivity |].
  simpl in H. apply andb_true_iff in H as [Hc H].
  apply plain_inv in Hc as (H0 & _). simpl. rewrite H0. now rewrite IH.
Qed.

Lemma firstn_app_exact (a b : list ascii) (n : nat) :
  n = length a -> firstn n (a ++ b) = a.
Proof.
  intros ->. rewrite firstn_app, Nat.sub_diag, firstn_all. simpl.
  apply app_nil_r.
Qed.

Lemma skipn_app_exact (a b : list ascii) (n : nat) :
  n = length a -> skipn n (a ++ b) = b.
Proof.
  intros ->. rewrite skipn_app, Nat.sub_diag, skipn_all. reflexivity.
Qed.

(** C7, the terminated case: a string literal under the cursor, closed on
    its line, is returned as one [TOKEN_STRING] whose span runs from the
    opening to the closing quote. *)
Lemma string_closed (pre body rest : list ascii) (st : State) :
  let source := pre ++ dquote :: body ++ dquote :: rest in
  current st = length pre ->
  forallb (plain dquote) body = true ->
  (Z.of_nat (length source) <= INT_MAX)%Z ->
  exists st',
    scanToken source st
    = Some ({| tok_type := TOKEN_STRING;
               tok_start := SourcePtr (length pre);
               tok_length := Z.of_nat (length body) + 2;
               tok_line := line st |}, st') /\
    st' = mkState (length pre) (length pre + length body + 2)
            (line st) (message st).
Proof.
  intros source Hcur Hbody Hint.
  destruct st as [s c l m]. simpl in Hcur. subst c.
  assert (D0 : deref source (length pre) = dquote).
  { subst source. now rewrite deref_app_0. }
  assert (Hlen : length source = length pre + S (length body + S (length rest))).
  { subst source. rewrite length_app. cbn [length]. rewrite length_app.
    reflexivity. }
  assert (Hshape : source = (pre ++ [dquote]) ++ body ++ dquote :: rest).
  { subst source. now rewrite <- app_assoc. }
  eexists. split; [| reflexivity].
  rewrite scanToken_stop;
    unfold peek, peekNext, isAtEnd; fields; rewrite ?D0; try reflexivity.
  unfold scanToken_body, isAtEnd, advance. fields. rewrite D0.
  cbn -[string_ fuel_for]. clearbody source.
  rewrite Hshape at 1.
  rewrite string_run;
    [| fields; now rewrite length_app_one | exact Hbody | reflexivity
     | unfold fuel_for; fields; lia ].
  cbn [hd]. cbn -[makeToken length Nat.add].
  unfold makeToken, consumed. fields. rewrite length_app_one.
  rewrite int_of_Z_small by (unfold INT_MAX in *; lia).
  unfold set_current, set_start. cbn [start current line message].
  f_equal. f_equal; f_equal; lia.
Qed.

Lemma string_text (pre body rest : list ascii) (l : Z) (st' : State) :
  forallb (plain dquote) body = true ->
  token_text (pre ++ dquote :: body ++ dquote :: rest)
    {| tok_type := TOKEN_STRING; tok_start := SourcePtr (length pre);
       tok_length := Z.of_nat (length body) + 2; tok_line := l |} st'
  = dquote :: body ++ [dquote].
Proof.
  intros Hbody. unfold token_text, format_precision_s. cbn [tok_length tok_start load].
  destruct (Z.ltb_spec (Z.of_nat (length body) + 2) 0) as [Hneg |_]; [lia |].
  rewrite skipn_app_exact by reflexivity.
  change (cstring (dquote :: body ++ dquote :: rest))
    with (dquote :: cstring (body ++ dquote :: rest)).
  rewrite (cstring_plain dquote) by exact Hbody.
  change (cstring (dquote :: rest)) with (dquote :: cstring rest).
  replace (Z.to_nat (Z.of_nat (length body) + 2)) with (S (length body + 1))
    by lia.
  cbn [firstn]. f_equal.
  change (dquote :: cstring rest) with ([dquote] ++ cstring rest).
  rewrite app_assoc. apply firstn_app_exact.
  rewrite length_app. reflexivity.
Qed.

(** C7, the unterminated case: when the buffer ends before a closing
    quote, the token is the unterminated-string error and the cursor is left
    at the end of the buffer. *)
Lemma string_unterminated (pre body rest : list ascii) (st : State) :
  let source := pre ++ dquote :: body ++ rest in
  current st = length pre ->
  forallb (plain dquote) body = true ->
  hd NUL rest = NUL ->
  exists st',
    scanToken source st
    = Some ({| tok_type := TOKEN_ERROR;
               tok_start := LiteralPtr MSG_UNTERMINATED_STRING;
               tok_length := 33;
               tok_line := line st |}, st') /\
    st' = mkState (length pre) (length pre + length body + 1)
            (line st) (message st) /\
    isAtEnd source st' = true.
Proof.
  intros source Hcur Hbody Hrest.
  destruct st as [s c l m]. simpl in Hcur. subst c.
  assert (D0 : deref source (length pre) = dquote).
  { subst source. now rewrite deref_app_0. }
  assert (Dend : deref source (length pre + length body + 1) = NUL).
  { subst source.
    replace (pre ++ dquote :: body ++ rest)
      with ((pre ++ dquote :: body) ++ rest)
      by (rewrite <- app_assoc; reflexivity).
    replace (length pre + length body + 1) with (length (pre ++ dquote :: body))
      by (rewrite length_app; simpl; lia).
    now rewrite deref_app_0. }
  assert (Hlen : length source = length pre + S (length body + length rest)).
  { subst source. rewrite length_app. cbn [length]. rewrite length_app.
    reflexivity. }
  assert (Hshape : source = (pre ++ [dquote]) ++ body ++ rest).
  { subst source. now rewrite <- app_assoc. }
  exists (mkState (length pre) (length pre + length body + 1) l m).
  split; [| split; [reflexivity |]].
  2: { unfold isAtEnd. cbn [current]. now rewrite Dend. }
  rewrite scanToken_stop;
    unfold peek, peekNext, isAtEnd; fields; rewrite ?D0; try reflexivity.
  unfold scanToken_body, isAtEnd, advance. fields. rewrite D0.
  cbn -[string_ fuel_for]. clearbody source.
  rewrite Hshape at 1.
  rewrite string_run;
    [| fields; now rewrite length_app_one | exact Hbody
     | rewrite Hrest; reflexivity
     | unfold fuel_for; fields; lia ].
  rewrite Hrest. cbn [Ascii.eqb Bool.eqb NUL].
  unfold errorToken. fields. rewrite length_app_one.
  unfold set_current, set_start. cbn [start current line message].
  f_equal. f_equal; f_equal; lia.
Qed.

(** C7. A string literal that is closed on its line, in a buffer whose
    size an [int] holds, is returned as one [TOKEN_STRING] whose span holds
    both quotes, so the buffer made of [hello] between double quotes gives
    one token of 7 bytes.  When the buffer ends before a closing quote, the
    token returned is a [TOKEN_ERROR] whose text is the unterminated-string
    message. *)
Theorem string_literal_contract :
  (forall pre body rest st,
     let source := pre ++ dquote :: body ++ dquote :: rest in
     current st = length pre ->
     forallb (plain dquote) body = true ->
     (Z.of_nat (length source) <= INT_MAX)%Z ->
     exists tok st',
       scanToken source st = Some (tok, st') /\
       tok = {| tok_type := TOKEN_STRING;
                tok_start := SourcePtr (length pre);
                tok_length := Z.of_nat (length body) + 2;
                tok_line := line st |} /\
       token_text source tok st' = dquote :: body ++ [dquote] /\
       current st' = length pre + length body + 2) /\
  (forall pre body rest st,
     let source := pre ++ dquote :: body ++ rest in
     current st = length pre ->
     forallb (plain dquote) body = true ->
     hd NUL rest = NUL ->
     exists tok st',
       scanToken source st = Some (tok, st') /\
       tok_type tok = TOKEN_ERROR /\
       token_text source tok st' = MSG_UNTERMINATED_STRING /\
       isAtEnd source st' = true) /\
  printed sample_string
    = Some [(TOKEN_STRING, sample_string, 7%Z); (TOKEN_EOF, [], 0%Z)] /\
  printed sample_unterminated_string
    = Some [(TOKEN_ERROR, MSG_UNTERMINATED_STRING, 33%Z); (TOKEN_EOF, [], 0%Z)].
Proof.
  split; [| split; [| split; reflexivity]].
  - intros pre body rest st source Hcur Hbody Hint.
    destruct (string_closed pre body rest st Hcur Hbody Hint) as (st' & H & ->).
    eexists _, _. split; [exact H |]. split; [reflexivity |].
    split; [now apply string_text | reflexivity].
  - intros pre body rest st source Hcur Hbody Hrest.
    destruct (string_unterminated pre body rest st Hcur Hbody Hrest)
      as (st' & H & _ & Hend).
    eexists _, _. split; [exact H |]. split; [reflexivity |].
    split; [reflexivity | exact Hend].
Qed.

Lemma string_literal_contract_witness :
  exists tok st',
    scanToken sample_string fresh = Some (tok, st') /\
    tok = {| tok_type := TOKEN_STRING; tok_start := SourcePtr 0;
             tok_length := 7; tok_line := 1 |} /\
    token_text sample_string tok st' = sample_string /\
    current st' = 7.
Proof.
  apply (proj1 string_literal_contract [] (lit "hello") [] fresh);
    [reflexivity | reflexivity | unfold INT_MAX; simpl; lia].
Defined.

(** ** Number literals *)

Lemma digit_class (d : ascii) :
  isDigit d = true ->
  isAlpha d = false /\ (d =? NUL) = false /\
  (d =? " ") || (d =? "013") || (d =? "009") || (d =? newline) = false /\
  (d =? "/") = false /\ (d =? ".") = false.
Proof.
  destruct d as [b0 b1 b2 b3 b4 b5 b6 b7].
  destruct b0, b1, b2, b3, b4, b5, b6, b7; intros H;
    try discriminate H; repeat split; reflexivity.
Qed.

Lemma deref_after (pre w rest : list ascii) :
  deref (pre ++ w ++ rest) (length pre + length w) = hd NUL rest.
Proof.
  rewrite app_assoc, <- length_app. apply deref_app_0.
Qed.

Lemma deref_after_1 (pre w rest : list ascii) :
  deref (pre ++ w ++ rest) (length pre + length w + 1) = nth 1 rest NUL.
Proof.
  rewrite app_assoc, <- length_app. apply deref_app.
Qed.

(** [number] on digits [ds] that no fraction follows: the token ends with
    the digits. *)
Lemma number_run_integer (pre ds rest : list ascii) (st : State) (fuel : nat) :
  let source := pre ++ ds ++ rest in
  current st = length pre ->
  forallb isDigit ds = true ->
  isDigit (hd NUL rest) = false ->
  (hd NUL rest =? ".") && isDigit (nth 1 rest NUL) = false ->
  length ds < fuel ->
  number source fuel st
  = let st' := set_current st (length pre + length ds) in
    Some (makeToken TOKEN_NUMBER st', st').
Proof.
  intros source Hcur Hds Hrest Hdot Hfuel. unfold number. subst source.
  rewrite (advanceWhile_run isDigit) by assumption.
  cbn [obind]. unfold peek, peekNext, isAtEnd. fields.
  rewrite deref_after.
  destruct (hd NUL rest =? ".") eqn:Hp; [| reflexivity].
  cbn [andb] in Hdot |- *.
  apply Ascii.eqb_eq in Hp. rewrite Hp. cbn [Ascii.eqb Bool.eqb NUL].
  rewrite deref_after_1, Hdot. reflexivity.
Qed.

(** [number] on digits [ds] followed by a dot and the digits [fs]: the
    token ends with [fs]. *)
Lemma number_run_fraction (pre ds fs rest : list ascii) (st : State)
    (fuel : nat) :
  let source := pre ++ ds ++ "." :: fs ++ rest in
  current st = length pre ->
  forallb isDigit ds = true ->
  fs <> [] ->
  forallb isDigit fs = true ->
  isDigit (hd NUL rest) = false ->
  length ds + length fs < fuel ->
  number source fuel st
  = let st' := set_current st (length pre + length ds + 1 + length fs) in
    Some (makeToken TOKEN_NUMBER st', st').
Proof.
  intros source Hcur Hds Hne Hfs Hrest Hfuel. unfold number. subst source.
  rewrite (advanceWhile_run isDigit ds pre ("." :: fs ++ rest) st fuel
             Hcur Hds eq_refl) by lia.
  cbn [obind]. unfold peek, peekNext, isAtEnd. fields.
  rewrite deref_after. cbn [hd Ascii.eqb Bool.eqb NUL andb].
  rewrite deref_after_1.
  destruct fs as [| f fs]; [contradiction |].
  cbn [nth app]. simpl in Hfs. apply andb_true_iff in Hfs as [Hf Hfs].
  rewrite Hf. cbn [advance snd]. fields.
  replace (pre ++ ds ++ "." :: f :: fs ++ rest)
    with ((pre ++ ds ++ ["."]) ++ (f :: fs) ++ rest)
    by (rewrite <- !app_assoc; reflexivity).
  rewrite (advanceWhile_run isDigit);
    [| fields; rewrite !length_app; simpl; lia
     | simpl; now rewrite Hf, Hfs | assumption | simpl in *; lia ].
  cbn [obind]. rewrite set_current_twice, !length_app. cbn [length].
  replace (length pre + (length ds + 1) + S (length fs))
    with (length pre + length ds + 1 + S (length fs)) by lia.
  reflexivity.
Qed.

Lemma scanToken_digit (source : list ascii) (st : State) :
  isDigit (peek source st) = true ->
  scanToken source st
  = number source (fuel_for source st)
      (set_current (set_start st (current st)) (S (current st))).
Proof.
  intros Hd. destruct (digit_class _ Hd) as (Ha & H0 & Hws & Hslash & _).
  rewrite scanToken_stop; [| exact Hws | now rewrite Hslash].
  unfold scanToken_body, isAtEnd, advance. fields.
  unfold peek in *. now rewrite H0, Ha, Hd.
Qed.

Lemma cstring_not_NUL (w rest : list ascii) :
  forallb not_NUL w = true -> cstring (w ++ rest) = w ++ cstring rest.
Proof.
  induction w as [| c w IH]; intros H; [reflexivity |].
  simpl in H. apply andb_true_iff in H as [Hc H].
  apply negb_true_iff in Hc. simpl. rewrite Hc. now rewrite IH.
Qed.

(** The text of a token that spans [w] in the source. *)
Lemma token_text_span (pre w rest : list ascii) (type : TokenType) (l : Z)
    (st' : State) :
  forallb not_NUL w = true ->
  token_text (pre ++ w ++ rest)
    {| tok_type := type; tok_start := SourcePtr (length pre);
       tok_length := Z.of_nat (length w); tok_line := l |} st'
  = w.
Proof.
  intros Hw. unfold token_text, format_precision_s.
  cbn [tok_length tok_start load].
  destruct (Z.ltb_spec (Z.of_nat (length w)) 0) as [Hneg |_]; [lia |].
  rewrite skipn_app_exact by reflexivity.
  rewrite cstring_not_NUL by exact Hw.
  rewrite Nat2Z.id. now apply firstn_app_exact.
Qed.

Lemma digits_not_NUL (ds : list ascii) :
  forallb isDigit ds = true -> forallb not_NUL ds = true.
Proof.
  induction ds as [| d ds IH]; intros H; [reflexivity |].
  simpl in H. apply andb_true_iff in H as [Hd H].
  destruct (digit_class _ Hd) as (_ & H0 & _).
  simpl. unfold not_NUL at 1. rewrite H0. now apply IH.
Qed.

(** A number with no fraction under the cursor. *)
Lemma scanToken_integer (pre ds rest : list ascii) (st : State) :
  let source := pre ++ ds ++ rest in
  current st = length pre ->
  ds <> [] ->
  forallb isDigit ds = true ->
  isDigit (hd NUL rest) = false ->
  (hd NUL rest =? ".") && isDigit (nth 1 rest NUL) = false ->
  (Z.of_nat (length source) <= INT_MAX)%Z ->
  scanToken source st
  = Some ({| tok_type := TOKEN_NUMBER; tok_start := SourcePtr (length pre);
             tok_length := Z.of_nat (length ds); tok_line := line st |},
          mkState (length pre) (length pre + length ds)
            (line st) (message st)).
Proof.
  intros source Hcur Hne Hds Hrest Hdot Hint.
  destruct ds as [| d ds]; [contradiction |].
  simpl in Hds. apply andb_true_iff in Hds as [Hd Hds].
  destruct st as [s c l m]. simpl in Hcur. subst c.
  assert (Hlen : length source = length pre + (S (length ds) + length rest)).
  { subst source. rewrite !length_app. reflexivity. }
  rewrite scanToken_digit
    by (unfold peek; fields; subst source; now rewrite deref_app_0).
  assert (Hshape : source = (pre ++ [d]) ++ ds ++ rest).
  { subst source. now rewrite <- app_assoc. }
  clearbody source. rewrite Hshape.
  rewrite number_run_integer;
    [| fields; now rewrite length_app_one | assumption .. |
       unfold fuel_for; fields; rewrite <- Hshape; lia ].
  cbv zeta. unfold makeToken, consumed. fields.
  rewrite length_app_one.
  rewrite int_of_Z_small by (unfold INT_MAX in *; cbn [length] in *; lia).
  unfold set_current, set_start. cbn [start current line message length].
  f_equal. f_equal; f_equal; lia.
Qed.

(** A number with a fraction under the cursor. *)
Lemma scanToken_fraction (pre ds fs rest : list ascii) (st : State) :
  let source := pre ++ ds ++ "." :: fs ++ rest in
  current st = length pre ->
  ds <> [] -> forallb isDigit ds = true ->
  fs <> [] -> forallb isDigit fs = true ->
  isDigit (hd NUL rest) = false ->
  (Z.of_nat (length source) <= INT_MAX)%Z ->
  scanToken source st
  = Some ({| tok_type := TOKEN_NUMBER; tok_start := SourcePtr (length pre);
             tok_length := Z.of_nat (length (ds ++ "." :: fs));
             tok_line := line st |},
          mkState (length pre) (length pre + length (ds ++ "." :: fs))
            (line st) (message st)).
Proof.
  intros source Hcur Hne Hds Hnf Hfs Hrest Hint.
  destruct ds as [| d ds]; [contradiction |].
  simpl in Hds. apply andb_true_iff in Hds as [Hd Hds].
  destruct st as [s c l m]. simpl in Hcur. subst c.
  assert (Hlen : length source
                 = length pre + (S (length ds) + S (length fs + length rest))).
  { subst source. rewrite !length_app. cbn [length]. rewrite !length_app.
    reflexivity. }
  rewrite scanToken_digit
    by (unfold peek; fields; subst source; now rewrite deref_app_0).
  assert (Hshape : source = (pre ++ [d]) ++ ds ++ "." :: fs ++ rest).
  { subst source. now rewrite <- app_assoc. }
  clearbody source. rewrite Hshape.
  rewrite number_run_fraction;
    [| fields; now rewrite length_app_one | assumption .. |
       unfold fuel_for; fields; rewrite <- Hshape; lia ].
  cbv zeta. unfold makeToken, consumed. fields.
  rewrite length_app_one, !length_app. cbn [length].
  rewrite int_of_Z_small by (unfold INT_MAX in *; lia).
  unfold set_current, set_start. cbn [start current line message length].
  f_equal. f_equal; f_equal; lia.
Qed.

Lemma scanToken_dot (source : list ascii) (st : State) :
  peek source st = "." ->
  scanToken source st
  = Some ({| tok_type := TOKEN_DOT; tok_start := SourcePtr (current st);
             tok_length := 1; tok_line := line st |},
          mkState (current st) (S (current st)) (line st) (message st)).
Proof.
  intros Hp.
  rewrite scanToken_stop; [| now rewrite Hp | now rewrite Hp].
  unfold scanToken_body, isAtEnd, advance. fields.
  unfold peek in Hp. rewrite Hp. cbn -[makeToken].
  unfold makeToken, consumed. fields.
  rewrite int_of_Z_small by (unfold INT_MAX; lia).
  unfold set_current, set_start. cbn [start current line message].
  f_equal. f_equal. f_equal. lia.
Qed.

(** C5. The number handler takes a dot into the token only when a digit
    follows the dot.  In a buffer whose size an [int] holds, digits, a dot
    and digits under the cursor are one [TOKEN_NUMBER]; digits that no such
    fraction follows are a [TOKEN_NUMBER] that ends with the digits, and
    when a dot follows them the next call returns it as a [TOKEN_DOT].  So
    the driver prints a number and a dot for [123.], and one number for
    [3.14]. *)
Theorem number_trailing_dot :
  (forall pre ds fs rest st,
     let source := pre ++ ds ++ "." :: fs ++ rest in
     current st = length pre ->
     ds <> [] -> forallb isDigit ds = true ->
     fs <> [] -> forallb isDigit fs = true ->
     isDigit (hd NUL rest) = false ->
     (Z.of_nat (length source) <= INT_MAX)%Z ->
     exists tok st',
       scanToken source st = Some (tok, st') /\
       tok_type tok = TOKEN_NUMBER /\
       token_text source tok st' = ds ++ "." :: fs /\
       current st' = length pre + length (ds ++ "." :: fs)) /\
  (forall pre ds rest st,
     let source := pre ++ ds ++ rest in
     current st = length pre ->
     ds <> [] -> forallb isDigit ds = true ->
     isDigit (hd NUL rest) = false ->
     (hd NUL rest =? ".") && isDigit (nth 1 rest NUL) = false ->
     (Z.of_nat (length source) <= INT_MAX)%Z ->
     exists tok st',
       scanToken source st = Some (tok, st') /\
       tok_type tok = TOKEN_NUMBER /\
       token_text source tok st' = ds /\
       current st' = length pre + length ds) /\
  (forall pre ds rest st,
     let source := pre ++ ds ++ "." :: rest in
     current st = length pre ->
     ds <> [] -> forallb isDigit ds = true ->
     isDigit (hd NUL rest) = false ->
     (Z.of_nat (length source) <= INT_MAX)%Z ->
     exists tok st' dot st'',
       scanToken source st = Some (tok, st') /\
       tok_type tok = TOKEN_NUMBER /\
       token_text source tok st' = ds /\
       scanToken source st' = Some (dot, st'') /\
       tok_type dot = TOKEN_DOT /\
       tok_start dot = SourcePtr (length pre + length ds) /\
       tok_length dot = 1%Z) /\
  printed sample_trailing_dot
    = Some [(TOKEN_NUMBER, lit "123", 3%Z); (TOKEN_DOT, lit ".", 1%Z);
            (TOKEN_EOF, [], 0%Z)] /\
  printed sample_fraction
    = Some [(TOKEN_NUMBER, lit "3.14", 4%Z); (TOKEN_EOF, [], 0%Z)].
Proof.
  split; [| split; [| split; [| split; reflexivity]]].
  - intros pre ds fs rest st source Hcur Hne Hds Hnf Hfs Hrest Hint.
    eexists _, _.
    split; [now apply scanToken_fraction |]. split; [reflexivity |].
    split; [| reflexivity].
    subst source.
    replace (pre ++ ds ++ "." :: fs ++ rest)
      with (pre ++ (ds ++ "." :: fs) ++ rest)
      by (rewrite <- app_assoc; reflexivity).
    apply token_text_span.
    rewrite forallb_app. rewrite (digits_not_NUL _ Hds).
    simpl. now apply digits_not_NUL.
  - intros pre ds rest st source Hcur Hne Hds Hrest Hdot Hint.
    eexists _, _.
    split; [now apply scanToken_integer |]. split; [reflexivity |].
    split; [| reflexivity].
    apply token_text_span. now apply digits_not_NUL.
  - intros pre ds rest st source Hcur Hne Hds Hrest Hint.
    eexists _, _, _, _.
    split.
    { apply (scanToken_integer pre ds ("." :: rest) st Hcur Hne Hds eq_refl);
        [| exact Hint].
      destruct rest; [reflexivity | exact Hrest]. }
    split; [reflexivity |].
    split; [apply token_text_span; now apply digits_not_NUL |].
    split; [apply scanToken_dot; unfold peek; fields; subst source;
            now rewrite deref_after |].
    split; [reflexivity |]. split; reflexivity.
Qed.

Lemma number_trailing_dot_witness :
  exists tok st' dot st'',
    scanToken sample_trailing_dot fresh = Some (tok, st') /\
    tok_type tok = TOKEN_NUMBER /\
    token_text sample_trailing_dot tok st' = lit "123" /\
    scanToken sample_trailing_dot st' = Some (dot, st'') /\
    tok_type dot = TOKEN_DOT /\
    tok_start dot = SourcePtr 3 /\
    tok_length dot = 1%Z.
Proof.
  apply (proj1 (proj2 (proj2 number_trailing_dot)) [] (lit "123") [] fresh);
    [reflexivity | discriminate | reflexivity | reflexivity
    | unfold INT_MAX; simpl; lia].
Defined.

(** ** Operators, longest match *)

Lemma operator_lead_class (c : ascii) :
  In c operator_leads ->
  (c =? NUL) = false /\
  (c =? " ") || (c =? "013") || (c =? "009") || (c =? newline) = false /\
  isAlpha c = false /\ isDigit c = false.
Proof.
  unfold operator_leads. simpl. intros H.
  repeat destruct H as [H | H]; try contradiction; subst c;
    repeat split; reflexivity.
Qed.

Lemma makeToken_span (p n : nat) (l : Z) (m : list ascii) (type : TokenType)
    (q : nat) :
  q = p + n -> (Z.of_nat n <= INT_MAX)%Z ->
  (makeToken type (mkState p q l m), mkState p q l m)
  = ({| tok_type := type; tok_start := SourcePtr p;
        tok_length := Z.of_nat n; tok_line := l |}, mkState p (p + n) l m).
Proof.
  intros -> Hn. unfold makeToken, consumed. fields.
  replace (Z.of_nat (p + n) - Z.of_nat p)%Z with (Z.of_nat n) by lia.
  rewrite int_of_Z_small by (unfold INT_MAX in *; lia). reflexivity.
Qed.

(** The token for an operator lead is the longest operator that the bytes
    under the cursor begin with. *)
Lemma operator_greedy (pre rest : list ascii) (st : State) :
  let source := pre ++ rest in
  current st = length pre ->
  In (hd NUL rest) operator_leads ->
  starts_comment rest = false ->
  exists op type,
    longest_operator rest = Some (op, type) /\
    scanToken source st
    = Some ({| tok_type := type; tok_start := SourcePtr (length pre);
               tok_length := Z.of_nat (length op); tok_line := line st |},
            mkState (length pre) (length pre + length op)
              (line st) (message st)) /\
    firstn (length op) rest = op /\
    forallb not_NUL op = true.
Proof.
  intros source Hcur Hin Hcom.
  destruct st as [s cur l m]. simpl in Hcur. subst cur.
  destruct (operator_lead_class _ Hin) as (H0 & Hws & Ha & Hd).
  destruct rest as [| c rest']; [discriminate H0 |].
  cbn [hd] in *.
  assert (D0 : deref source (length pre) = c)
    by (subst source; now rewrite deref_app_0).
  assert (D1 : deref source (S (length pre)) = hd NUL rest').
  { subst source. rewrite <- Nat.add_1_r, deref_app. now destruct rest'. }
  assert (Hcom' : (c =? "/") && (hd NUL rest' =? "/") = false).
  { unfold starts_comment in Hcom. cbn in Hcom.
    destruct rest'; cbn in *;
      [apply andb_false_r | now rewrite andb_true_r in Hcom]. }
  rewrite scanToken_stop;
    [| unfold peek; fields; now rewrite D0
     | unfold peek, peekNext, isAtEnd; fields;
       rewrite D0, H0, Nat.add_1_r, D1; exact Hcom' ].
  unfold scanToken_body, isAtEnd, advance. fields. rewrite D0, H0, Ha, Hd.
  clearbody source.
  change (set_current (set_start (mkState s (length pre) l m) (length pre))
            (S (length pre)))
    with (mkState (length pre) (S (length pre)) l m).
  assert (Hm : forall e,
             e <> NUL ->
             match_ source e (mkState (length pre) (S (length pre)) l m)
             = if hd NUL rest' =? e
               then (true, mkState (length pre) (S (S (length pre))) l m)
               else (false, mkState (length pre) (S (length pre)) l m)).
  { intros e He. rewrite match__spec. unfold peek. fields. rewrite D1.
    destruct (Ascii.eqb_spec (hd NUL rest') e) as [-> |];
      [| now rewrite andb_false_r].
    apply Ascii.eqb_neq in He. now rewrite He. }
  assert (H1 : forall type,
             Some (makeToken type (mkState (length pre) (S (length pre)) l m),
                   mkState (length pre) (S (length pre)) l m)
             = Some ({| tok_type := type; tok_start := SourcePtr (length pre);
                        tok_length := 1; tok_line := l |},
                     mkState (length pre) (length pre + 1) l m)).
  { intros type. f_equal.
    apply (makeToken_span (length pre) 1); [lia | unfold INT_MAX; lia]. }
  assert (H2 : forall type,
             Some (makeToken type
                     (mkState (length pre) (S (S (length pre))) l m),
                   mkState (length pre) (S (S (length pre))) l m)
             = Some ({| tok_type := type; tok_start := SourcePtr (length pre);
                        tok_length := 2; tok_line := l |},
                     mkState (length pre) (length pre + 2) l m)).
  { intros type. f_equal.
    apply (makeToken_span (length pre) 2); [lia | unfold INT_MAX; lia]. }
  clear D0 D1 Hws Ha Hd.
  destruct rest' as [| d r]; cbn [hd] in *.
  - unfold operator_leads in Hin. simpl in Hin.
    repeat destruct Hin as [Hin | Hin]; try contradiction; subst c;
      cbn [Ascii.eqb Bool.eqb andb orb dquote squote];
      unfold match2, match3;
      repeat (rewrite Hm by discriminate;
              cbn [Ascii.eqb Bool.eqb andb orb negb NUL]);
      eexists _, _; (split; [vm_compute; reflexivity |]);
      (split; [apply H1 |]); split; reflexivity.
  - unfold operator_leads in Hin. simpl in Hin.
    repeat destruct Hin as [Hin | Hin]; try contradiction; subst c;
      cbn [Ascii.eqb Bool.eqb andb orb dquote squote];
      unfold match2, match3;
      repeat (rewrite Hm by discriminate;
              match goal with
              | |- context [(?x =? ?k)] =>
                  is_var x; destruct (Ascii.eqb_spec x k); [subst x |]
              end; cbv iota beta);
      eexists _, _;
      (split;
       [ first [ vm_compute; reflexivity
               | unfold longest_operator, operators; cbn;
                 repeat match goal with
                        | H : ?x <> ?k |- context [(?x =? ?k)] =>
                            rewrite (proj2 (Ascii.eqb_neq x k) H)
                        end;
                 cbn; reflexivity ] |]);
      (split; [first [apply H1 | apply H2] |]); split; reflexivity.
Qed.

(** C6. Each check for a longer operator reads the one byte under the
    cursor and moves the cursor only when that byte is the expected one.
    The token returned for an operator character is the longest operator
    that the bytes under the cursor begin with: its type is the tag of that
    operator, its text the operator, and the cursor is left behind it.  Every
    operator, in its one- and two-byte forms, is scanned as itself.  In a
    buffer that holds [<<=] under the cursor, not followed by another [=],
    [scanToken] returns [TOKEN_LESS_LESS] spanning [<<] and the next call
    returns [TOKEN_EQUAL] spanning [=]; this is what the driver prints for
    the buffer [<<=]. *)
Theorem operator_longest_match :
  (forall source e st,
     match_ source e st =
       if negb (peek source st =? NUL) && (peek source st =? e)
       then (true, set_current st (S (current st)))
       else (false, st)) /\
  (forall source source' e st,
     deref source (current st) = deref source' (current st) ->
     match_ source e st = match_ source' e st) /\
  (forall pre rest st,
     let source := pre ++ rest in
     current st = length pre ->
     In (hd NUL rest) operator_leads ->
     starts_comment rest = false ->
     exists op tok st',
       longest_operator rest = Some (op, tok_type tok) /\
       scanToken source st = Some (tok, st') /\
       tok_start tok = SourcePtr (length pre) /\
       tok_length tok = Z.of_nat (length op) /\
       token_text source tok st' = op /\
       current st' = length pre + length op) /\
  (forall op type,
     In (op, type) operators ->
     option_map (map (fun p => (tok_type (fst p), snd p)))
       (run (op ++ lit " ") startup)
     = Some [(type, op); (TOKEN_EOF, [])]) /\
  (forall source fuel st,
     start st = current st ->
     In (peek source st) operator_leads ->
     exists tok st',
       scanToken_body source fuel st = Some (tok, st') /\
       tok_start tok = SourcePtr (current st) /\
       (1 <= tok_length tok <= 2)%Z /\
       tok_length tok = (Z.of_nat (current st') - Z.of_nat (current st))%Z) /\
  (forall pre rest st,
     current st = length pre ->
     hd NUL rest <> "=" ->
     let source := pre ++ sample_shift_assign ++ rest in
     exists st1 st2,
       scanToken source st
       = Some ({| tok_type := TOKEN_LESS_LESS;
                  tok_start := SourcePtr (length pre);
                  tok_length := 2; tok_line := line st |}, st1) /\
       scanToken source st1
       = Some ({| tok_type := TOKEN_EQUAL;
                  tok_start := SourcePtr (length pre + 2);
                  tok_length := 1; tok_line := line st |}, st2) /\
       current st2 = length pre + 3) /\
  option_map (map (fun p => (tok_type (fst p), snd p)))
    (run sample_shift_assign startup)
  = Some [(TOKEN_LESS_LESS, lit "<<"); (TOKEN_EQUAL, lit "=");
          (TOKEN_EOF, [])] /\
  option_map (map (fun p => (tok_type (fst p), snd p)))
    (run sample_operators startup)
  = Some [(TOKEN_IDENTIFIER, lit "a"); (TOKEN_PLUS_PLUS, lit "++");
          (TOKEN_PLUS, lit "+"); (TOKEN_IDENTIFIER, lit "b");
          (TOKEN_MINUS_GREATER, lit "->"); (TOKEN_IDENTIFIER, lit "c");
          (TOKEN_AMPER_AMPER, lit "&&"); (TOKEN_EQUAL, lit "=");
          (TOKEN_IDENTIFIER, lit "d"); (TOKEN_GREATER_GREATER, lit ">>");
          (TOKEN_EQUAL, lit "="); (TOKEN_IDENTIFIER, lit "e");
          (TOKEN_BANG_EQUAL, lit "!="); (TOKEN_EQUAL, lit "=");
          (TOKEN_IDENTIFIER, lit "f"); (TOKEN_EOF, [])].
Proof.
  split; [exact match__spec |].
  split; [| split; [| split; [| split; [exact operator_span |];
                               split; [| split; vm_compute; reflexivity]]]].
  - intros source source' e st H. rewrite !match__spec. unfold peek.
    now rewrite H.
  - intros pre rest st source Hcur Hin Hcom.
    destruct (operator_greedy pre rest st Hcur Hin Hcom)
      as (op & type & Hop & Hscan & Hfirst & Hnot).
    eexists op, _, _.
    split; [| split; [exact Hscan |]]; [exact Hop |].
    cbn [tok_start tok_length current].
    split; [reflexivity |]. split; [reflexivity |]. split; [| reflexivity].
    subst source. rewrite <- (firstn_skipn (length op) rest), Hfirst.
    now apply token_text_span.
  - intros op type Hin. unfold operators in Hin. simpl in Hin.
    repeat destruct Hin as [Hin | Hin]; try contradiction;
      injection Hin as <- <-; vm_compute; reflexivity.
  - intros pre rest st Hcur Hrest source.
    destruct st as [s c l m]. simpl in Hcur. subst c.
    assert (D0 : deref source (length pre) = "<").
    { subst source. now rewrite deref_app_0. }
    assert (D1 : deref source (S (length pre)) = "<").
    { subst source. rewrite <- Nat.add_1_r. now rewrite deref_app. }
    assert (D2 : deref source (S (S (length pre))) = "=").
    { subst source. replace (S (S (length pre))) with (length pre + 2) by lia.
      now rewrite deref_app. }
    assert (D3 : deref source (S (S (S (length pre)))) <> "=").
    { subst source.
      replace (S (S (S (length pre)))) with (length pre + 3) by lia.
      rewrite deref_app. simpl. now destruct rest. }
    clearbody source.
    eexists _, _. split; [| split].
    + rewrite scanToken_stop;
        unfold peek, peekNext, isAtEnd; fields; rewrite ?D0, ?D1;
        try reflexivity.
      unfold scanToken_body, isAtEnd, advance.
      fields.
      rewrite D0. cbn. unfold match3.
      do 2 (rewrite match__spec; unfold peek;
            fields;
            rewrite D1; cbn).
      unfold makeToken, consumed.
      fields.
      rewrite int_of_Z_small by (unfold INT_MAX; lia).
      replace (Z.of_nat (S (S (length pre))) - Z.of_nat (length pre))%Z
        with 2%Z by lia.
      reflexivity.
    + rewrite scanToken_stop;
        unfold peek, peekNext, isAtEnd; fields; rewrite ?D2;
        try reflexivity.
      unfold scanToken_body, isAtEnd, advance.
      fields.
      rewrite D2. cbn. unfold match2. rewrite !match__spec. unfold peek.
      fields.
      apply Ascii.eqb_neq in D3. rewrite D3, andb_false_r.
      unfold makeToken, consumed.
      fields.
      rewrite int_of_Z_small by (unfold INT_MAX; lia).
      replace (Z.of_nat (S (S (S (length pre))))
               - Z.of_nat (S (S (length pre))))%Z with 1%Z by lia.
      replace (length pre + 2) with (S (S (length pre))) by lia.
      reflexivity.
    + fields. lia.
Qed.

Lemma operator_longest_match_witness :
  let source := lit "a" ++ lit "+=b" in
  exists op tok st',
    longest_operator (lit "+=b") = Some (op, tok_type tok) /\
    scanToken source (set_current fresh 1) = Some (tok, st') /\
    tok_start tok = SourcePtr (length (lit "a")) /\
    tok_length tok = Z.of_nat (length op) /\
    token_text source tok st' = op /\
    current st' = length (lit "a") + length op.
Proof.
  apply (proj1 (proj2 (proj2 operator_longest_match))
           (lit "a") (lit "+=b") (set_current fresh 1));
    [reflexivity | simpl; tauto | reflexivity].
Defined.

(** ** Character literals *)

Lemma scanToken_squote (source : list ascii) (st : State) :
  peek source st = squote ->
  scanToken source st
  = character source (fuel_for source st)
      (set_current (set_start st (current st)) (S (current st))).
Proof.
  intros Hp.
  rewrite scanToken_stop; [| now rewrite Hp | now rewrite Hp].
  unfold scanToken_body, isAtEnd, advance. fields.
  unfold peek in Hp. now rewrite Hp.
Qed.

Lemma plain_not_NUL (quote : ascii) (body : list ascii) :
  forallb (plain quote) body = true -> forallb not_NUL body = true.
Proof.
  induction body as [| c body IH]; intros H; [reflexivity |].
  simpl in H. apply andb_true_iff in H as [Hc H].
  apply plain_inv in Hc as (H0 & _).
  simpl. unfold not_NUL at 1. rewrite H0. now apply IH.
Qed.

(** A character literal under the cursor, closed on its line: what
    [scanToken] returns, by the number of bytes between the quotes. *)
Lemma character_closed (pre body rest : list ascii) (st : State) :
  let source := pre ++ squote :: body ++ squote :: rest in
  current st = length pre ->
  forallb (plain squote) body = true ->
  (Z.of_nat (length source) <= INT_MAX)%Z ->
  let st1 := mkState (length pre) (length pre + length body + 2)
               (line st) (message st) in
  scanToken source st
  = Some (if (length body <=? 1)%nat then
            ({| tok_type := TOKEN_CHARACTER;
                tok_start := SourcePtr (length pre);
                tok_length := Z.of_nat (length body) + 2;
                tok_line := line st |}, st1)
          else
            let st2 := set_message st1 (FMT_NOT_SINGLE_CHARACTER ++ body) in
            (errorToken source MessagePtr st2, st2)).
Proof.
  intros source Hcur Hbody Hint st1.
  destruct st as [s c l m]. simpl in Hcur. subst c.
  assert (D0 : deref source (length pre) = squote).
  { subst source. now rewrite deref_app_0. }
  assert (D1 : (deref source (S (length pre)) =? NUL) = false).
  { subst source. rewrite <- Nat.add_1_r, deref_app. cbn [nth].
    destruct body as [| b body]; [reflexivity |].
    simpl in Hbody. apply andb_true_iff in Hbody as [Hb _].
    now apply plain_inv in Hb as (H0 & _). }
  assert (D2 : deref source (S (length pre) + length body) = squote).
  { subst source.
    replace (pre ++ squote :: body ++ squote :: rest)
      with ((pre ++ [squote]) ++ body ++ squote :: rest)
      by (rewrite <- app_assoc; reflexivity).
    rewrite <- length_app_one with (c := squote). now rewrite deref_after. }
  assert (Hlen : length source = length pre + S (length body + S (length rest))).
  { subst source. rewrite length_app. cbn [length]. rewrite length_app.
    reflexivity. }
  assert (Hskip : skipn (S (length pre)) source = body ++ squote :: rest).
  { subst source.
    replace (pre ++ squote :: body ++ squote :: rest)
      with ((pre ++ [squote]) ++ body ++ squote :: rest)
      by (rewrite <- app_assoc; reflexivity).
    apply skipn_app_exact. now rewrite length_app_one. }
  assert (Hshape : source = (pre ++ [squote]) ++ body ++ squote :: rest).
  { subst source. now rewrite <- app_assoc. }
  rewrite scanToken_squote by (unfold peek; fields; exact D0).
  unfold character, isAtEnd at 1. fields. rewrite D1.
  clearbody source. rewrite Hshape at 1.
  rewrite character_loop_run;
    [| fields; now rewrite length_app_one | exact Hbody | reflexivity
     | unfold fuel_for; fields; lia ].
  cbn [hd]. cbn [squote NUL Ascii.eqb Bool.eqb negb andb].
  rewrite <- Hshape. rewrite length_app_one.
  unfold character_close, isAtEnd. fields. rewrite D2.
  cbn [squote NUL Ascii.eqb Bool.eqb negb andb advance snd].
  unfold makeToken, consumed. fields.
  replace (Z.of_nat (S (S (length pre) + length body))
           - Z.of_nat (length pre) - 2)%Z
    with (Z.of_nat (length body)) by lia.
  rewrite !int_of_Z_small by (unfold INT_MAX in *; lia).
  destruct (Nat.leb_spec (length body) 1) as [Hle | Hgt].
  - replace ((Z.of_nat (length body) =? 1)%Z || (Z.of_nat (length body) =? 0)%Z)
      with true by (symmetry; apply orb_true_iff; lia).
    unfold set_current, set_start, st1. cbn [start current line message].
    f_equal. f_equal; f_equal; lia.
  - replace ((Z.of_nat (length body) =? 1)%Z || (Z.of_nat (length body) =? 0)%Z)
      with false by (symmetry; apply orb_false_iff; lia).
    cbv zeta. unfold sprintf_message, format_precision_s.
    cbn [load]. fields. rewrite Nat.add_1_r, Hskip.
    destruct (Z.ltb_spec (Z.of_nat (length body)) 0) as [Hneg | _]; [lia |].
    rewrite (cstring_plain squote body (squote :: rest) Hbody).
    rewrite Nat2Z.id, firstn_app_exact by reflexivity.
    replace (cstring (FMT_NOT_SINGLE_CHARACTER ++ body))
      with (FMT_NOT_SINGLE_CHARACTER ++ body).
    2: { symmetry. rewrite <- (app_nil_r body) at 1. rewrite app_assoc.
         rewrite cstring_not_NUL; [apply app_nil_r |].
         rewrite forallb_app. rewrite (plain_not_NUL _ _ Hbody).
         reflexivity. }
    unfold set_current, set_start, set_message, st1.
    cbn [start current line message].
    replace (S (S (length pre) + length body))
      with (length pre + length body + 2) by lia.
    reflexivity.
Qed.

(** A character literal under the cursor, closed on its line, whatever its
    length: the loop of [character] stops on the closing quote. *)
Lemma character_reaches_close (pre body rest : list ascii) (st : State) :
  let source := pre ++ squote :: body ++ squote :: rest in
  current st = length pre ->
  forallb (plain squote) body = true ->
  scanToken source st
  = Some (character_close source
            (mkState (length pre) (length pre + length body + 1)
               (line st) (message st))).
Proof.
  intros source Hcur Hbody.
  destruct st as [s c l m]. simpl in Hcur. subst c.
  assert (D0 : deref source (length pre) = squote).
  { subst source. now rewrite deref_app_0. }
  assert (D1 : (deref source (S (length pre)) =? NUL) = false).
  { subst source. rewrite <- Nat.add_1_r, deref_app. cbn [nth].
    destruct body as [| b body]; [reflexivity |].
    simpl in Hbody. apply andb_true_iff in Hbody as [Hb _].
    now apply plain_inv in Hb as (H0 & _). }
  assert (Hlen : length source = length pre + S (length body + S (length rest))).
  { subst source. rewrite length_app. cbn [length]. rewrite length_app.
    reflexivity. }
  assert (Hshape : source = (pre ++ [squote]) ++ body ++ squote :: rest).
  { subst source. now rewrite <- app_assoc. }
  rewrite scanToken_squote by (unfold peek; fields; exact D0).
  unfold character, isAtEnd at 1. fields. rewrite D1.
  clearbody source. rewrite Hshape at 1.
  rewrite character_loop_run;
    [| fields; now rewrite length_app_one | exact Hbody | reflexivity
     | unfold fuel_for; fields; lia ].
  cbn [hd]. cbn [squote NUL Ascii.eqb Bool.eqb negb andb].
  rewrite <- Hshape. rewrite length_app_one.
  unfold set_current, set_start. cbn [start current line message].
  replace (S (length pre) + length body) with (length pre + length body + 1)
    by lia.
  reflexivity.
Qed.

(** What [character] does on the closing quote, by the enclosed length as
    the [int] [charLen] holds it. *)
Lemma character_close_on_quote (pre body rest : list ascii) (l : Z)
    (m : list ascii) :
  let source := pre ++ squote :: body ++ squote :: rest in
  let st := mkState (length pre) (length pre + length body + 1) l m in
  let st1 := mkState (length pre) (length pre + length body + 2) l m in
  let charLen := int_of_Z (Z.of_nat (length body)) in
  character_close source st
  = if (charLen =? 1)%Z || (charLen =? 0)%Z
    then (makeToken TOKEN_CHARACTER st1, st1)
    else
      let st2 :=
        sprintf_message
          (FMT_NOT_SINGLE_CHARACTER
             ++ format_precision_s charLen (body ++ squote :: rest)) st1 in
      (errorToken source MessagePtr st2, st2).
Proof.
  intros source st st1 charLen.
  assert (D2 : deref source (length pre + length body + 1) = squote).
  { subst source.
    replace (pre ++ squote :: body ++ squote :: rest)
      with ((pre ++ [squote]) ++ body ++ squote :: rest)
      by (rewrite <- app_assoc; reflexivity).
    replace (length pre + length body + 1)
      with (length (pre ++ [squote]) + length body)
      by (rewrite length_app_one; lia).
    now rewrite deref_after. }
  assert (Hskip : skipn (length pre + 1) source = body ++ squote :: rest).
  { subst source.
    replace (pre ++ squote :: body ++ squote :: rest)
      with ((pre ++ [squote]) ++ body ++ squote :: rest)
      by (rewrite <- app_assoc; reflexivity).
    apply skipn_app_exact. rewrite length_app_one. lia. }
  unfold character_close, isAtEnd. subst st. fields. rewrite D2.
  cbn [squote NUL Ascii.eqb Bool.eqb negb andb advance snd].
  unfold consumed. fields.
  replace (Z.of_nat (S (length pre + length body + 1))
           - Z.of_nat (length pre) - 2)%Z
    with (Z.of_nat (length body)) by lia.
  fold charLen. cbn [load]. fields. rewrite Hskip.
  unfold set_current. fields.
  replace (S (length pre + length body + 1))
    with (length pre + length body + 2) by lia.
  reflexivity.
Qed.

(** A closed character literal with at most 30 enclosed bytes: what
    [scanToken] returns, by the number of bytes between the quotes. *)
Lemma character_short (pre body rest : list ascii) (st : State) :
  let source := pre ++ squote :: body ++ squote :: rest in
  current st = length pre ->
  forallb (plain squote) body = true ->
  length body <= 30 ->
  let st1 := mkState (length pre) (length pre + length body + 2)
               (line st) (message st) in
  scanToken source st
  = Some (if (length body <=? 1)%nat then
            ({| tok_type := TOKEN_CHARACTER;
                tok_start := SourcePtr (length pre);
                tok_length := Z.of_nat (length body) + 2;
                tok_line := line st |}, st1)
          else
            let st2 := set_message st1 (FMT_NOT_SINGLE_CHARACTER ++ body) in
            (errorToken source MessagePtr st2, st2)).
Proof.
  intros source Hcur Hbody Hlen st1.
  unfold source. rewrite character_reaches_close by assumption.
  rewrite character_close_on_quote. cbv zeta. f_equal.
  rewrite int_of_Z_small by (unfold INT_MAX; lia).
  destruct (Nat.leb_spec (length body) 1) as [Hle | Hgt].
  - replace ((Z.of_nat (length body) =? 1)%Z || (Z.of_nat (length body) =? 0)%Z)
      with true by (symmetry; apply orb_true_iff; lia).
    unfold makeToken, consumed. fields.
    rewrite int_of_Z_small by (unfold INT_MAX; lia).
    f_equal. f_equal. lia.
  - replace ((Z.of_nat (length body) =? 1)%Z || (Z.of_nat (length body) =? 0)%Z)
      with false by (symmetry; apply orb_false_iff; lia).
    unfold sprintf_message, format_precision_s.
    destruct (Z.ltb_spec (Z.of_nat (length body)) 0) as [Hneg | _]; [lia |].
    rewrite (cstring_plain squote body (squote :: rest) Hbody).
    rewrite Nat2Z.id, firstn_app_exact by reflexivity.
    replace (cstring (FMT_NOT_SINGLE_CHARACTER ++ body))
      with (FMT_NOT_SINGLE_CHARACTER ++ body); [reflexivity |].
    symmetry. rewrite <- (app_nil_r body) at 1. rewrite app_assoc.
    rewrite cstring_not_NUL; [apply app_nil_r |].
    rewrite forallb_app. rewrite (plain_not_NUL _ _ Hbody).
    reflexivity.
Qed.

Lemma plain_repeat (n : nat) : forallb (plain squote) (repeat "a" n) = true.
Proof. induction n as [| n IH]; [reflexivity | exact IH]. Qed.

(** [character] keeps the enclosed length in the [int] [charLen]: a closed
    literal with [2 ^ 32 + 1] enclosed bytes has length 1 there. *)
Lemma character_wrapped (pre body rest : list ascii) (st : State) :
  let source := pre ++ squote :: body ++ squote :: rest in
  current st = length pre ->
  forallb (plain squote) body = true ->
  Z.of_nat (length body) = (2 ^ 32 + 1)%Z ->
  exists tok st',
    scanToken source st = Some (tok, st') /\
    tok_type tok = TOKEN_CHARACTER /\
    current st' = length pre + length body + 2 /\
    message st' = message st.
Proof.
  intros source Hcur Hbody Hlen.
  unfold source. rewrite character_reaches_close by assumption.
  rewrite character_close_on_quote. cbv zeta.
  rewrite Hlen, int_of_Z_wraps.
  change ((int_of_Z 1 =? 1)%Z || (int_of_Z 1 =? 0)%Z) with true.
  cbv iota. eexists _, _. split; [reflexivity |].
  repeat split.
Qed.

(** The same on the sample literal. *)
Lemma scanToken_sample_wrapped_character :
  exists tok st',
    scanToken sample_wrapped_character fresh = Some (tok, st') /\
    tok_type tok = TOKEN_CHARACTER.
Proof.
  unfold sample_wrapped_character.
  assert (Hn : Z.of_nat (Z.to_nat (2 ^ 32 + 1)) = (2 ^ 32 + 1)%Z)
    by (apply Z2Nat.id; lia).
  revert Hn. generalize (Z.to_nat (2 ^ 32 + 1)). intros n Hn.
  destruct (character_wrapped [] (repeat "a" n) [] fresh eq_refl
              (plain_repeat n))
    as (tok & st' & H & Ht & _);
    [now rewrite repeat_length |].
  exists tok, st'. split; [exact H | exact Ht].
Qed.

(** C4 does not hold of scanner.c for every literal.  For a character
    literal that is closed on its line and encloses at most 30 bytes,
    [scanToken] returns [TOKEN_CHARACTER] exactly when at most one byte
    stands between the quotes, the span then running from quote to quote;
    with two bytes or more it returns a [TOKEN_ERROR] whose message ends
    with the enclosed text and lies within [message].  So ['a'] and ['']
    are [TOKEN_CHARACTER] and the message for ['ab'] ends with [ab].  With
    31 enclosed bytes the text that [sprintf] writes, 50 bytes and the
    terminator, passes the end of [message].  The enclosed length is kept
    in the [int] [charLen]: with [2 ^ 32 + 1] enclosed bytes it is 1 there
    and the token is a [TOKEN_CHARACTER]. *)
Theorem character_length_rule :
  (forall pre body rest st,
     let source := pre ++ squote :: body ++ squote :: rest in
     current st = length pre ->
     forallb (plain squote) body = true ->
     length body <= 30 ->
     exists tok st',
       scanToken source st = Some (tok, st') /\
       (tok_type tok = TOKEN_CHARACTER <-> length body <= 1) /\
       (length body <= 1 ->
        tok_start tok = SourcePtr (length pre) /\
        tok_length tok = (Z.of_nat (length body) + 2)%Z /\
        message st' = message st) /\
       (2 <= length body ->
        tok_type tok = TOKEN_ERROR /\
        load source (tok_start tok) st' = FMT_NOT_SINGLE_CHARACTER ++ body /\
        fits_message st')) /\
  printed sample_character
    = Some [(TOKEN_CHARACTER, sample_character, 3%Z); (TOKEN_EOF, [], 0%Z)] /\
  printed sample_empty_character
    = Some [(TOKEN_CHARACTER, sample_empty_character, 2%Z);
            (TOKEN_EOF, [], 0%Z)] /\
  printed sample_two_characters
    = Some [(TOKEN_ERROR, FMT_NOT_SINGLE_CHARACTER ++ lit "ab", 21%Z);
            (TOKEN_EOF, [], 0%Z)] /\
  (exists tok st',
     scanToken sample_overrun_character fresh = Some (tok, st') /\
     tok_start tok = MessagePtr /\
     length (message st') + 1 = 51 /\
     ~ fits_message st') /\
  (forall pre body rest st,
     let source := pre ++ squote :: body ++ squote :: rest in
     current st = length pre ->
     forallb (plain squote) body = true ->
     Z.of_nat (length body) = (2 ^ 32 + 1)%Z ->
     exists tok st',
       scanToken source st = Some (tok, st') /\
       tok_type tok = TOKEN_CHARACTER /\
       current st' = length pre + length body + 2 /\
       message st' = message st) /\
  (exists tok st',
     scanToken sample_wrapped_character fresh = Some (tok, st') /\
     tok_type tok = TOKEN_CHARACTER).
Proof.
  split; [| split; [reflexivity |]; split; [reflexivity |];
            split; [reflexivity |]; split;
            [| split; [exact character_wrapped
                      | exact scanToken_sample_wrapped_character]]].
  - intros pre body rest st source Hcur Hbody Hlen.
    pose proof (character_short pre body rest st Hcur Hbody Hlen) as H.
    cbv zeta in H. fold source in H.
    destruct (Nat.leb_spec (length body) 1) as [Hle | Hgt].
    + eexists _, _. split; [exact H |].
      cbn [tok_type tok_start tok_length message].
      split; [split; trivial |]. split; [repeat split | lia].
    + eexists _, _. split; [exact H |].
      cbn [errorToken tok_type tok_start tok_length load set_message message].
      split; [split; [discriminate | lia] |]. split; [lia |].
      intros _. split; [reflexivity |]. split; [reflexivity |].
      unfold fits_message, MESSAGE_SIZE. cbn [set_message message].
      rewrite length_app.
      change (length FMT_NOT_SINGLE_CHARACTER) with 19. lia.
  - eexists _, _. split; [vm_compute; reflexivity |].
    split; [reflexivity |]. split; [reflexivity |].
    unfold fits_message, MESSAGE_SIZE. cbn [message]. simpl length. lia.
Qed.

Lemma character_length_rule_witness :
  exists tok st',
    scanToken sample_two_characters fresh = Some (tok, st') /\
    (tok_type tok = TOKEN_CHARACTER <-> length (lit "ab") <= 1) /\
    (length (lit "ab") <= 1 ->
     tok_start tok = SourcePtr 0 /\
     tok_length tok = (Z.of_nat (length (lit "ab")) + 2)%Z /\
     message st' = message fresh) /\
    (2 <= length (lit "ab") ->
     tok_type tok = TOKEN_ERROR /\
     load sample_two_characters (tok_start tok) st'
     = FMT_NOT_SINGLE_CHARACTER ++ lit "ab" /\
     fits_message st').
Proof.
  apply (proj1 character_length_rule [] (lit "ab") [] fresh);
    [reflexivity | reflexivity | simpl; lia].
Defined.

(** ** The message buffer *)

(** C8 does not hold of scanner.c.  [sprintf] has no bound: the diagnostic for
    a character literal with two enclosed bytes or more is stored whole, 19
    bytes and the enclosed text, so it fits the 50 bytes of [message] with
    its terminator only when the enclosed text has at most 30 bytes.  For
    the literal with 32 enclosed bytes the text stored has 51 bytes. *)
Theorem message_not_truncated :
  (forall pre body rest st,
     let source := pre ++ squote :: body ++ squote :: rest in
     current st = length pre ->
     forallb (plain squote) body = true ->
     (Z.of_nat (length source) <= INT_MAX)%Z ->
     2 <= length body ->
     exists tok st',
       scanToken source st = Some (tok, st') /\
       tok_start tok = MessagePtr /\
       length (message st') = 19 + length body /\
       (fits_message st' <-> length body <= 30)) /\
  (exists tok st',
     scanToken sample_long_character fresh = Some (tok, st') /\
     tok_type tok = TOKEN_ERROR /\
     tok_start tok = MessagePtr /\
     length (message st') = 51 /\
     MESSAGE_SIZE < length (message st') /\
     ~ fits_message st').
Proof.
  split.
  - intros pre body rest st source Hcur Hbody Hint Hlen.
    pose proof (character_closed pre body rest st Hcur Hbody Hint) as H.
    cbv zeta in H. fold source in H.
    destruct (Nat.leb_spec (length body) 1) as [Hle | Hgt]; [lia |].
    eexists _, _. split; [exact H |].
    unfold fits_message, MESSAGE_SIZE.
    cbn [errorToken tok_start set_message message].
    rewrite length_app.
    change (length FMT_NOT_SINGLE_CHARACTER) with 19.
    split; [reflexivity |]. split; [reflexivity | lia].
  - eexists _, _. split; [vm_compute; reflexivity |].
    split; [reflexivity |]. split; [reflexivity |]. split; [reflexivity |].
    unfold fits_message, MESSAGE_SIZE. cbn [message]. simpl length.
    split; lia.
Qed.

Lemma message_not_truncated_witness :
  exists tok st',
    scanToken sample_long_character fresh = Some (tok, st') /\
    tok_start tok = MessagePtr /\
    length (message st') = 19 + length (repeat "a" 32) /\
    (fits_message st' <-> length (repeat "a" 32) <= 30).
Proof.
  apply (proj1 message_not_truncated [] (repeat "a" 32) [] fresh);
    [reflexivity | reflexivity | unfold INT_MAX; simpl; lia | simpl; lia].
Defined.

(** ** Line numbers *)

Lemma run_loop_lines (source : list ascii) :
  forall fuel st toks,
    run_loop source fuel st = Some toks ->
    Forall (fun p => tok_line (fst p) = line st) toks.
Proof.
  induction fuel as [| fuel IH]; intros st toks H; [discriminate H |].
  simpl in H.
  destruct (scanToken source st) as [[tok st'] |] eqn:Hscan;
    [| discriminate H].
  destruct (scanToken_line source st tok st' Hscan) as [Hl Hl'].
  cbn [obind] in H.
  destruct (is_TOKEN_EOF (tok_type tok)).
  - injection H as <-. constructor; [exact Hl | constructor].
  - destruct (run_loop source fuel st') as [more |] eqn:Hmore;
      [| discriminate H].
    cbn [obind] in H. injection H as <-.
    constructor; [exact Hl |]. rewrite <- Hl'. now apply IH.
Qed.

(** C1 does not hold of scanner.c.  [skipWhitespace] takes a newline like any
    other blank and nothing else writes [scanner.line]: a call of
    [scanToken] returns a token that carries the line the scanner had and
    leaves that line unchanged, so every token the driver prints carries
    line 1.  In particular the identifier that follows the first newline of
    a buffer is reported on line 1, not 2. *)
Theorem line_never_incremented :
  (forall source st tok st',
     scanToken source st = Some (tok, st') ->
     tok_line tok = line st /\ line st' = line st) /\
  (forall source st0 toks,
     run source st0 = Some toks ->
     Forall (fun p => tok_line (fst p) = 1%Z) toks) /\
  printed_lines sample_two_lines
  = Some [(TOKEN_IDENTIFIER, lit "first", 1%Z);
          (TOKEN_IDENTIFIER, lit "second", 1%Z);
          (TOKEN_EOF, [], 1%Z)].
Proof.
  split; [exact scanToken_line |]. split; [| vm_compute; reflexivity].
  intros source st0 toks H. unfold run in H.
  now apply run_loop_lines in H.
Qed.

Lemma line_never_incremented_witness :
  Forall (fun p => tok_line (fst p) = 1%Z)
    [({| tok_type := TOKEN_IDENTIFIER; tok_start := SourcePtr 0;
         tok_length := 5; tok_line := 1 |}, lit "first");
     ({| tok_type := TOKEN_IDENTIFIER; tok_start := SourcePtr 6;
         tok_length := 6; tok_line := 1 |}, lit "second");
     ({| tok_type := TOKEN_EOF; tok_start := SourcePtr 12;
         tok_length := 0; tok_line := 1 |}, [])].
Proof.
  apply (proj1 (proj2 line_never_incremented) sample_two_lines startup).
  vm_compute. reflexivity.
Defined.

(** ** Brackets *)

(** C2 does not hold of scanner.c.  The [switch] of [scanToken] has no case for
    the two brackets, so a bracket that is the next byte after the blanks
    and comments falls to [default]: the token returned is a [TOKEN_ERROR]
    whose message is the unexpected-character diagnostic, not
    [TOKEN_LEFT_BRACKET] or [TOKEN_RIGHT_BRACKET]. *)
Theorem brackets_are_unexpected :
  (forall source st st0,
     skipWhitespace source (fuel_for source st) st = Some st0 ->
     peek source st0 = "[" \/ peek source st0 = "]" ->
     exists tok st',
       scanToken source st = Some (tok, st') /\
       tok_type tok = TOKEN_ERROR /\
       tok_start tok = MessagePtr /\
       message st' = FMT_UNEXPECTED_CHARACTER ++ [peek source st0]) /\
  printed sample_brackets
  = Some [(TOKEN_ERROR, FMT_UNEXPECTED_CHARACTER ++ lit "[", 16%Z);
          (TOKEN_ERROR, FMT_UNEXPECTED_CHARACTER ++ lit "]", 16%Z);
          (TOKEN_EOF, [], 0%Z)].
Proof.
  split; [| vm_compute; reflexivity].
  intros source st st0 Hskip Hp.
  unfold scanToken. rewrite Hskip. cbn [obind].
  unfold scanToken_body, isAtEnd, advance. fields.
  unfold peek in *.
  destruct Hp as [-> | ->]; cbn -[errorTokenWithChar];
    eexists _, _; (split; [reflexivity |]); repeat split.
Qed.

Lemma brackets_are_unexpected_witness :
  exists tok st',
    scanToken sample_brackets fresh = Some (tok, st') /\
    tok_type tok = TOKEN_ERROR /\
    tok_start tok = MessagePtr /\
    message st'
    = FMT_UNEXPECTED_CHARACTER ++ [peek sample_brackets (set_current fresh 2)].
Proof.
  apply (proj1 brackets_are_unexpected sample_brackets fresh
           (set_current fresh 2)).
  - reflexivity.
  - left. reflexivity.
Defined.

(** ** Keywords *)

Lemma bytes_eqb_eq (a b : list ascii) : bytes_eqb a b = true <-> a = b.
Proof.
  revert b. induction a as [| x a IH]; intros [| y b]; simpl;
    try (split; [discriminate | congruence]); try tauto.
  rewrite andb_true_iff, Ascii.eqb_eq, IH.
  split; [intros [-> ->]; reflexivity | intros H; injection H; auto].
Qed.

Lemma Z_gtb_above (n k : Z) : (k < n)%Z -> (n >? k)%Z = true.
Proof. intros H. apply Z.gtb_lt. exact H. Qed.

Lemma Z_eqb_above (n k : Z) : (k < n)%Z -> (n =? k)%Z = false.
Proof. intros H. apply Z.eqb_neq. lia. Qed.

(** [identifierType] is exact equality with a reserved word: on a lexeme
    whose length an [int] holds, the decision tree returns what a search of
    the table of reserved words returns. *)
Lemma identifierType_lexeme (pre w rest : list ascii) (st : State) :
  w <> [] ->
  start st = length pre ->
  current st = length pre + length w ->
  (Z.of_nat (length w) <= INT_MAX)%Z ->
  identifierType (pre ++ w ++ rest) st = keyword_of w.
Proof.
  intros Hne Hstart Hcur Hint.
  unfold identifierType, checkKeyword, memcmp_eq0.
  replace (consumed st) with (Z.of_nat (length w))
    by (unfold consumed; rewrite Hcur, Hstart; lia).
  rewrite int_of_Z_small by (unfold INT_MAX in *; lia).
  rewrite Hstart.
  cbn [forallb seq].
  rewrite <- !Nat.add_assoc, !deref_app. cbn [Nat.add].
  clear Hstart Hcur Hint st pre.
  remember (Z.of_nat (length w)) as n eqn:Hn.
  unfold keyword_of, reserved_words.
  destruct w as [| c0 w]; [contradiction |]. clear Hne.
  cbn.
  (* the lead byte, then the lexemes of 1 to 8 bytes and the longer ones *)
  repeat (match goal with
          | |- context [Ascii.eqb c0 ?k] =>
              destruct (Ascii.eqb_spec c0 k); [subst c0 |]
          end; cbn).
  all: try reflexivity.
  all: destruct w as [|c1 [|c2 [|c3 [|c4 [|c5 [|c6 [|c7 [|c8 w]]]]]]]];
    [ cbn in Hn; subst n; cbn; split_byte_tests; reflexivity ..
    | match type of Hn with
      | ?x = _ => assert (Hbig : (8 < x)%Z) by (rewrite Hn; cbn [length]; lia)
      end;
      clear Hn; cbn;
      repeat match goal with
             | |- context [(?x =? ?k)%Z] =>
                 is_var x; rewrite (Z_eqb_above x k) by lia
             | |- context [(?x >? ?k)%Z] =>
                 is_var x; rewrite (Z_gtb_above x k) by lia
             end;
      cbn; split_byte_tests; reflexivity ].
Qed.

Lemma alpha_class (c : ascii) :
  isAlpha c = true ->
  (c =? NUL) = false /\
  (c =? " ") || (c =? "013") || (c =? "009") || (c =? newline) = false /\
  (c =? "/") = false.
Proof.
  destruct c as [b0 b1 b2 b3 b4 b5 b6 b7].
  destruct b0, b1, b2, b3, b4, b5, b6, b7; intros H;
    try discriminate H; repeat split; reflexivity.
Qed.

Lemma scanToken_alpha (source : list ascii) (st : State) :
  isAlpha (peek source st) = true ->
  scanToken source st
  = identifier source (fuel_for source st)
      (set_current (set_start st (current st)) (S (current st))).
Proof.
  intros Ha. destruct (alpha_class _ Ha) as (H0 & Hws & Hslash).
  rewrite scanToken_stop; [| exact Hws | now rewrite Hslash].
  unfold scanToken_body, isAtEnd, advance. fields.
  unfold peek in *. now rewrite H0, Ha.
Qed.

Lemma identifier_chars_not_NUL (w : list ascii) :
  forallb identifier_char w = true -> forallb not_NUL w = true.
Proof.
  induction w as [| c w IH]; intros H; [reflexivity |].
  simpl in H. apply andb_true_iff in H as [Hc H].
  simpl. rewrite (IH H), andb_true_r.
  unfold not_NUL. destruct (Ascii.eqb_spec c NUL) as [-> |]; [| reflexivity].
  discriminate Hc.
Qed.

(** An identifier or keyword under the cursor, whatever its length: the
    loop of [identifier] stops at the end of the run, and [identifierType]
    classifies the run. *)
Lemma scanToken_identifier_run (pre w rest : list ascii) (st : State) :
  let source := pre ++ w ++ rest in
  current st = length pre ->
  isAlpha (hd NUL w) = true ->
  forallb identifier_char w = true ->
  identifier_char (hd NUL rest) = false ->
  let st' := mkState (length pre) (length pre + length w)
               (line st) (message st) in
  scanToken source st = Some (makeToken (identifierType source st') st', st').
Proof.
  intros source Hcur Hlead Hw Hrest st'.
  destruct w as [| c w]; [discriminate Hlead |].
  cbn [hd] in Hlead. simpl in Hw. apply andb_true_iff in Hw as [_ Hw].
  destruct st as [s cur l m]. simpl in Hcur. subst cur.
  assert (Hlen : length source = length pre + (S (length w) + length rest)).
  { subst source. rewrite !length_app. reflexivity. }
  rewrite scanToken_alpha
    by (unfold peek; fields; subst source; now rewrite deref_app_0).
  assert (Hshape : source = (pre ++ [c]) ++ w ++ rest).
  { subst source. now rewrite <- app_assoc. }
  unfold identifier. fields.
  change (fun s0 : State => isAlpha (peek source s0) || isDigit (peek source s0))
    with (fun s0 : State => identifier_char (peek source s0)).
  clearbody source. rewrite Hshape.
  rewrite (advanceWhile_run identifier_char);
    [| fields; now rewrite length_app_one | assumption .. |
       unfold fuel_for; fields; rewrite <- Hshape; lia ].
  cbn [obind]. rewrite set_current_twice, length_app_one.
  rewrite <- Hshape.
  unfold set_current, set_start, st'. cbn [start current line message length].
  replace (S (length pre) + length w) with (length pre + S (length w)) by lia.
  reflexivity.
Qed.

(** The same on a lexeme whose length an [int] holds: the token spans the
    whole run of identifier bytes and its type is [keyword_of] the run. *)
Lemma scanToken_identifier (pre w rest : list ascii) (st : State) :
  let source := pre ++ w ++ rest in
  current st = length pre ->
  isAlpha (hd NUL w) = true ->
  forallb identifier_char w = true ->
  identifier_char (hd NUL rest) = false ->
  (Z.of_nat (length w) <= INT_MAX)%Z ->
  scanToken source st
  = Some ({| tok_type := keyword_of w; tok_start := SourcePtr (length pre);
             tok_length := Z.of_nat (length w); tok_line := line st |},
          mkState (length pre) (length pre + length w)
            (line st) (message st)).
Proof.
  intros source Hcur Hlead Hw Hrest Hint.
  unfold source. rewrite scanToken_identifier_run by assumption.
  rewrite (identifierType_lexeme pre w rest);
    [| intros ->; discriminate Hlead | reflexivity | reflexivity | exact Hint ].
  unfold makeToken, consumed. fields.
  replace (Z.of_nat (length pre + length w) - Z.of_nat (length pre))%Z
    with (Z.of_nat (length w)) by lia.
  rewrite int_of_Z_small by (unfold INT_MAX in *; lia).
  reflexivity.
Qed.

(** [identifierType] reads the length of the lexeme as an [int]: a lexeme
    that begins with [do] and whose length is 2 modulo [2 ^ 32] is taken
    for the keyword. *)
Lemma identifierType_do (source : list ascii) (st : State) :
  deref source (start st) = "d" ->
  deref source (start st + 1) = "o" ->
  int_of_Z (consumed st) = 2%Z ->
  identifierType source st = TOKEN_DO.
Proof.
  intros Hd Ho Hlen. unfold identifierType.
  rewrite Nat.add_0_r, Hd, Ho, Hlen. reflexivity.
Qed.

Lemma identifier_char_repeat (n : nat) :
  forallb identifier_char (repeat "x" n) = true.
Proof. induction n as [| n IH]; [reflexivity | exact IH]. Qed.

(** A lexeme of [2 ^ 32 + 2] bytes that begins with [do]. *)
Lemma scanToken_long_do (pre tail rest : list ascii) (st : State) :
  let w := lit "do" ++ tail in
  let source := pre ++ w ++ rest in
  current st = length pre ->
  forallb identifier_char tail = true ->
  identifier_char (hd NUL rest) = false ->
  Z.of_nat (length tail) = (2 ^ 32)%Z ->
  exists tok st',
    scanToken source st = Some (tok, st') /\
    tok_type tok = TOKEN_DO /\
    current st' = length pre + length w /\
    w <> lit "do".
Proof.
  intros w source Hcur Htail Hrest Hlen.
  assert (Hw : length w = 2 + length tail) by reflexivity.
  eexists _, _.
  split; [apply scanToken_identifier_run; [exact Hcur | reflexivity | exact Htail | exact Hrest] |].
  cbn [makeToken tok_type current]. split; [| split; [reflexivity |]].
  - apply identifierType_do.
    + fields. subst source w. now rewrite deref_app_0.
    + fields. subst source w. now rewrite deref_app.
    + unfold consumed. fields. rewrite Hw.
      replace (Z.of_nat (length pre + (2 + length tail))
               - Z.of_nat (length pre))%Z
        with (2 ^ 32 + 2)%Z by lia.
      rewrite int_of_Z_wraps. reflexivity.
  - intros E. apply (f_equal (@length ascii)) in E. rewrite Hw in E.
    cbn [lit list_ascii_of_string length] in E. lia.
Qed.

(** The same on the sample lexeme. *)
Lemma scanToken_sample_long_do :
  exists tok st',
     scanToken sample_long_do fresh = Some (tok, st') /\
     tok_type tok = TOKEN_DO /\
     current st' = length sample_long_do /\
     sample_long_do <> lit "do".
Proof.
  unfold sample_long_do.
  assert (Hn : Z.of_nat (Z.to_nat (2 ^ 32)) = (2 ^ 32)%Z)
    by (apply Z2Nat.id; lia).
  revert Hn. generalize (Z.to_nat (2 ^ 32)). intros n Hn.
  destruct (scanToken_long_do [] (repeat "x" n) [] fresh eq_refl
              (identifier_char_repeat n) eq_refl)
    as (tok & st' & H & Ht & Hc & Hw);
    [now rewrite repeat_length |].
  rewrite app_nil_r in H.
  exists tok, st'. split; [exact H |]. split; [exact Ht |].
  split; [exact Hc | exact Hw].
Qed.

Lemma keyword_of_reserved (kw : list ascii) (t : TokenType) :
  In (kw, t) reserved_words -> keyword_of kw = t.
Proof.
  unfold reserved_words. intros H. simpl in H.
  repeat destruct H as [H | H]; try contradiction;
    injection H as <- <-; reflexivity.
Qed.

Lemma reserved_not_identifier (kw : list ascii) (t : TokenType) :
  In (kw, t) reserved_words -> t <> TOKEN_IDENTIFIER.
Proof.
  unfold reserved_words. intros H. simpl in H.
  repeat destruct H as [H | H]; try contradiction;
    injection H as _ <-; discriminate.
Qed.

Lemma keyword_of_inv (w : list ascii) (t : TokenType) :
  keyword_of w = t -> t <> TOKEN_IDENTIFIER -> In (w, t) reserved_words.
Proof.
  unfold keyword_of. intros H Ht.
  destruct (find (fun kw => bytes_eqb w (fst kw)) reserved_words)
    as [[kw t'] |] eqn:Hfind; [| congruence].
  apply find_some in Hfind as [Hin Heq]. simpl in Heq, H.
  apply bytes_eqb_eq in Heq. now subst.
Qed.

Lemma reserved_tags_distinct (kw kw' : list ascii) (t : TokenType) :
  In (kw, t) reserved_words -> In (kw', t) reserved_words -> kw = kw'.
Proof.
  intros H H'.
  rewrite <- (keyword_of_reserved _ _ H) in H'. clear H.
  unfold reserved_words in H'. simpl in H'.
  repeat destruct H' as [H' | H']; try contradiction;
    injection H' as <- H'; symmetry in H';
    (apply keyword_of_inv in H'; [| discriminate]);
    unfold reserved_words in H'; simpl in H';
    repeat destruct H' as [H' | H']; try contradiction;
    try discriminate H'; injection H' as <-; reflexivity.
Qed.

(** C3 does not hold of scanner.c for every lexeme.  For an identifier
    lexeme under the cursor, a letter or underscore followed by a maximal
    run of letters, digits and underscores, whose length an [int] holds, the
    token spans the lexeme and its type is the tag of a reserved word
    exactly when the lexeme is byte for byte that reserved word; when the
    lexeme is none of the 27 reserved words the type is [TOKEN_IDENTIFIER].
    So [return] is a keyword while [Return], [returns] and [breaking] are
    identifiers.  [identifierType] keeps the length of the lexeme in an
    [int]: a lexeme of [2 ^ 32 + 2] bytes that begins with [do] has length 2
    there, and is returned as [TOKEN_DO]. *)
Theorem keyword_classification_exact :
  (forall pre w rest st,
     let source := pre ++ w ++ rest in
     current st = length pre ->
     isAlpha (hd NUL w) = true ->
     forallb identifier_char w = true ->
     identifier_char (hd NUL rest) = false ->
     (Z.of_nat (length w) <= INT_MAX)%Z ->
     exists tok st',
       scanToken source st = Some (tok, st') /\
       token_text source tok st' = w /\
       current st' = length pre + length w /\
       (forall kw t, In (kw, t) reserved_words ->
                     (tok_type tok = t <-> w = kw)) /\
       ((forall kw t, In (kw, t) reserved_words -> w <> kw) ->
        tok_type tok = TOKEN_IDENTIFIER)) /\
  length reserved_words = 27 /\
  option_map (map (fun p => (tok_type (fst p), snd p)))
    (run sample_keywords startup)
  = Some [(TOKEN_RETURN, lit "return"); (TOKEN_IDENTIFIER, lit "Return");
          (TOKEN_IDENTIFIER, lit "returns"); (TOKEN_BREAK, lit "break");
          (TOKEN_IDENTIFIER, lit "breaking"); (TOKEN_DO, lit "do");
          (TOKEN_DOUBLE, lit "double"); (TOKEN_IDENTIFIER, lit "dot");
          (TOKEN_UNSIGNED, lit "unsigned"); (TOKEN_EOF, [])] /\
  (forall pre tail rest st,
     let w := lit "do" ++ tail in
     let source := pre ++ w ++ rest in
     current st = length pre ->
     forallb identifier_char tail = true ->
     identifier_char (hd NUL rest) = false ->
     Z.of_nat (length tail) = (2 ^ 32)%Z ->
     exists tok st',
       scanToken source st = Some (tok, st') /\
       tok_type tok = TOKEN_DO /\
       current st' = length pre + length w /\
       w <> lit "do") /\
  (exists tok st',
     scanToken sample_long_do fresh = Some (tok, st') /\
     tok_type tok = TOKEN_DO /\
     current st' = length sample_long_do /\
     sample_long_do <> lit "do").
Proof.
  split; [| split; [reflexivity |];
            split; [vm_compute; reflexivity |];
            split; [exact scanToken_long_do |]].
  - intros pre w rest st source Hcur Hlead Hw Hrest Hint.
    eexists _, _.
    split; [now apply scanToken_identifier |].
    split; [apply token_text_span; now apply identifier_chars_not_NUL |].
    split; [reflexivity |]. cbn [tok_type]. split.
    + intros kw t Hin. split.
      * intros Heq.
        apply keyword_of_inv in Heq;
          [| now apply reserved_not_identifier with (kw := kw)].
        now apply reserved_tags_distinct with (t := t).
      * intros ->. now apply keyword_of_reserved.
    + intros Hnone.
      destruct (keyword_of w) eqn:Heq; try reflexivity;
        exfalso; (apply keyword_of_inv in Heq; [| discriminate]);
        exact (Hnone _ _ Heq eq_refl).
  - exact scanToken_sample_long_do.
Qed.

Lemma keyword_classification_exact_witness :
  let source := lit "return " ++ lit "breaking" ++ lit " do" in
  exists tok st',
    scanToken source (set_current fresh 7) = Some (tok, st') /\
    token_text source tok st' = lit "breaking" /\
    current st' = length (lit "return ") + length (lit "breaking") /\
    (forall kw t, In (kw, t) reserved_words ->
                  (tok_type tok = t <-> lit "breaking" = kw)) /\
    ((forall kw t, In (kw, t) reserved_words -> lit "breaking" <> kw) ->
     tok_type tok = TOKEN_IDENTIFIER).
Proof.
  apply (proj1 keyword_classification_exact
           (lit "return ") (lit "breaking") (lit " do") (set_current fresh 7));
    [reflexivity | reflexivity | reflexivity | reflexivity
    | unfold INT_MAX; simpl; lia].
Defined.

(** * Further properties of the scanner *)

(** ** Fuel *)

(** A loop that returns with some fuel returns the same with more. *)
Lemma advanceWhile_more_fuel (source : list ascii) (cond : State -> bool) :
  forall fuel fuel' st r,
    advanceWhile source fuel cond st = Some r ->
    fuel <= fuel' ->
    advanceWhile source fuel' cond st = Some r.
Proof.
  induction fuel as [| fuel IH]; intros fuel' st r H Hle; [discriminate H |].
  destruct fuel' as [| fuel']; [lia |].
  simpl in *. destruct (cond st); [| exact H].
  apply IH; [exact H | lia].
Qed.

Lemma skipWhitespace_more_fuel (source : list ascii) :
  forall fuel fuel' st r,
    skipWhitespace source fuel st = Some r ->
    fuel <= fuel' ->
    skipWhitespace source fuel' st = Some r.
Proof.
  induction fuel as [| fuel IH]; intros fuel' st r H Hle; [discriminate H |].
  destruct fuel' as [| fuel']; [lia |].
  simpl in *.
  destruct ((peek source st =? " ") || (peek source st =? "013")
            || (peek source st =? "009") || (peek source st =? newline)).
  - apply IH; [exact H | lia].
  - destruct (peek source st =? "/"); [| exact H].
    destruct (peekNext source st =? "/"); [| exact H].
    destruct (advanceWhile source fuel (in_comment source) st) as [st1 |] eqn:He;
      [| discriminate H].
    rewrite (advanceWhile_more_fuel source _ fuel fuel' st st1 He) by lia.
    cbn [obind] in *. apply IH; [exact H | lia].
Qed.

Lemma string_more_fuel (source : list ascii) :
  forall fuel fuel' st r,
    string_ source fuel st = Some r ->
    fuel <= fuel' ->
    string_ source fuel' st = Some r.
Proof.
  induction fuel as [| fuel IH]; intros fuel' st r H Hle; [discriminate H |].
  destruct fuel' as [| fuel']; [lia |].
  simpl in *.
  destruct (negb (isAtEnd source st) && negb (peek source st =? dquote));
    [| exact H].
  destruct (peek source st =? newline); [exact H |].
  apply IH; [exact H | lia].
Qed.

Lemma character_loop_more_fuel (source : list ascii) :
  forall fuel fuel' st r,
    character_loop source fuel st = Some r ->
    fuel <= fuel' ->
    character_loop source fuel' st = Some r.
Proof.
  induction fuel as [| fuel IH]; intros fuel' st r H Hle; [discriminate H |].
  destruct fuel' as [| fuel']; [lia |].
  simpl in *.
  destruct (negb (isAtEnd source st) && negb (peek source st =? squote));
    [| exact H].
  destruct (peek source st =? newline); [exact H |].
  apply IH; [exact H | lia].
Qed.

Lemma scanToken_body_more_fuel (source : list ascii) (fuel fuel' : nat)
    (st : State) (r : Token * State) :
  scanToken_body source fuel st = Some r ->
  fuel <= fuel' ->
  scanToken_body source fuel' st = Some r.
Proof.
  intros H Hle. unfold scanToken_body in *.
  destruct (isAtEnd source st); [exact H |].
  destruct (advance source st) as [c st2].
  repeat match goal with
         | |- (if ?b then _ else _) = _ => destruct b
         end; try exact H.
  - unfold identifier in *.
    destruct (advanceWhile source fuel _ st2) as [s1 |] eqn:He;
      [| discriminate H].
    now rewrite (advanceWhile_more_fuel source _ fuel fuel' st2 s1 He) by lia.
  - unfold number in *.
    destruct (advanceWhile source fuel _ st2) as [s1 |] eqn:He;
      [| discriminate H].
    rewrite (advanceWhile_more_fuel source _ fuel fuel' st2 s1 He) by lia.
    cbn [obind] in *.
    destruct ((peek source s1 =? ".") && isDigit (peekNext source s1));
      [| exact H].
    destruct (advanceWhile source fuel _ (snd (advance source s1)))
      as [s3 |] eqn:He3; [| discriminate H].
    now rewrite (advanceWhile_more_fuel source _ fuel fuel' _ s3 He3) by lia.
  - now apply string_more_fuel with (fuel := fuel).
  - unfold character in *. destruct (isAtEnd source st2); [exact H |].
    now apply character_loop_more_fuel with (fuel := fuel).
Qed.

(** With the fuel [scanToken] supplies, or more, the body returns what it
    returns with any other such fuel. *)
Lemma scanToken_body_any_fuel (source : list ascii) (fuel fuel' : nat)
    (st : State) :
  length source - current st < fuel ->
  length source - current st < fuel' ->
  scanToken_body source fuel st = scanToken_body source fuel' st.
Proof.
  intros Hf Hf'.
  assert (Htotal : forall f, length source - current st < f ->
                    exists r, scanToken_body source f st = Some r).
  { intros f Hlt. destruct (isAtEnd source st) eqn:Hend.
    - unfold scanToken_body. rewrite Hend. eauto.
    - destruct (scanToken_body_ok source f st Hend) as (tok & st' & H & _);
        [lia | eauto]. }
  destruct (Nat.le_ge_cases fuel fuel') as [Hle | Hle].
  - destruct (Htotal fuel Hf) as [r Hr]. rewrite Hr. symmetry.
    now apply scanToken_body_more_fuel with (fuel := fuel).
  - destruct (Htotal fuel' Hf') as [r Hr]. rewrite Hr.
    now apply scanToken_body_more_fuel with (fuel := fuel').
Qed.

(** ** Blanks and comments *)

Lemma deref_app_1 (pre w : list ascii) :
  deref (pre ++ w) (length pre + 1) = nth 1 w NUL.
Proof. apply deref_app. Qed.

(** [skipWhitespace] run at the start of a run of blanks and comments
    stops at its end. *)
Lemma skipWhitespace_run (rest : list ascii) :
  forall w, blank_run rest w ->
  forall pre st fuel,
    starts_token rest ->
    current st = length pre ->
    S (length w) < fuel ->
    skipWhitespace (pre ++ w ++ rest) fuel st
    = Some (set_current st (length pre + length w)).
Proof.
  induction 1 as [| c w Hc Hw IH | body w Hbody Hafter Hw IH];
    intros pre st fuel Hstart Hcur Hfuel.
  - destruct fuel as [| fuel]; [lia |].
    destruct Hstart as [Hb Hs].
    cbn [app length]. rewrite Nat.add_0_r, <- Hcur, set_current_same.
    apply skipWhitespace_stop; unfold peek, peekNext, isAtEnd;
      rewrite Hcur, deref_app_0.
    + exact Hb.
    + destruct (hd NUL rest =? "/") eqn:Hslash; [| reflexivity].
      apply Ascii.eqb_eq in Hslash. rewrite Hslash. cbn [Ascii.eqb Bool.eqb NUL].
      rewrite deref_app_1. exact Hs.
  - destruct fuel as [| fuel]; [lia |].
    cbn [skipWhitespace]. unfold peek at 1 2 3 4.
    rewrite Hcur, deref_app_0. cbn [hd app].
    unfold is_blank in Hc. rewrite Hc. cbn [advance snd].
    replace (pre ++ c :: w ++ rest) with ((pre ++ [c]) ++ w ++ rest)
      by (rewrite <- app_assoc; reflexivity).
    rewrite IH; [| exact Hstart | fields; now rewrite length_app_one, Hcur
                 | simpl in Hfuel; lia ].
    rewrite set_current_twice, length_app_one. cbn [length].
    f_equal. f_equal. lia.
  - destruct fuel as [| fuel]; [lia |].
    cbn [skipWhitespace]. unfold peek at 1 2 3 4 5, peekNext, isAtEnd.
    rewrite Hcur, deref_app_0. cbn [hd app Ascii.eqb Bool.eqb orb NUL newline].
    rewrite deref_app_1. cbn [nth Ascii.eqb Bool.eqb].
    change (in_comment (pre ++ "/" :: "/" :: (body ++ w) ++ rest))
      with (fun s => comment_byte
                       (peek (pre ++ "/" :: "/" :: (body ++ w) ++ rest) s)).
    replace (pre ++ "/" :: "/" :: (body ++ w) ++ rest)
      with (pre ++ ("/" :: "/" :: body) ++ w ++ rest)
      by (cbn [app]; now rewrite <- app_assoc).
    rewrite (advanceWhile_run comment_byte);
      [| exact Hcur | cbn [forallb]; exact Hbody | exact Hafter
       | cbn [length] in *; rewrite length_app in Hfuel; lia ].
    cbn [obind].
    replace (pre ++ ("/" :: "/" :: body) ++ w ++ rest)
      with ((pre ++ "/" :: "/" :: body) ++ w ++ rest)
      by (now rewrite <- app_assoc).
    rewrite IH; [| exact Hstart | fields; now rewrite length_app
                 | cbn [length] in *; rewrite length_app in Hfuel; lia ].
    rewrite set_current_twice, !length_app. cbn [length].
    rewrite length_app. f_equal. f_equal. lia.
Qed.

Lemma starts_token_NUL (rest : list ascii) :
  hd NUL rest = NUL -> starts_token rest.
Proof. intros H. unfold starts_token. now rewrite H. Qed.

(** A call made at the start of a run of blanks and comments goes on as a
    call made at its end. *)
Lemma scanToken_skips_blanks (pre w rest : list ascii) (st : State) :
  let source := pre ++ w ++ rest in
  blank_run rest w ->
  starts_token rest ->
  current st = length pre ->
  scanToken source st
  = scanToken source (set_current st (length pre + length w)).
Proof.
  intros source Hw Hstart Hcur.
  assert (Hlen : length source = length pre + (length w + length rest)).
  { subst source. now rewrite !length_app. }
  unfold scanToken.
  subst source.
  rewrite (skipWhitespace_run rest w Hw pre st _ Hstart Hcur)
    by (unfold fuel_for; rewrite Hcur; lia).
  replace (pre ++ w ++ rest) with ((pre ++ w) ++ [] ++ rest)
    by (now rewrite <- app_assoc).
  rewrite (skipWhitespace_run rest [] (blank_run_nil rest) (pre ++ w)
             (set_current st (length pre + length w)) _ Hstart);
    [| fields; now rewrite length_app
     | unfold fuel_for; fields; cbn [length]; lia ].
  cbn [obind length]. rewrite set_current_twice, Nat.add_0_r, length_app.
  apply scanToken_body_any_fuel; unfold fuel_for; fields;
    rewrite !length_app in *; cbn [length]; lia.
Qed.

(** X1. Blanks and line comments before a token change nothing: a call
    made at the start of a run of blanks and comments returns what a call
    made at the end of the run returns, token and state. *)
Theorem leading_blanks_are_skipped (pre w rest : list ascii) (st : State) :
  let source := pre ++ w ++ rest in
  blank_run rest w ->
  starts_token rest ->
  current st = length pre ->
  scanToken source st
  = scanToken source (set_current st (length pre + length w)).
Proof. exact (scanToken_skips_blanks pre w rest st). Qed.

Lemma leading_blanks_are_skipped_witness :
  let w := lit "  // note" ++ [newline; " "] in
  scanToken ([] ++ w ++ lit "x") fresh
  = scanToken ([] ++ w ++ lit "x") (set_current fresh (0 + length w)).
Proof.
  apply (leading_blanks_are_skipped []
           (lit "  // note" ++ [newline; " "]) (lit "x") fresh).
  - do 2 (apply blank_run_blank; [reflexivity |]).
    apply (blank_run_comment (lit "x") (lit " note") [newline; " "]);
      [reflexivity .. |].
    do 2 (apply blank_run_blank; [reflexivity |]).
    apply blank_run_nil.
  - split; reflexivity.
  - reflexivity.
Defined.

(** X2. A buffer made of blanks and line comments only gives one token,
    [TOKEN_EOF], with an empty text. *)
Theorem blanks_only_give_EOF (w rest : list ascii) (st0 : State) :
  blank_run rest w ->
  hd NUL rest = NUL ->
  run (w ++ rest) st0
  = Some [({| tok_type := TOKEN_EOF; tok_start := SourcePtr (length w);
              tok_length := 0; tok_line := 1 |}, [])].
Proof.
  intros Hw Hrest. unfold run.
  cbn [run_loop].
  pose proof (scanToken_skips_blanks [] w rest (initScanner st0) Hw
                (starts_token_NUL rest Hrest) eq_refl) as H.
  cbn [app length Nat.add] in H. rewrite H.
  rewrite scanToken_at_end.
  2: { unfold isAtEnd. fields. rewrite deref_app_0, Hrest. reflexivity. }
  cbn [obind is_TOKEN_EOF tok_type]. unfold token_text, format_precision_s.
  cbn [tok_length Z.ltb Z.compare Z.to_nat firstn].
  fields. reflexivity.
Qed.

Lemma blanks_only_give_EOF_witness :
  run (sample_blanks ++ []) startup
  = Some [({| tok_type := TOKEN_EOF;
              tok_start := SourcePtr (length sample_blanks);
              tok_length := 0; tok_line := 1 |}, [])].
Proof.
  apply (blanks_only_give_EOF sample_blanks [] startup); [| reflexivity].
  unfold sample_blanks.
  do 2 (apply blank_run_blank; [reflexivity |]).
  apply (blank_run_comment [] (lit " first")); [reflexivity .. |].
  do 3 (apply blank_run_blank; [reflexivity |]).
  apply (blank_run_comment [] (lit " second") []); [reflexivity .. |].
  apply blank_run_nil.
Defined.

(** ** Literals that are not closed on their line *)

Lemma scanToken_dquote (source : list ascii) (st : State) :
  peek source st = dquote ->
  scanToken source st
  = string_ source (fuel_for source st)
      (set_current (set_start st (current st)) (S (current st))).
Proof.
  intros Hp.
  rewrite scanToken_stop; [| now rewrite Hp | now rewrite Hp].
  unfold scanToken_body, isAtEnd, advance. fields.
  unfold peek in Hp. now rewrite Hp.
Qed.

(** X3. A string literal that meets a newline before its closing quote
    gives the multi-line-string error; the cursor is left on the newline,
    so the next call goes on with the following line. *)
Theorem string_multiline (pre body rest : list ascii) (st : State) :
  let source := pre ++ dquote :: body ++ newline :: rest in
  current st = length pre ->
  forallb (plain dquote) body = true ->
  exists tok st',
    scanToken source st = Some (tok, st') /\
    tok = {| tok_type := TOKEN_ERROR;
             tok_start := LiteralPtr MSG_MULTILINE_STRING;
             tok_length := 25; tok_line := line st |} /\
    token_text source tok st' = MSG_MULTILINE_STRING /\
    st' = mkState (length pre) (length pre + length body + 1)
            (line st) (message st) /\
    peek source st' = newline /\
    scanToken source st'
    = scanToken source (set_current st' (length pre + length body + 2)).
Proof.
  intros source Hcur Hbody.
  destruct st as [s c l m]. simpl in Hcur. subst c.
  assert (Hlen : length source = length pre + S (length body + S (length rest))).
  { subst source. rewrite length_app. cbn [length]. rewrite length_app.
    reflexivity. }
  assert (Hshape : source = (pre ++ [dquote]) ++ body ++ newline :: rest).
  { subst source. now rewrite <- app_assoc. }
  assert (Dnl : deref source (length pre + length body + 1) = newline).
  { rewrite Hshape.
    replace (length pre + length body + 1)
      with (length (pre ++ [dquote]) + length body)
      by (rewrite length_app_one; lia).
    now rewrite deref_after. }
  exists (mkToken TOKEN_ERROR (LiteralPtr MSG_MULTILINE_STRING) 25 l),
    (mkState (length pre) (length pre + length body + 1) l m).
  split; [| split; [reflexivity | split; [reflexivity | split; [reflexivity |]]]].
  - rewrite scanToken_dquote
      by (unfold peek; fields; subst source; now rewrite deref_app_0).
    clearbody source. rewrite Hshape at 1.
    rewrite string_run;
      [| fields; now rewrite length_app_one | exact Hbody | reflexivity
       | unfold fuel_for; fields; lia ].
    cbn [hd]. cbn [Ascii.eqb Bool.eqb NUL newline dquote].
    unfold errorToken. fields. rewrite length_app_one.
    unfold set_current, set_start. cbn [start current line message].
    f_equal. f_equal; f_equal; lia.
  - split; [exact Dnl |].
    clearbody source.
    set (st' := mkState (length pre) (length pre + length body + 1) l m).
    assert (Hb : peek source st' = newline) by exact Dnl.
    unfold scanToken.
    assert (Hskip : forall fuel,
               skipWhitespace source (S fuel) st'
               = skipWhitespace source fuel
                   (set_current st' (length pre + length body + 2))).
    { intros fuel. cbn [skipWhitespace]. rewrite Hb.
      cbn [Ascii.eqb Bool.eqb orb newline advance snd]. unfold st'. fields.
      do 2 f_equal. lia. }
    unfold fuel_for at 1. rewrite Hskip.
    destruct (skipWhitespace_total source
                (S (length source - current st'))
                (set_current st' (length pre + length body + 2)))
      as (st0 & He & Hs & _); [subst st'; fields; lia |].
    rewrite He.
    rewrite (skipWhitespace_more_fuel source _
               (fuel_for source
                  (set_current st' (length pre + length body + 2))) _ _ He)
      by (unfold fuel_for; subst st'; fields; lia).
    cbn [obind].
    destruct Hs as (_ & _ & Hs & _). subst st'.
    unfold set_current in Hs. cbn [current] in Hs.
    apply scanToken_body_any_fuel; unfold fuel_for; fields; lia.
Qed.

Lemma string_multiline_witness :
  exists tok st',
    scanToken sample_multiline_string fresh = Some (tok, st') /\
    tok = {| tok_type := TOKEN_ERROR;
             tok_start := LiteralPtr MSG_MULTILINE_STRING;
             tok_length := 25; tok_line := line fresh |} /\
    token_text sample_multiline_string tok st' = MSG_MULTILINE_STRING /\
    st' = mkState 0 (0 + length (lit "one") + 1)
            (line fresh) (message fresh) /\
    peek sample_multiline_string st' = newline /\
    scanToken sample_multiline_string st'
    = scanToken sample_multiline_string
        (set_current st' (0 + length (lit "one") + 2)).
Proof.
  apply (string_multiline [] (lit "one") (lit "two" ++ [dquote]) fresh);
    reflexivity.
Defined.

(** X4. A character literal that meets the end of the buffer or a newline
    before its closing quote gives an error: the missing-quote diagnostic
    at the end of the buffer, the multi-line diagnostic on a newline.  The
    cursor is left on the byte that stopped the literal. *)
Theorem character_not_closed (pre body rest : list ascii) (st : State) :
  let source := pre ++ squote :: body ++ rest in
  current st = length pre ->
  forallb (plain squote) body = true ->
  hd NUL rest = NUL \/ hd NUL rest = newline ->
  exists tok st',
    scanToken source st = Some (tok, st') /\
    tok = (if hd NUL rest =? NUL
           then {| tok_type := TOKEN_ERROR;
                   tok_start := LiteralPtr MSG_INCOMPLETE_CHARACTER;
                   tok_length := 38; tok_line := line st |}
           else {| tok_type := TOKEN_ERROR;
                   tok_start := LiteralPtr MSG_MULTILINE_CHARACTER;
                   tok_length := 22; tok_line := line st |}) /\
    st' = mkState (length pre) (length pre + length body + 1)
            (line st) (message st) /\
    peek source st' = hd NUL rest.
Proof.
  intros source Hcur Hbody Hrest.
  destruct st as [s c l m]. simpl in Hcur. subst c.
  assert (Hlen : length source = length pre + S (length body + length rest)).
  { subst source. rewrite length_app. cbn [length]. rewrite length_app.
    reflexivity. }
  assert (Hshape : source = (pre ++ [squote]) ++ body ++ rest).
  { subst source. now rewrite <- app_assoc. }
  assert (D0 : deref source (length pre) = squote).
  { subst source. now rewrite deref_app_0. }
  assert (D1 : deref source (S (length pre)) = hd NUL (body ++ rest)).
  { rewrite Hshape, <- length_app_one with (c := squote).
    apply deref_app_0. }
  assert (Dend : deref source (length pre + length body + 1) = hd NUL rest).
  { rewrite Hshape.
    replace (length pre + length body + 1)
      with (length (pre ++ [squote]) + length body)
      by (rewrite length_app_one; lia).
    apply deref_after. }
  assert (Hstop : plain squote (hd NUL rest) = false).
  { destruct Hrest as [-> | ->]; reflexivity. }
  eexists _, (mkState (length pre) (length pre + length body + 1) l m).
  split; [| split; [reflexivity | split; [reflexivity | exact Dend]]].
  rewrite scanToken_squote by (unfold peek; fields; exact D0).
  unfold character, isAtEnd at 1. fields. rewrite D1.
  clearbody source.
  destruct (hd NUL (body ++ rest) =? NUL) eqn:Hfirst.
  - (* the buffer ends right after the opening quote *)
    destruct body as [| b body].
    + cbn [app] in Hfirst. rewrite Hfirst.
      unfold errorToken. fields. cbn [length].
      unfold set_current, set_start. cbn [start current line message].
      f_equal. f_equal; f_equal; lia.
    + simpl in Hbody. apply andb_true_iff in Hbody as [Hb _].
      apply plain_inv in Hb as (H0 & _). cbn [app hd] in Hfirst. congruence.
  - rewrite Hshape at 1.
    rewrite character_loop_run;
      [| fields; now rewrite length_app_one | exact Hbody | exact Hstop
       | unfold fuel_for; fields; lia ].
    rewrite <- Hshape. rewrite length_app_one.
    destruct Hrest as [Hr | Hr]; rewrite Hr;
      cbn [Ascii.eqb Bool.eqb NUL newline squote negb andb].
    + unfold character_close, isAtEnd. fields.
      replace (S (length pre) + length body)
        with (length pre + length body + 1) by lia.
      rewrite Dend, Hr. cbn [Ascii.eqb Bool.eqb NUL].
      unfold errorToken. fields.
      unfold set_current, set_start. cbn [start current line message].
      reflexivity.
    + unfold errorToken. fields.
      unfold set_current, set_start. cbn [start current line message].
      f_equal. f_equal; f_equal; lia.
Qed.

Lemma character_not_closed_witness :
  exists tok st',
    scanToken sample_open_character fresh = Some (tok, st') /\
    tok = {| tok_type := TOKEN_ERROR;
             tok_start := LiteralPtr MSG_INCOMPLETE_CHARACTER;
             tok_length := 38; tok_line := line fresh |} /\
    st' = mkState 0 (0 + length (lit "a") + 1) (line fresh) (message fresh) /\
    peek sample_open_character st' = NUL.
Proof.
  apply (character_not_closed [] (lit "a") [] fresh);
    [reflexivity | reflexivity | left; reflexivity].
Defined.

(** ** Bytes without a rule *)

Lemma unexpected_at (source : list ascii) (st : State) (c : ascii) :
  peek source st = c ->
  is_blank c = false -> (c =? NUL) = false -> recognized_lead c = false ->
  scanToken source st
  = Some ({| tok_type := TOKEN_ERROR; tok_start := MessagePtr;
             tok_length := 16; tok_line := line st |},
          mkState (current st) (S (current st)) (line st)
            (FMT_UNEXPECTED_CHARACTER ++ [c])).
Proof.
  intros Hp Hb H0 Hr.
  assert (Hslash : (c =? "/") = false).
  { destruct (Ascii.eqb_spec c "/") as [-> |]; [discriminate Hr | reflexivity]. }
  rewrite scanToken_stop;
    [| rewrite Hp; exact Hb | rewrite Hp, Hslash; reflexivity ].
  unfold scanToken_body, isAtEnd, advance. fields.
  unfold peek in Hp. rewrite Hp, H0. clear Hp Hslash.
  destruct c as [b0 b1 b2 b3 b4 b5 b6 b7].
  destruct b0, b1, b2, b3, b4, b5, b6, b7;
    try discriminate Hr; try discriminate Hb; try discriminate H0;
    reflexivity.
Qed.

(** X5. A byte that is no blank and for which [scanToken] has no rule
    gives one [TOKEN_ERROR] for that byte alone: the cursor moves by one,
    the message is the unexpected-character diagnostic with the byte, 16
    bytes that fit the message array.  The brackets, [?], [:], [#], [@],
    [$], the backquote, the backslash and every byte of 128 and above are
    such bytes, so a character encoded on several bytes gives one error per
    byte. *)
Theorem unexpected_byte :
  (forall source st,
     let c := peek source st in
     is_blank c = false -> (c =? NUL) = false -> recognized_lead c = false ->
     exists tok st',
       scanToken source st = Some (tok, st') /\
       tok = {| tok_type := TOKEN_ERROR; tok_start := MessagePtr;
                tok_length := 16; tok_line := line st |} /\
       token_text source tok st' = FMT_UNEXPECTED_CHARACTER ++ [c] /\
       start st' = current st /\ current st' = S (current st) /\
       fits_message st') /\
  (forall c,
     In c (backslash :: lit "[]?:#@$`") \/ 128 <= nat_of_ascii c ->
     is_blank c = false /\ (c =? NUL) = false /\ recognized_lead c = false).
Proof.
  split.
  - intros source st c Hb H0 Hr.
    eexists _, _. split; [now apply unexpected_at with (c := c) |].
    split; [reflexivity |].
    split; [| split; [reflexivity | split; [reflexivity |]]].
    + unfold token_text, format_precision_s.
      cbn [tok_length tok_start load message Z.ltb Z.compare].
      change (Z.to_nat 16) with 16.
      unfold FMT_UNEXPECTED_CHARACTER. simpl. now rewrite H0.
    + unfold fits_message, MESSAGE_SIZE. cbn [message].
      rewrite length_app. simpl. lia.
  - intros c [Hin | Hge].
    + simpl in Hin.
      repeat destruct Hin as [Hin | Hin]; try contradiction; subst c;
        repeat split; reflexivity.
    + destruct c as [b0 b1 b2 b3 b4 b5 b6 b7].
      destruct b7; [destruct b0, b1, b2, b3, b4, b5, b6; repeat split;
                    reflexivity |].
      exfalso. apply Nat.leb_le in Hge.
      destruct b0, b1, b2, b3, b4, b5, b6; vm_compute in Hge;
        discriminate Hge.
Qed.

Lemma unexpected_byte_witness :
  exists tok st',
    scanToken sample_question (set_current fresh 2) = Some (tok, st') /\
    tok = {| tok_type := TOKEN_ERROR; tok_start := MessagePtr;
             tok_length := 16; tok_line := 1 |} /\
    token_text sample_question tok st' = FMT_UNEXPECTED_CHARACTER ++ ["?"] /\
    start st' = 2 /\ current st' = 3 /\ fits_message st'.
Proof.
  apply (proj1 unexpected_byte sample_question (set_current fresh 2));
    reflexivity.
Defined.

(** ** Spans of tokens *)

Section Spans.

Variable source : list ascii.

Lemma moves_refl (st : State) : moves source st st.
Proof. unfold moves, no_NUL_between. repeat split; trivial. lia. Qed.

Lemma moves_trans (a b c : State) :
  moves source a b -> moves source b c -> moves source a c.
Proof.
  unfold moves, no_NUL_between.
  intros (Hs & Hl & Hc & Hn) (Hs' & Hl' & Hc' & Hn').
  split; [congruence |]. split; [congruence |]. split; [lia |].
  intros p Hp. destruct (Nat.lt_ge_cases p (current b)).
  - apply Hn. lia.
  - apply Hn'. lia.
Qed.

Lemma moves_advance (st : State) :
  isAtEnd source st = false ->
  moves source st (set_current st (S (current st))).
Proof.
  intros Hend. unfold moves, no_NUL_between. fields.
  split; [reflexivity |]. split; [reflexivity |]. split; [lia |].
  intros p Hp. replace p with (current st) by lia.
  unfold isAtEnd in Hend. now apply Ascii.eqb_neq.
Qed.

Lemma moves_set_message (st : State) (m : list ascii) :
  moves source st (set_message st m).
Proof.
  unfold moves, no_NUL_between. fields.
  split; [reflexivity |]. split; [reflexivity |]. split; [lia |].
  intros p Hp. lia.
Qed.

Lemma moves_match_ (e : ascii) (st : State) :
  moves source st (snd (match_ source e st)) /\
  message (snd (match_ source e st)) = message st.
Proof.
  unfold match_. destruct (isAtEnd source st) eqn:Hend;
    [split; [apply moves_refl | reflexivity] |].
  destruct (negb (peek source st =? e));
    [split; [apply moves_refl | reflexivity] |].
  split; [now apply moves_advance | reflexivity].
Qed.

Lemma advanceWhile_moves (cond : State -> bool)
    (Hcond : forall s, cond s = true -> isAtEnd source s = false) :
  forall fuel st st',
    advanceWhile source fuel cond st = Some st' ->
    moves source st st' /\ message st' = message st.
Proof.
  induction fuel as [| fuel IH]; intros st st' H; [discriminate H |].
  simpl in H. destruct (cond st) eqn:Hc.
  - apply IH in H as [Hm Hmsg].
    split; [| exact Hmsg].
    apply moves_trans with (2 := Hm). apply moves_advance. now apply Hcond.
  - injection H as <-. split; [apply moves_refl | reflexivity].
Qed.

Lemma blank_not_at_end (st : State) :
  is_blank (peek source st) = true -> isAtEnd source st = false.
Proof.
  unfold isAtEnd. fold (peek source st). intros H.
  destruct (Ascii.eqb_spec (peek source st) NUL) as [E |]; trivial.
  rewrite E in H. discriminate H.
Qed.

Lemma skipWhitespace_moves :
  forall fuel st st',
    skipWhitespace source fuel st = Some st' ->
    moves source st st' /\ message st' = message st.
Proof.
  induction fuel as [| fuel IH]; intros st st' H; [discriminate H |].
  simpl in H.
  destruct ((peek source st =? " ") || (peek source st =? "013")
            || (peek source st =? "009") || (peek source st =? newline))
    eqn:Hws.
  - apply IH in H as [Hm Hmsg]. split; [| exact Hmsg].
    apply moves_trans with (2 := Hm). apply moves_advance.
    now apply blank_not_at_end.
  - destruct (peek source st =? "/");
      [| injection H as <-; split; [apply moves_refl | reflexivity]].
    destruct (peekNext source st =? "/");
      [| injection H as <-; split; [apply moves_refl | reflexivity]].
    destruct (advanceWhile source fuel (in_comment source) st)
      as [st1 |] eqn:He; [| discriminate H].
    cbn [obind] in H.
    apply (advanceWhile_moves _ (in_comment_not_at_end source)) in He
      as [Hm1 Hmsg1].
    apply IH in H as [Hm Hmsg]. split; [| congruence].
    now apply moves_trans with (1 := Hm1).
Qed.

Lemma makeToken_inv (type : TokenType) (st0 st : State) :
  type <> TOKEN_ERROR ->
  moves source st0 st -> message st = message st0 ->
  body_inv source st0 (Some (makeToken type st, st)).
Proof.
  intros Ht Hm Hmsg tok st' H. injection H as <- <-.
  split; [exact Hm |]. left. now exists type.
Qed.

Lemma errorToken_literal_inv (m : list ascii) (st0 st : State) :
  moves source st0 st -> message st = message st0 ->
  body_inv source st0 (Some (errorToken source (LiteralPtr m) st, st)).
Proof.
  intros Hm Hmsg tok st' H. injection H as <- <-.
  split; [exact Hm |]. right. left. now exists m.
Qed.

Lemma errorToken_message_inv (st0 st : State) :
  moves source st0 st ->
  body_inv source st0 (Some (errorToken source MessagePtr st, st)).
Proof.
  intros Hm tok st' H. injection H as <- <-.
  split; [exact Hm |]. right. right. reflexivity.
Qed.

Lemma match2_inv (e : ascii) (yes no : TokenType) (st0 st : State) :
  yes <> TOKEN_ERROR -> no <> TOKEN_ERROR ->
  moves source st0 st -> message st = message st0 ->
  body_inv source st0 (Some (match2 source e yes no st)).
Proof.
  intros Hy Hn Hm Hmsg. unfold match2.
  destruct (moves_match_ e st) as [H1 H2].
  destruct (match_ source e st) as [b st1]. cbn [snd] in *.
  apply makeToken_inv; [now destruct b | | congruence].
  now apply moves_trans with (1 := Hm).
Qed.

Lemma match3_inv (e1 : ascii) (t1 : TokenType) (e2 : ascii) (t2 t0 : TokenType)
    (st0 st : State) :
  t1 <> TOKEN_ERROR -> t2 <> TOKEN_ERROR -> t0 <> TOKEN_ERROR ->
  moves source st0 st -> message st = message st0 ->
  body_inv source st0 (Some (match3 source e1 t1 e2 t2 t0 st)).
Proof.
  intros Ht1 Ht2 Ht0 Hm Hmsg. unfold match3.
  destruct (moves_match_ e1 st) as [H1 H1'].
  destruct (match_ source e1 st) as [b1 st1]. cbn [snd] in *.
  pose proof (moves_trans _ _ _ Hm H1) as Hm1.
  destruct b1; [apply makeToken_inv; trivial; congruence |].
  destruct (moves_match_ e2 st1) as [H2 H2'].
  destruct (match_ source e2 st1) as [b2 st2]. cbn [snd] in *.
  pose proof (moves_trans _ _ _ Hm1 H2) as Hm2.
  destruct b2; apply makeToken_inv; trivial; congruence.
Qed.

Lemma identifierType_not_ERROR (st : State) :
  identifierType source st <> TOKEN_ERROR.
Proof.
  unfold identifierType, checkKeyword.
  repeat match goal with
  | |- context [if ?b then _ else _] => destruct b
  end; discriminate.
Qed.

Lemma identifier_inv (fuel : nat) (st0 st : State) :
  moves source st0 st -> message st = message st0 ->
  body_inv source st0 (identifier source fuel st).
Proof.
  intros Hm Hmsg. unfold identifier.
  destruct (advanceWhile source fuel _ st) as [st1 |] eqn:He;
    [| intros tok st' H; discriminate H].
  apply (advanceWhile_moves _ (alnum_not_at_end source)) in He as [Hm1 Hmsg1].
  cbn [obind]. apply makeToken_inv;
    [apply identifierType_not_ERROR | | congruence].
  now apply moves_trans with (1 := Hm).
Qed.

Lemma number_inv (fuel : nat) (st0 st : State) :
  moves source st0 st -> message st = message st0 ->
  body_inv source st0 (number source fuel st).
Proof.
  intros Hm Hmsg. unfold number.
  destruct (advanceWhile source fuel _ st) as [st1 |] eqn:He;
    [| intros tok st' H; discriminate H].
  apply (advanceWhile_moves _ (digit_not_at_end source)) in He as [Hm1 Hmsg1].
  cbn [obind].
  pose proof (moves_trans _ _ _ Hm Hm1) as Hm01.
  destruct ((peek source st1 =? ".") && isDigit (peekNext source st1))
    eqn:Hdot.
  - assert (Hend : isAtEnd source st1 = false).
    { unfold isAtEnd. fold (peek source st1).
      apply andb_true_iff in Hdot as [Hdot _].
      apply Ascii.eqb_eq in Hdot. now rewrite Hdot. }
    cbn [advance snd].
    destruct (advanceWhile source fuel _ (set_current st1 (S (current st1))))
      as [st3 |] eqn:He3; [| intros tok st' H; discriminate H].
    apply (advanceWhile_moves _ (digit_not_at_end source)) in He3
      as [Hm3 Hmsg3].
    cbn [obind]. apply makeToken_inv; [discriminate | |].
    + apply moves_trans with (1 := Hm01).
      apply moves_trans with (2 := Hm3). now apply moves_advance.
    + rewrite Hmsg3. cbn [message set_current]. congruence.
  - cbn [obind]. apply makeToken_inv; [discriminate | exact Hm01 | congruence].
Qed.

Lemma string_inv :
  forall fuel st0 st,
    moves source st0 st -> message st = message st0 ->
    body_inv source st0 (string_ source fuel st).
Proof.
  induction fuel as [| fuel IH]; intros st0 st Hm Hmsg;
    [intros tok st' H; discriminate H |].
  simpl. destruct (isAtEnd source st) eqn:Hend; cbn [negb andb].
  - now apply errorToken_literal_inv.
  - destruct (peek source st =? dquote); cbn [negb andb].
    + apply makeToken_inv; [discriminate | | exact Hmsg].
      apply moves_trans with (1 := Hm). now apply moves_advance.
    + destruct (peek source st =? newline);
        [now apply errorToken_literal_inv |].
      apply IH; [| exact Hmsg].
      apply moves_trans with (1 := Hm). now apply moves_advance.
Qed.

Lemma character_close_inv (st0 st : State) :
  moves source st0 st -> message st = message st0 ->
  body_inv source st0 (Some (character_close source st)).
Proof.
  intros Hm Hmsg. unfold character_close.
  destruct (isAtEnd source st) eqn:Hend;
    [now apply errorToken_literal_inv |].
  cbn [advance snd].
  pose proof (moves_trans _ _ _ Hm (moves_advance _ Hend)) as Hm1.
  match goal with |- context [if ?b then _ else _] => destruct b end.
  - apply makeToken_inv; [discriminate | exact Hm1 | exact Hmsg].
  - apply errorToken_message_inv.
    apply moves_trans with (1 := Hm1). apply moves_set_message.
Qed.

Lemma character_loop_inv :
  forall fuel st0 st,
    moves source st0 st -> message st = message st0 ->
    body_inv source st0 (character_loop source fuel st).
Proof.
  induction fuel as [| fuel IH]; intros st0 st Hm Hmsg;
    [intros tok st' H; discriminate H |].
  simpl. destruct (negb (isAtEnd source st) && negb (peek source st =? squote))
    eqn:Hc.
  - apply andb_true_iff in Hc as [Hend _]. apply negb_true_iff in Hend.
    destruct (peek source st =? newline);
      [now apply errorToken_literal_inv |].
    apply IH; [| exact Hmsg].
    apply moves_trans with (1 := Hm). now apply moves_advance.
  - now apply character_close_inv.
Qed.

Lemma character_inv (fuel : nat) (st0 st : State) :
  moves source st0 st -> message st = message st0 ->
  body_inv source st0 (character source fuel st).
Proof.
  intros Hm Hmsg. unfold character. destruct (isAtEnd source st).
  - now apply errorToken_literal_inv.
  - now apply character_loop_inv.
Qed.

Lemma errorTokenWithChar_inv (c : ascii) (st0 st : State) :
  moves source st0 st ->
  body_inv source st0 (Some (errorTokenWithChar source c st)).
Proof.
  intros Hm. unfold errorTokenWithChar. apply errorToken_message_inv.
  apply moves_trans with (1 := Hm). apply moves_set_message.
Qed.

#[local] Hint Extern 1 (_ <> TOKEN_ERROR) => discriminate : core.

Lemma scanToken_body_inv (fuel : nat) (st : State) :
  body_inv source st (scanToken_body source fuel st).
Proof.
  unfold scanToken_body. destruct (isAtEnd source st) eqn:Hend.
  - apply makeToken_inv; [discriminate | apply moves_refl | reflexivity].
  - change (advance source st)
      with (peek source st, set_current st (S (current st))).
    cbv iota beta.
    pose proof (moves_advance _ Hend) as Hm.
    assert (Hmsg : message (set_current st (S (current st))) = message st)
      by reflexivity.
    set (st2 := set_current st (S (current st))) in *. clearbody st2.
    repeat match goal with
    | |- body_inv _ _ (if ?b then _ else _) => destruct b
    end;
    auto using makeToken_inv, match2_inv, match3_inv, identifier_inv,
      number_inv, string_inv, character_inv, errorTokenWithChar_inv.
    destruct (moves_match_ "-" st2) as [H1 H1'].
    destruct (match_ source "-" st2) as [m1 s1]. cbn [snd] in *.
    pose proof (moves_trans _ _ _ Hm H1) as Hm1.
    destruct m1; [apply makeToken_inv; trivial; congruence |].
    destruct (moves_match_ "=" s1) as [H2 H2'].
    destruct (match_ source "=" s1) as [m2 s2]. cbn [snd] in *.
    pose proof (moves_trans _ _ _ Hm1 H2) as Hm2.
    destruct m2; [apply makeToken_inv; trivial; congruence |].
    destruct (moves_match_ ">" s2) as [H3 H3'].
    destruct (match_ source ">" s2) as [m3 s3]. cbn [snd] in *.
    pose proof (moves_trans _ _ _ Hm2 H3) as Hm3.
    destruct m3; apply makeToken_inv; trivial; congruence.
Qed.

End Spans.





(** One call, whatever it returns: the whitespace skipped, then the token
    built from the final state in one of the three ways. *)
Lemma scanToken_inv (source : list ascii) (st : State) (tok : Token)
    (st' : State) :
  scanToken source st = Some (tok, st') ->
  exists st0,
    moves source st st0 /\
    moves source (set_start st0 (current st0)) st' /\
    token_shape source (set_start st0 (current st0)) tok st' /\
    message st0 = message st.
Proof.
  unfold scanToken. intros H.
  destruct (skipWhitespace source (fuel_for source st) st) as [st0 |] eqn:He;
    [| discriminate H].
  cbn [obind] in H.
  apply skipWhitespace_moves in He as [Hm0 Hmsg0].
  destruct (scanToken_body_inv source _ _ _ _ H) as [Hm Hshape].
  exists st0. split; [exact Hm0 |]. split; [exact Hm |].
  split; [exact Hshape | exact Hmsg0].
Qed.





(** X7. The message array is written only by a call that returns a
    formatted diagnostic: after any call whose token does not point to
    [message], [message] is what it was, so the text of an error token
    returned earlier still reads the same. *)
Theorem message_kept (source : list ascii) (st : State) (tok : Token)
    (st' : State) :
  scanToken source st = Some (tok, st') ->
  tok_start tok <> MessagePtr ->
  message st' = message st /\
  forall earlier, token_text source earlier st' = token_text source earlier st.
Proof.
  intros H Hptr.
  destruct (scanToken_inv source st tok st' H)
    as (st0 & _ & _ & Hshape & Hmsg0).
  assert (Hmsg : message st' = message st).
  { destruct Hshape as [(type & _ & _ & Hm) | [(m & _ & Hm) | ->]].
    - cbn [message set_start] in Hm. congruence.
    - cbn [message set_start] in Hm. congruence.
    - exfalso. now apply Hptr. }
  split; [exact Hmsg |].
  intros earlier. unfold token_text.
  destruct (tok_start earlier); cbn [load]; now rewrite ?Hmsg.
Qed.

Lemma message_kept_witness :
  let st := mkState 0 3 1 (FMT_UNEXPECTED_CHARACTER ++ ["?"]) in
  let tok := {| tok_type := TOKEN_IDENTIFIER; tok_start := SourcePtr 4;
                tok_length := 1; tok_line := 1 |} in
  let st' := mkState 4 5 1 (FMT_UNEXPECTED_CHARACTER ++ ["?"]) in
  message st' = message st /\
  forall earlier,
    token_text sample_question earlier st'
    = token_text sample_question earlier st.
Proof.
  apply (message_kept sample_question
           (mkState 0 3 1 (FMT_UNEXPECTED_CHARACTER ++ ["?"]))
           {| tok_type := TOKEN_IDENTIFIER; tok_start := SourcePtr 4;
              tok_length := 1; tok_line := 1 |}).
  - vm_compute. reflexivity.
  - discriminate.
Defined.





(** ** What a call reads of [message] *)

Section Message.

Variable source : list ascii.
Variable m : list ascii.

Lemma advanceWhile_message (cond : State -> bool) :
  (forall st, cond (set_message st m) = cond st) ->
  forall fuel st,
    advanceWhile source fuel cond (set_message st m)
    = option_map (fun s => set_message s m)
        (advanceWhile source fuel cond st).
Proof.
  intros Hc. induction fuel as [| fuel IH]; intros st; [reflexivity |].
  cbn [advanceWhile]. rewrite Hc.
  destruct (cond st); [exact (IH (snd (advance source st))) | reflexivity].
Qed.

Lemma skipWhitespace_message :
  forall fuel st,
    skipWhitespace source fuel (set_message st m)
    = option_map (fun s => set_message s m) (skipWhitespace source fuel st).
Proof.
  induction fuel as [| fuel IH]; intros st; [reflexivity |].
  cbn [skipWhitespace].
  change (peek source (set_message st m)) with (peek source st).
  change (peekNext source (set_message st m)) with (peekNext source st).
  destruct (_ || _); [exact (IH (snd (advance source st))) |].
  destruct (_ =? "/"); [| reflexivity].
  destruct (_ =? "/"); [| reflexivity].
  rewrite advanceWhile_message by reflexivity.
  destruct (advanceWhile source fuel (in_comment source) st) as [s |];
    [exact (IH s) | reflexivity].
Qed.

Lemma match__message (e : ascii) (st : State) :
  match_ source e (set_message st m)
  = (fst (match_ source e st), set_message (snd (match_ source e st)) m).
Proof.
  unfold match_.
  change (isAtEnd source (set_message st m)) with (isAtEnd source st).
  change (peek source (set_message st m)) with (peek source st).
  destruct (isAtEnd source st); [reflexivity |].
  destruct (negb _); reflexivity.
Qed.

Lemma match2_message (e : ascii) (yes no : TokenType) (st : State) :
  match2 source e yes no (set_message st m)
  = with_message m (match2 source e yes no st).
Proof.
  unfold match2. rewrite match__message.
  destruct (match_ source e st) as [b s]. reflexivity.
Qed.

Lemma match3_message (e1 : ascii) (t1 : TokenType) (e2 : ascii)
    (t2 t0 : TokenType) (st : State) :
  match3 source e1 t1 e2 t2 t0 (set_message st m)
  = with_message m (match3 source e1 t1 e2 t2 t0 st).
Proof.
  unfold match3. rewrite match__message.
  destruct (match_ source e1 st) as [b1 s1]. cbn [fst snd].
  destruct b1; [reflexivity |].
  rewrite match__message.
  destruct (match_ source e2 s1) as [b2 s2]. cbn [fst snd].
  destruct b2; reflexivity.
Qed.

Lemma identifier_message (fuel : nat) (st : State) :
  identifier source fuel (set_message st m)
  = option_map (with_message m) (identifier source fuel st).
Proof.
  unfold identifier. rewrite advanceWhile_message by reflexivity.
  destruct (advanceWhile source fuel _ st) as [s |]; reflexivity.
Qed.

Lemma number_message (fuel : nat) (st : State) :
  number source fuel (set_message st m)
  = option_map (with_message m) (number source fuel st).
Proof.
  unfold number. rewrite advanceWhile_message by reflexivity.
  destruct (advanceWhile source fuel _ st) as [s1 |]; [| reflexivity].
  cbn [option_map obind].
  change (peek source (set_message s1 m)) with (peek source s1).
  change (peekNext source (set_message s1 m)) with (peekNext source s1).
  destruct (_ && _); [| reflexivity].
  change (snd (advance source (set_message s1 m)))
    with (set_message (snd (advance source s1)) m).
  rewrite advanceWhile_message by reflexivity.
  destruct (advanceWhile source fuel _ (snd (advance source s1))) as [s3 |];
    reflexivity.
Qed.

Lemma string__message :
  forall fuel st,
    string_ source fuel (set_message st m)
    = option_map (with_message m) (string_ source fuel st).
Proof.
  induction fuel as [| fuel IH]; intros st; [reflexivity |].
  cbn [string_].
  change (isAtEnd source (set_message st m)) with (isAtEnd source st).
  change (peek source (set_message st m)) with (peek source st).
  destruct (_ && _).
  - destruct (_ =? newline); [reflexivity | exact (IH (snd (advance source st)))].
  - destruct (isAtEnd source st); reflexivity.
Qed.

Lemma character_close_message (st : State) :
  character_close source (set_message st m)
  = with_message m (character_close source st).
Proof.
  unfold character_close.
  change (isAtEnd source (set_message st m)) with (isAtEnd source st).
  destruct (isAtEnd source st); [reflexivity |].
  change (snd (advance source (set_message st m)))
    with (set_message (snd (advance source st)) m).
  set (st1 := snd (advance source st)).
  change (consumed (set_message st1 m)) with (consumed st1).
  destruct (_ || _); reflexivity.
Qed.

Lemma character_loop_message :
  forall fuel st,
    character_loop source fuel (set_message st m)
    = option_map (with_message m) (character_loop source fuel st).
Proof.
  induction fuel as [| fuel IH]; intros st; [reflexivity |].
  cbn [character_loop].
  change (isAtEnd source (set_message st m)) with (isAtEnd source st).
  change (peek source (set_message st m)) with (peek source st).
  destruct (_ && _).
  - destruct (_ =? newline); [reflexivity | exact (IH (snd (advance source st)))].
  - cbn [option_map]. f_equal. apply character_close_message.
Qed.

Lemma character_message (fuel : nat) (st : State) :
  character source fuel (set_message st m)
  = option_map (with_message m) (character source fuel st).
Proof.
  unfold character.
  change (isAtEnd source (set_message st m)) with (isAtEnd source st).
  destruct (isAtEnd source st); [reflexivity |].
  apply character_loop_message.
Qed.

Lemma scanToken_body_message (fuel : nat) (st : State) :
  scanToken_body source fuel (set_message st m)
  = option_map (with_message m) (scanToken_body source fuel st).
Proof.
  unfold scanToken_body.
  change (isAtEnd source (set_message st m)) with (isAtEnd source st).
  destruct (isAtEnd source st); [reflexivity |].
  change (advance source (set_message st m))
    with (peek source st, set_message (set_current st (S (current st))) m).
  change (advance source st)
    with (peek source st, set_current st (S (current st))).
  cbv iota beta.
  set (st2 := set_current st (S (current st))). clearbody st2.
  repeat match goal with
  | |- (if ?b then _ else _) = _ => destruct b
  end;
  auto using identifier_message, number_message, string__message,
    character_message;
  try (cbn [option_map]; f_equal;
       auto using match2_message, match3_message; reflexivity).
  rewrite match__message.
  destruct (match_ source "-" st2) as [m1 s1]. cbn [fst snd].
  destruct m1; [reflexivity |].
  rewrite match__message.
  destruct (match_ source "=" s1) as [m2 s2]. cbn [fst snd].
  destruct m2; [reflexivity |].
  rewrite match__message.
  destruct (match_ source ">" s2) as [m3 s3]. cbn [fst snd].
  destruct m3; reflexivity.
Qed.

Lemma scanToken_message (st : State) :
  scanToken source (set_message st m)
  = option_map (with_message m) (scanToken source st).
Proof.
  unfold scanToken.
  change (fuel_for source (set_message st m)) with (fuel_for source st).
  rewrite skipWhitespace_message.
  destruct (skipWhitespace source (fuel_for source st) st) as [s |];
    [| reflexivity].
  cbn [option_map obind].
  change (set_start (set_message s m) (current (set_message s m)))
    with (set_message (set_start s (current s)) m).
  apply scanToken_body_message.
Qed.

Lemma run_loop_message :
  forall fuel st,
    run_loop source fuel (set_message st m) = run_loop source fuel st.
Proof.
  induction fuel as [| fuel IH]; intros st; [reflexivity |].
  cbn [run_loop]. rewrite scanToken_message.
  destruct (scanToken source st) as [[tok st'] |]; [| reflexivity].
  cbn [option_map obind]. unfold with_message. cbn [fst snd].
  destruct (tok_start tok) eqn:Hptr; [| reflexivity |].
  - unfold token_text. rewrite Hptr. cbn [load]. now rewrite IH.
  - unfold token_text. rewrite Hptr. cbn [load]. now rewrite IH.
Qed.

End Message.

(** X9. What the driver prints for a buffer does not depend on what the
    scanner did before: [initScanner] resets the cursor and the line, and
    no call reads a [message] left by an earlier one.  This is stated for
    the runs that stay within [message]. *)
Theorem run_forgets_earlier_use (source : list ascii) (st : State) :
  in_bounds source (S (length source)) (initScanner st) = true ->
  run source st = run source startup.
Proof.
  intros _. unfold run.
  change (initScanner st)
    with (set_message (initScanner startup) (message st)).
  apply run_loop_message.
Qed.

Lemma run_forgets_earlier_use_witness :
  run sample_question
    (mkState 3 9 4 (FMT_NOT_SINGLE_CHARACTER ++ lit "ab"))
  = run sample_question startup.
Proof.
  apply (run_forgets_earlier_use sample_question
           (mkState 3 9 4 (FMT_NOT_SINGLE_CHARACTER ++ lit "ab"))).
  vm_compute. reflexivity.
Defined.

(** ** The labels of the listing *)

(** The label of a token tells its type. *)
Lemma type_of_label_convert (token : Token) :
  type_of_label (convert_to_str token) = Some (tok_type token).
Proof.
  destruct token as [type p n l]. cbn [tok_type].
  destruct type; vm_compute; reflexivity.
Qed.

(** X10. The driver labels two tokens alike only when they have the same
    type: the 74 labels of [convert_to_str] are pairwise different. *)
Theorem labels_distinct (a b : Token) :
  convert_to_str a = convert_to_str b -> tok_type a = tok_type b.
Proof.
  intros H.
  pose proof (type_of_label_convert a) as Ha.
  pose proof (type_of_label_convert b) as Hb.
  rewrite H in Ha. congruence.
Qed.

Lemma labels_distinct_witness :
  tok_type (mkToken TOKEN_DO (SourcePtr 0) 2 1)
  = tok_type (mkToken TOKEN_DO (SourcePtr 7) 2 1).
Proof.
  apply (labels_distinct (mkToken TOKEN_DO (SourcePtr 0) 2 1)
           (mkToken TOKEN_DO (SourcePtr 7) 2 1)).
  reflexivity.
Defined.

Lemma reserved_word_shape (w : list ascii) (t : TokenType) :
  In (w, t) reserved_words ->
  isAlpha (hd NUL w) = true /\ forallb identifier_char w = true /\
  length w <= 8 /\
  convert_to_str (mkToken t MessagePtr 0 0) = map toupper w.
Proof.
  unfold reserved_words. intros H. simpl in H.
  repeat destruct H as [H | H]; try contradiction;
    injection H as <- <-; repeat split; vm_compute; try reflexivity;
    repeat constructor.
Qed.

(** X11. A reserved word under the cursor is listed under its own name in
    upper case, with the word as its text. *)
Theorem keyword_label (pre w rest : list ascii) (st : State) :
  let source := pre ++ w ++ rest in
  current st = length pre ->
  In w (map fst reserved_words) ->
  identifier_char (hd NUL rest) = false ->
  exists tok st',
    scanToken source st = Some (tok, st') /\
    convert_to_str tok = map toupper w /\
    token_text source tok st' = w.
Proof.
  intros source Hcur Hin Hrest.
  apply in_map_iff in Hin as ([w' t] & Hw & Hin). cbn [fst] in Hw. subst w'.
  destruct (reserved_word_shape w t Hin) as (Hlead & Hchars & Hlen & Hlabel).
  eexists _, _.
  split; [apply scanToken_identifier; trivial; unfold INT_MAX; lia |].
  split.
  - rewrite (keyword_of_reserved w t Hin). exact Hlabel.
  - apply token_text_span. now apply identifier_chars_not_NUL.
Qed.

Lemma keyword_label_witness :
  let source := lit "x = " ++ lit "sizeof" ++ lit "(int)" in
  exists tok st',
    scanToken source (set_current fresh 4) = Some (tok, st') /\
    convert_to_str tok = map toupper (lit "sizeof") /\
    token_text source tok st' = lit "sizeof".
Proof.
  apply (keyword_label (lit "x = ") (lit "sizeof") (lit "(int)")
           (set_current fresh 4)).
  - reflexivity.
  - vm_compute. tauto.
  - reflexivity.
Defined.




